(** * Shopping assistant: query parsing, dispatch and the mock catalogue

    A shallow embedding of [src/agent.py] (class [ShoppingAssistant]) and
    [src/tools.py] (class [EcommerceTools]).

    Conventions of the embedding.
    - A Python [str] is a list of characters; a character is an 8-bit code
      point, so the model covers queries written in Latin-1 (code points
      0..255).  The character classes of [re] ([\w], [\s], [\d], [.]) and
      [str.lower], [str.split], [str.strip] follow Python's Unicode tables
      on that range.  [str.upper] takes three characters out of the range;
      its results, the sizes, are texts over the slightly larger alphabet
      [uchar].
    - A Python [float] is a binary64 value ([PrimFloat.float]); [float] of
      a numeral is shown to be the binary64 number nearest to it.
    - [Optional[T]] is [option T]; a raised exception is the right injection
      of [result]; the clock and the random source are read from an explicit
      [World] that is threaded through the calls.
    - Console output ([print], [debug_log], [_reason], [_act], [_use_tool])
      does not influence any returned value and is left out. *)

From Stdlib Require Import List Ascii String ZArith Lia Bool DecimalString.
From Stdlib Require Import PrimFloat SpecFloat FloatOps FloatAxioms.
From stdpp Require Import gmap.
Import ListNotations.

Set Warnings "-inexact-float,-via-type-remapping,-via-type-mismatch".

(** ** Strings *)

Definition str := list ascii.

Inductive strlit := LNil | LCons (c : ascii) (s : strlit).

Fixpoint strlit_of_bytes (l : list Byte.byte) : strlit :=
  match l with
  | [] => LNil
  | b :: l' => LCons (ascii_of_byte b) (strlit_of_bytes l')
  end.

Fixpoint bytes_of_strlit (l : strlit) : list Byte.byte :=
  match l with
  | LNil => []
  | LCons c l' => byte_of_ascii c :: bytes_of_strlit l'
  end.

Declare Scope str_scope.
Delimit Scope str_scope with str.
String Notation str strlit_of_bytes bytes_of_strlit
  (via strlit mapping [[nil] => LNil, [cons] => LCons]) : str_scope.
Open Scope str_scope.

Definition code (c : ascii) : N := N_of_ascii c.

Definition in_range (lo hi : N) (c : ascii) : bool :=
  (lo <=? code c)%N && (code c <=? hi)%N.

(** [str.isspace] and the class [\s] on code points 0..255. *)
Definition is_space (c : ascii) : bool :=
  in_range 9 13 c || in_range 28 32 c || (code c =? 133)%N || (code c =? 160)%N.

(** The class [\d]: the decimal digits. *)
Definition is_digit (c : ascii) : bool := in_range 48 57 c.

(** The class [\w]: alphanumeric characters and the underscore. *)
Definition is_word (c : ascii) : bool :=
  in_range 48 57 c || in_range 65 90 c || (code c =? 95)%N || in_range 97 122 c
  || (code c =? 170)%N || in_range 178 179 c || (code c =? 181)%N
  || in_range 185 186 c || in_range 188 190 c || in_range 192 214 c
  || in_range 216 246 c || in_range 248 255 c.

(** The class [.] (without DOTALL): anything but a line feed. *)
Definition is_dot (c : ascii) : bool := negb (code c =? 10)%N.

Definition lower_char (c : ascii) : ascii :=
  if in_range 65 90 c || (in_range 192 222 c && negb (code c =? 215)%N)
  then ascii_of_N (code c + 32) else c.

Definition lower (s : str) : str := map lower_char s.

Definition str_eqb (a b : str) : bool := bool_decide (a = b).

(** [str.upper] leaves the range 0..255 on three characters: code point
    223 gives the two letters SS, 181 gives U+039C and 255 gives U+0178.
    An upper-cased text is therefore a list of [uchar]: the characters of
    the range and the three code points that upper-casing, and lower-casing
    again, can reach from it. *)
Inductive uchar : Type :=
| Lat (c : ascii)
| U0178
| U039C
| U03BC.

Definition ustr : Type := list uchar.

#[global] Instance uchar_eq_dec : EqDecision uchar.
Proof. solve_decision. Defined.

(** A text of the range, as a [ustr]. *)
Definition utext (s : str) : ustr := map Lat s.

(** The characters of the range whose upper case is one character of the
    range. *)
Definition upper_char (c : ascii) : ascii :=
  if in_range 97 122 c || (in_range 224 254 c && negb (code c =? 247)%N)
  then ascii_of_N (code c - 32) else c.

Definition upper_one (c : ascii) : ustr :=
  if (code c =? 223)%N then [Lat "S"; Lat "S"]
  else if (code c =? 181)%N then [U039C]
  else if (code c =? 255)%N then [U0178]
  else [Lat (upper_char c)].

Definition upper (s : str) : ustr := flat_map upper_one s.

(** [str.lower] on an upper-cased text. *)
Definition ulower_char (c : uchar) : uchar :=
  match c with
  | Lat c => Lat (lower_char c)
  | U0178 => Lat (ascii_of_N 255)
  | U039C => U03BC
  | U03BC => U03BC
  end.

Definition ulower (s : ustr) : ustr := map ulower_char s.

Definition ustr_eqb (a b : ustr) : bool := bool_decide (a = b).

Fixpoint starts_with (p s : str) : bool :=
  match p, s with
  | [], _ => true
  | _ :: _, [] => false
  | a :: p', b :: s' => Ascii.eqb a b && starts_with p' s'
  end.

(** [sub in s] *)
Fixpoint contains (sub s : str) : bool :=
  starts_with sub s ||
  match s with
  | [] => false
  | _ :: s' => contains sub s'
  end.

(** [s.find(sub)], [None] standing for -1. *)
Fixpoint find (sub s : str) : option nat :=
  if starts_with sub s then Some 0%nat
  else match s with
       | [] => None
       | _ :: s' => option_map S (find sub s')
       end.

Fixpoint lstrip (s : str) : str :=
  match s with
  | c :: s' => if is_space c then lstrip s' else s
  | [] => []
  end.

Definition strip (s : str) : str := rev (lstrip (rev (lstrip s))).

(** [s.split()]: the maximal runs of non-space characters. *)
Fixpoint split_aux (cur : str) (s : str) : list str :=
  match s with
  | [] => match cur with [] => [] | _ => [rev cur] end
  | c :: s' =>
      if is_space c
      then match cur with [] => split_aux [] s' | _ => rev cur :: split_aux [] s' end
      else split_aux (c :: cur) s'
  end.

Definition split (s : str) : list str := split_aux [] s.

(** ** Exceptions, the clock and the random source *)

Inductive exn := TypeError | ValueError | AttributeError | KeyError | OverflowError.

Definition result (A : Type) : Type := (A + exn)%type.

(** A [datetime]: the proleptic Gregorian day number ([toordinal()]) and
    the time of day in microseconds. *)
Record datetime := { ordinal : Z; micros : Z }.

(** What the program reads from outside: the successive readings of
    [datetime.now()] and the successive draws of [random]. *)
Record World := {
  clock : nat -> datetime;
  clock_reads : nat;
  dice : nat -> Z;
  dice_rolls : nat
}.

Definition M (A : Type) : Type := World -> result A * World.

Definition ret {A} (a : A) : M A := fun w => (inl a, w).
Definition raise {A} (e : exn) : M A := fun w => (inr e, w).
Definition bind {A B} (m : M A) (f : A -> M B) : M B :=
  fun w => match m w with
           | (inl a, w') => f a w'
           | (inr e, w') => (inr e, w')
           end.
Definition lift {A} (r : result A) : M A := fun w => (r, w).

Notation "'do' x <- m ; f" := (bind m (fun x => f))
  (at level 10, x name, m at level 100, f at level 200).

(** [datetime.now()] *)
Definition now : M datetime :=
  fun w => (inl (clock w (clock_reads w)),
            {| clock := clock w; clock_reads := S (clock_reads w);
               dice := dice w; dice_rolls := dice_rolls w |}).

(** [random.randint(lo, hi)] *)
Definition randint (lo hi : Z) : M Z :=
  fun w => (inl (lo + dice w (dice_rolls w) mod (hi - lo + 1))%Z,
            {| clock := clock w; clock_reads := clock_reads w;
               dice := dice w; dice_rolls := S (dice_rolls w) |}).

(** ** Dates ([datetime]) *)

Open Scope Z_scope.

Definition is_leap (y : Z) : bool :=
  (y mod 4 =? 0) && (negb (y mod 100 =? 0) || (y mod 400 =? 0)).

Definition days_in_month (y m : Z) : Z :=
  if m =? 2 then (if is_leap y then 29 else 28)
  else if (m =? 4) || (m =? 6) || (m =? 9) || (m =? 11) then 30 else 31.

Definition days_before_year (y : Z) : Z :=
  (y - 1) * 365 + (y - 1) / 4 - (y - 1) / 100 + (y - 1) / 400.

Definition days_before_month (y m : Z) : Z :=
  fold_right Z.add 0 (map (days_in_month y) (map Z.of_nat (seq 1 (Z.to_nat (m - 1))))).

Definition ymd2ord (y m d : Z) : Z :=
  days_before_year y + days_before_month y m + d.

Definition max_ordinal : Z := 3652059.   (* 9999-12-31 *)

(** [datetime(year, month, day)] *)
Definition datetime_ymd (y m d : Z) : result datetime :=
  if (1 <=? y) && (y <=? 9999) && (1 <=? m) && (m <=? 12)
     && (1 <=? d) && (d <=? days_in_month y m)
  then inl {| ordinal := ymd2ord y m d; micros := 0 |}
  else inr ValueError.

(** [dt + timedelta(days=n)] *)
Definition add_days (dt : datetime) (n : Z) : result datetime :=
  let o := ordinal dt + n in
  if (1 <=? o) && (o <=? max_ordinal)
  then inl {| ordinal := o; micros := micros dt |}
  else inr OverflowError.

(** [dt.weekday()]: Monday is 0. *)
Definition weekday (dt : datetime) : Z := (ordinal dt + 6) mod 7.

(** [a <= b] on datetimes *)
Definition datetime_leb (a b : datetime) : bool :=
  (ordinal a <? ordinal b) || ((ordinal a =? ordinal b) && (micros a <=? micros b)).

(** The civil date of a day number, as [datetime.fromordinal] computes it. *)
Definition ord2ymd (o : Z) : Z * Z * Z :=
  let n := o - 1 in
  let n400 := n / 146097 in
  let n := n mod 146097 in
  let n100 := n / 36524 in
  let n := n mod 36524 in
  let n4 := n / 1461 in
  let n := n mod 1461 in
  let n1 := n / 365 in
  let n := n mod 365 in
  let year := n400 * 400 + 1 + n100 * 100 + n4 * 4 + n1 in
  if (n1 =? 4) || (n100 =? 4) then (year - 1, 12, 31)
  else
    let leapyear := (n1 =? 3) && (negb (n4 =? 24) || (n100 =? 3)) in
    let month := (n + 50) / 32 in
    let dim m := if (m =? 2) && leapyear then 29 else days_in_month 1 m in
    let preceding :=
      fold_right Z.add 0 (map dim (map Z.of_nat (seq 1 (Z.to_nat (month - 1))))) in
    if preceding >? n
    then (year, month - 1, n - (preceding - dim (month - 1)) + 1)
    else (year, month, n - preceding + 1).

Definition year_of (dt : datetime) : Z := fst (fst (ord2ymd (ordinal dt))).
Definition month_of (dt : datetime) : Z := snd (fst (ord2ymd (ordinal dt))).
Definition day_of (dt : datetime) : Z := snd (ord2ymd (ordinal dt)).

Close Scope Z_scope.

(** ** The catalogue ([tools.py]) *)

Record Product := {
  p_id : str;
  p_name : str;
  p_price : float;
  p_color : str;
  p_size : str;
  p_store : str;
  p_stock : Z;
  p_description : str
}.

Record ReturnPolicy := {
  rp_store : str;
  days_allowed : Z;
  free_returns : bool;
  conditions : str
}.

Definition products : list Product :=
  [ Build_Product "1" "Floral Summer Skirt" 35.99 "Floral" "S" "StoreA" 10
      "Beautiful floral pattern";
    Build_Product "2" "White Athletic Sneakers" 65.99 "White" "8" "StoreB" 5
      "Classic white sneakers";
    Build_Product "3" "Casual Denim Jacket" 80 "Blue" "M" "StoreA" 8
      "Casual denim jacket";
    Build_Product "4" "Cocktail Dress" 89.99 "Black" "S" "StoreB" 15
      "Elegant cocktail dress";
    Build_Product "5" "Casual Denim Jacket" 75.99 "Blue" "M" "StoreB" 6
      "Casual denim jacket";
    Build_Product "6" "Casual Denim Jacket" 82.99 "Blue" "M" "StoreC" 4
      "Casual denim jacket" ].

Definition stores : gmap str ReturnPolicy :=
  <["StoreA" := Build_ReturnPolicy "StoreA" 30 true "Items must be unworn with tags"]>
  (<["StoreB" := Build_ReturnPolicy "StoreB" 14 false "Return shipping fee applies"]>
  (<["StoreC" := Build_ReturnPolicy "StoreC" 21 true "Free returns within 21 days"]> ∅)).

Definition promo_codes : gmap str float :=
  <["SAVE10" := 0.10%float]> (<["SUMMER20" := 0.20%float]> ∅).

Record ShippingDetails := {
  available : bool;
  cost : float;
  estimated_days : Z;
  delivery_date : datetime
}.

(** Truth value of an optional float ([if max_price:]): [None] and zero
    are false. *)
Definition truthy_float (x : option float) : option float :=
  match x with
  | Some f => if (f =? 0)%float then None else Some f
  | None => None
  end.

(** Truth value of an optional string ([if color:]): [None] and the empty
    string are false. *)
Definition truthy_str {C : Type} (x : option (list C)) : option (list C) :=
  match x with
  | Some [] => None
  | Some s => Some s
  | None => None
  end.

Definition stopwords : list str :=
  ["a"; "the"; "in"; "with"; "and"; "or"; "for"; "to"; "under"].

Definition mem (x : str) (l : list str) : bool := existsb (str_eqb x) l.

Definition keywords_of (query : str) : list str :=
  map lower (List.filter (fun word => negb (mem (lower word) stopwords)) (split query)).

Definition product_text (p : Product) : str :=
  lower (p_name p ++ " " ++ p_description p ++ " " ++ p_color p).

(** One turn of the loop of [search_products]: is the product appended? *)
Definition product_selected (keywords : list str)
    (max_price : option float) (color : option str) (size : option ustr)
    (p : Product) : bool :=
  let keyword_matches := List.filter (fun keyword => contains keyword (product_text p)) keywords in
  match keyword_matches with
  | [] => false
  | _ =>
      match truthy_float max_price with
      | Some mx => negb (mx <? p_price p)%float
      | None => true
      end
      && match truthy_str color with
         | Some c => str_eqb (lower c) (lower (p_color p))
         | None => true
         end
      && match truthy_str size with
         | Some z => ustr_eqb (ulower z) (utext (lower (p_size p)))
         | None => true
         end
  end.

(** [search_products(query, max_price, color, size)] *)
Definition search_products (query : str)
    (max_price : option float) (color : option str) (size : option ustr) : list Product :=
  List.filter (product_selected (keywords_of query) max_price color size) products.

(** [random.randint(5, 7)], then the clock *)
Definition get_shipping_estimate (product : Product) (target_date : option datetime)
  : M ShippingDetails :=
  let base_shipping := 5.99%float in
  do days <- randint 5 7;
  do today <- now;
  do delivery <- lift (add_days today days);
  let avail :=
    match target_date with
    | Some target => datetime_leb delivery target
    | None => true
    end in
  ret {| available := avail; cost := base_shipping;
         estimated_days := days; delivery_date := delivery |}.

(** [apply_discount(price, code)] *)
Definition apply_discount (price : float) (code : str) : option float :=
  match promo_codes !! code with
  | Some discount => Some (price * (1 - discount))%float
  | None => None
  end.

(** A dict in insertion order: assigning to a key that is present keeps
    its place. *)
Fixpoint dict_set {V} (k : str) (v : V) (d : list (str * V)) : list (str * V) :=
  match d with
  | [] => [(k, v)]
  | (k', v') :: d' => if str_eqb k k' then (k, v) :: d' else (k', v') :: dict_set k v d'
  end.

(** [compare_prices(product_name)] *)
Definition compare_prices (product_name : str) : list (str * float) :=
  fold_left
    (fun results product =>
       if contains (lower product_name) (lower (p_name product))
       then dict_set (p_store product) (p_price product) results
       else results)
    products [].

(** [get_return_policy(store)] *)
Definition get_return_policy (store : str) : option ReturnPolicy := stores !! store.

(** ** Formatting *)

(** [str(n)] for an [int] *)
Definition str_of_Z (n : Z) : str := list_ascii_of_string (NilZero.string_of_int (Z.to_int n)).

Definition pad2 (n : Z) : str :=
  if (n <? 10)%Z then "0" ++ str_of_Z n else str_of_Z n.

(** [format(x, ".2f")]: the exact binary value, rounded half to even at
    two decimals. *)
Definition format_2f (x : float) : str :=
  let sign (s : bool) : str := if s then "-" else "" in
  match Prim2SF x with
  | S754_nan => "nan"
  | S754_infinity s => sign s ++ "inf"
  | S754_zero s => sign s ++ "0.00"
  | S754_finite s m e =>
      let n := (Z.pos m * 100)%Z in
      let cents :=
        if (0 <=? e)%Z then (n * 2 ^ e)%Z
        else
          let d := (2 ^ (- e))%Z in
          let q := (n / d)%Z in
          let r := (n mod d)%Z in
          match (2 * r ?= d)%Z with
          | Lt => q
          | Gt => (q + 1)%Z
          | Eq => if Z.even q then q else (q + 1)%Z
          end in
      sign s ++ str_of_Z (cents / 100) ++ "." ++ pad2 (cents mod 100)
  end.

Definition day_names : list str :=
  ["Monday"; "Tuesday"; "Wednesday"; "Thursday"; "Friday"; "Saturday"; "Sunday"].

Definition month_names : list str :=
  ["January"; "February"; "March"; "April"; "May"; "June"; "July"; "August";
   "September"; "October"; "November"; "December"].

(** [dt.strftime("%A, %B %d")] *)
Definition strftime_A_B_d (dt : datetime) : str :=
  nth (Z.to_nat (weekday dt)) day_names "" ++ ", "
  ++ nth (Z.to_nat (month_of dt - 1)) month_names "" ++ " " ++ pad2 (day_of dt).

(** [" ".join(parts)] *)
Fixpoint join_space (parts : list str) : str :=
  match parts with
  | [] => ""
  | [x] => x
  | x :: rest => x ++ " " ++ join_space rest
  end.

(** ** Regular expressions

    The fragment of Python's [re] that the program's patterns are written
    in, with [re]'s backtracking semantics: alternatives are tried left to
    right, a greedy repetition tries the longest run first and a lazy one
    the shortest, and [re.search] returns the match at the leftmost start
    position.  Every repetition in the program's patterns ranges over a
    character class. *)

Inductive regex :=
| Eps
| Cls (p : ascii -> bool)              (* one character of a class *)
| Seq (r1 r2 : regex)
| Alt (r1 r2 : regex)                  (* r1|r2 *)
| Star (greedy : bool) (p : ascii -> bool)   (* p* and p*? *)
| Grp (n : nat) (r : regex)            (* capturing group number n *)
| Bnd                                  (* \b *)
| Eos.                                 (* $ *)

(** A position in the subject: the text to the left of it (nearest
    character first), the text to the right, and the groups captured so
    far. *)
Record cursor := Cursor {
  before : str;
  after : str;
  caps : list (nat * str)
}.

Definition word_before (st : cursor) : bool :=
  match before st with c :: _ => is_word c | [] => false end.

Definition word_after (st : cursor) : bool :=
  match after st with c :: _ => is_word c | [] => false end.

Definition boundary (st : cursor) : bool := xorb (word_before st) (word_after st).

(** [$] matches at the end and just before a line feed that ends the subject. *)
Definition at_end (st : cursor) : bool :=
  match after st with
  | [] => true
  | [c] => (code c =? 10)%N
  | _ => false
  end.

(** The text between two positions of one subject. *)
Definition span (st st' : cursor) : str :=
  firstn (length (before st') - length (before st)) (after st).

Definition set_cap (n : nat) (v : str) (st : cursor) : cursor :=
  Cursor (before st) (after st) ((n, v) :: caps st).

Fixpoint assoc {V : Type} (n : nat) (l : list (nat * V)) : option V :=
  match l with
  | [] => None
  | (m, v) :: l' => if Nat.eqb n m then Some v else assoc n l'
  end.

Section Matcher.
Context {A : Type}.

Definition orelse (x y : option A) : option A :=
  match x with Some _ => x | None => y end.

Fixpoint star (greedy : bool) (p : ascii -> bool) (k : cursor -> option A)
    (l r : str) (g : list (nat * str)) : option A :=
  match r with
  | [] => k (Cursor l [] g)
  | c :: r' =>
      if p c then
        if greedy then orelse (star greedy p k (c :: l) r' g) (k (Cursor l r g))
        else orelse (k (Cursor l r g)) (star greedy p k (c :: l) r' g)
      else k (Cursor l r g)
  end.

(** [rmatch re st k]: match [re] at [st], then continue with [k]; the
    first success in priority order is the answer. *)
Fixpoint rmatch (re : regex) (st : cursor) (k : cursor -> option A) : option A :=
  match re with
  | Eps => k st
  | Cls p =>
      match after st with
      | c :: r => if p c then k (Cursor (c :: before st) r (caps st)) else None
      | [] => None
      end
  | Seq r1 r2 => rmatch r1 st (fun st' => rmatch r2 st' k)
  | Alt r1 r2 => orelse (rmatch r1 st k) (rmatch r2 st k)
  | Star greedy p => star greedy p k (before st) (after st) (caps st)
  | Grp n r => rmatch r st (fun st' => k (set_cap n (span st st') st'))
  | Bnd => if boundary st then k st else None
  | Eos => if at_end st then k st else None
  end.
End Matcher.

(** Pattern syntax. *)
Definition chr (c : ascii) : regex := Cls (Ascii.eqb c).

(** A literal character under [re.IGNORECASE]. *)
Definition chr_i (c : ascii) : regex :=
  Cls (fun x => Ascii.eqb (lower_char x) (lower_char c)).

Fixpoint lit (s : str) : regex :=
  match s with
  | [] => Eps
  | [c] => chr c
  | c :: s' => Seq (chr c) (lit s')
  end.

Fixpoint lit_i (s : str) : regex :=
  match s with
  | [] => Eps
  | [c] => chr_i c
  | c :: s' => Seq (chr_i c) (lit_i s')
  end.

Fixpoint alts (r : regex) (rs : list regex) : regex :=
  match rs with
  | [] => r
  | r' :: rs' => Alt r (alts r' rs')
  end.

Fixpoint seqs (rs : list regex) : regex :=
  match rs with
  | [] => Eps
  | [r] => r
  | r :: rs' => Seq r (seqs rs')
  end.

Definition opt (r : regex) : regex := Alt r Eps.                 (* r? *)
Definition plus (p : ascii -> bool) : regex := Seq (Cls p) (Star true p).   (* p+ *)
Definition plus_lazy (p : ascii -> bool) : regex := Seq (Cls p) (Star false p). (* p+? *)
Definition spaces : regex := Star true is_space.                 (* \s* *)
Definition spaces1 : regex := plus is_space.                     (* \s+ *)
Definition any_of (cs : str) (c : ascii) : bool := existsb (Ascii.eqb c) cs.

(** A match object: where the match starts, its text (group 0) and the
    captured groups. *)
Record Match := {
  m_start : nat;
  m_text : str;
  m_caps : list (nat * str)
}.

Definition match_at (re : regex) (l r : str) : option Match :=
  match rmatch re (Cursor l r []) Some with
  | Some st' =>
      Some {| m_start := length l;
              m_text := span (Cursor l r []) st';
              m_caps := caps st' |}
  | None => None
  end.

Fixpoint search_from (re : regex) (l r : str) : option Match :=
  match match_at re l r with
  | Some m => Some m
  | None =>
      match r with
      | [] => None
      | c :: r' => search_from re (c :: l) r'
      end
  end.

(** [re.search(pattern, s)] and [re.match(pattern, s)] *)
Definition re_search (re : regex) (s : str) : option Match := search_from re [] s.
Definition re_match (re : regex) (s : str) : option Match := match_at re [] s.

(** [m.group(n)]; a group that did not take part in the match is [None]. *)
Definition group (m : Match) (n : nat) : option str :=
  match n with
  | O => Some (m_text m)
  | _ => assoc n (m_caps m)
  end.

(** Truth value of the result of [re.search]. *)
Definition found {A} (o : option A) : bool :=
  match o with Some _ => true | None => false end.

(** [m.end()] *)
Definition m_end (m : Match) : nat := m_start m + length (m_text m).

(** [re.sub(pattern, repl, s)] for a literal replacement. *)
Fixpoint sub_from (fuel : nat) (re : regex) (repl : str) (l r : str) : str :=
  match fuel with
  | O => r
  | S fuel' =>
      match rmatch re (Cursor l r []) Some with
      | Some st' =>
          if (length l <? length (before st'))%nat
          then repl ++ sub_from fuel' re repl (before st') (after st')
          else
            match r with
            | [] => repl
            | c :: r' => repl ++ c :: sub_from fuel' re repl (c :: l) r'
            end
      | None =>
          match r with
          | [] => []
          | c :: r' => c :: sub_from fuel' re repl (c :: l) r'
          end
      end
  end.

Definition re_sub (re : regex) (repl s : str) : str :=
  sub_from (S (length s)) re repl [] s.

(** ** The assistant ([agent.py]) *)

(** [float(s)] on the texts the price patterns capture: digits with an
    optional fraction, converted to the nearest binary64 value.  Any other
    text is a [ValueError] here. *)
Fixpoint digits_value (acc : Z) (s : str) : option Z :=
  match s with
  | [] => Some acc
  | c :: s' =>
      if is_digit c then digits_value (acc * 10 + Z.of_N (code c - 48)) s' else None
  end.

Fixpoint split_dot (s : str) : str * option str :=
  match s with
  | [] => ([], None)
  | c :: s' =>
      if Ascii.eqb c "." then ([], Some s')
      else let (a, b) := split_dot s' in (c :: a, b)
  end.

Definition nearest_float (n : Z) (k : nat) : float :=
  match n with
  | Zpos m =>
      SF2Prim (SFdiv prec emax (S754_finite false m 0)
                 (S754_finite false (Z.to_pos (10 ^ Z.of_nat k)) 0))
  | _ => 0%float
  end.

Definition py_float (s : str) : result float :=
  let (ip, fp) := split_dot s in
  let fp := match fp with Some f => f | None => [] end in
  match ip, digits_value 0 (ip ++ fp) with
  | _ :: _, Some n =>
      inl (nearest_float n (length fp))
  | _, _ => inr ValueError
  end.

Definition numeral : regex := seqs [plus is_digit; opt (chr "."); Star true is_digit].

Definition price_under : regex := seqs [lit "under"; spaces; chr "$"; Grp 1 numeral].
Definition price_less_than : regex := seqs [lit "less than"; spaces; chr "$"; Grp 1 numeral].
Definition price_cheaper_than : regex :=
  seqs [lit "cheaper than"; spaces; chr "$"; Grp 1 numeral].
Definition price_or_less : regex := seqs [chr "$"; Grp 1 numeral; spaces; lit "or less"].
Definition price_bare : regex := seqs [chr "$"; Grp 1 numeral; spaces].

Definition price_patterns : list regex :=
  [price_under; price_less_than; price_cheaper_than; price_or_less; price_bare].

Definition weekdays : list str :=
  ["monday"; "tuesday"; "wednesday"; "thursday"; "friday"; "saturday"; "sunday"].

Definition weekday_alt : regex :=
  alts (lit "monday")
    [lit "tuesday"; lit "wednesday"; lit "thursday"; lit "friday"; lit "saturday"; lit "sunday"].

Definition month_day : regex := seqs [plus is_word; spaces; plus is_digit].

Definition date_by : regex := seqs [lit "by"; spaces; Grp 1 weekday_alt].
Definition date_before : regex := seqs [lit "before"; spaces; Grp 1 weekday_alt].
Definition date_deliver : regex :=
  seqs [lit "deliver"; opt (Alt (lit "ed") (chr "y")); spaces; lit "by"; spaces;
        Grp 1 month_day].
Definition date_arrive : regex :=
  seqs [lit "arrive"; spaces; lit "by"; spaces; Grp 1 month_day].

Definition date_patterns : list regex :=
  [date_by; date_before; date_deliver; date_arrive].

Definition comparison_patterns : list regex :=
  [ seqs [lit "better deal"; opt (chr "s")];
    lit "compare";
    lit "cheaper";
    lit "best price";
    lit "lowest price";
    lit "price difference";
    lit "price comparison" ].

Definition return_patterns : list regex :=
  [ lit "return policy";
    lit "can i return";
    seqs [lit "return"; opt (chr "s")];
    lit "refund";
    lit "exchange" ].

(** ['] and the double quote *)
Definition is_quote (c : ascii) : bool := (code c =? 39)%N || (code c =? 34)%N.

Definition quote_pattern : regex := seqs [Cls is_quote; Grp 1 (Star false is_dot); Cls is_quote].

Definition word_or_space (c : ascii) : bool := is_word c || is_space c.

Definition a_an : regex := opt (Alt (chr "a") (lit "an")).

Definition name_end : regex :=
  alts (lit "under")
    [chr "$"; lit "in size"; lit "with size"; lit "color"; lit "from"; lit "at"; chr "?"; Eos].

Definition product_indicators : list regex :=
  [ seqs [alts (lit "looking for") [lit "find"; lit "need"; lit "want"]; spaces1;
          a_an; spaces; Grp 1 (plus_lazy word_or_space); name_end];
    seqs [alts (lit "find") [lit "get"; lit "show"]; spaces1;
          opt (Seq (lit "me") spaces1); a_an; spaces;
          Grp 1 (plus_lazy word_or_space); name_end];
    seqs [a_an; spaces;
          Grp 1 (seqs [opt (Seq (plus is_word) spaces1);
                       alts (lit "skirt")
                         [lit "dress"; lit "jacket"; lit "shoes"; lit "sneakers"; lit "top"]]);
          spaces1; name_end] ].

Definition filler_words : regex :=
  seqs [Bnd; Grp 1 (alts (chr "a") [lit "an"; lit "the"; lit "some"]); Bnd].

Definition product_types : list str := ["skirt"; "dress"; "jacket"; "sneakers"; "shoes"].

(** [query[:i]], where [i] is the result of [find] (-1 when [None]). *)
Definition slice_to (query : str) (i : option nat) : str :=
  match i with
  | Some n => firstn n query
  | None => removelast query
  end.

(** The first tier of [_extract_product_name]: the text between quotes,
    unless the text in front of the quoted span contains "code".  [None]
    when the tier does not return. *)
Definition quote_tier (query : str) : option (option str) :=
  match re_search quote_pattern query with
  | Some quote_match =>
      if negb (contains "code" (lower (slice_to query (find (m_text quote_match) query))))
      then Some (group quote_match 1)
      else None
  | None => None
  end.

(** The second tier: the phrase templates, tried in order. *)
Fixpoint indicator_tier (patterns : list regex) (lq : str) : result (option str) :=
  match patterns with
  | [] => inl None
  | pattern :: rest =>
      match re_search pattern lq with
      | Some m =>
          match group m 1 with
          | Some g =>
              let product_name := strip (re_sub filler_words "" (strip g)) in
              match product_name with
              | [] => indicator_tier rest lq
              | _ => inl (Some product_name)
              end
          | None => inr AttributeError
          end
      | None => indicator_tier rest lq
      end
  end.

(** The third tier: the known product nouns. *)
Fixpoint type_tier (types : list str) (lq : str) : option str :=
  match types with
  | [] => None
  | product_type :: rest =>
      if contains product_type lq then
        match re_search (seqs [Grp 1 (plus is_word); spaces1; lit product_type]) lq with
        | Some adj_match =>
            Some (match group adj_match 1 with Some a => a | None => "None" end
                  ++ " " ++ product_type)
        | None => Some product_type
        end
      else type_tier rest lq
  end.

Definition fallback_tiers (query : str) : result (option str) :=
  match indicator_tier product_indicators (lower query) with
  | inl (Some name) => inl (Some name)
  | inl None => inl (type_tier product_types (lower query))
  | inr e => inr e
  end.

Definition _extract_product_name (query : str) : result (option str) :=
  match quote_tier query with
  | Some name => inl name
  | None => fallback_tiers query
  end.

(** [datetime.strptime(text, "%B %d")].  The format is compiled to the
    pattern [(month name)\s+(day)] under IGNORECASE and matched at the
    start of the text; text left over is an error.  No year is parsed, so
    the year is 1900, in which February has 28 days. *)
Definition strptime_month : regex :=
  alts (lit_i "september")
    [lit_i "february"; lit_i "november"; lit_i "december"; lit_i "january";
     lit_i "october"; lit_i "august"; lit_i "march"; lit_i "april"; lit_i "june";
     lit_i "july"; lit_i "may"].

Definition strptime_day : regex :=
  alts (Seq (chr "3") (Cls (in_range 48 49)))
    [Seq (Cls (in_range 49 50)) (Cls is_digit);
     Seq (chr "0") (Cls (in_range 49 57));
     Cls (in_range 49 57);
     Seq (chr " ") (Cls (in_range 49 57))].

Definition strptime_pattern : regex :=
  seqs [Grp 1 strptime_month; spaces1; Grp 2 strptime_day].

Fixpoint index_of (x : str) (l : list str) : option nat :=
  match l with
  | [] => None
  | y :: l' => if str_eqb x y then Some 0%nat else option_map S (index_of x l')
  end.

Definition strptime_B_d (text : str) : result datetime :=
  match re_match strptime_pattern text with
  | Some found =>
      if negb (m_end found =? length text)%nat then inr ValueError
      else
        match group found 1, group found 2 with
        | Some b, Some d =>
            match index_of (lower b) (map lower month_names),
                  digits_value 0 (lstrip d) with
            | Some i, Some day => datetime_ymd 1900 (Z.of_nat (S i)) day
            | _, _ => inr ValueError
            end
        | _, _ => inr ValueError
        end
  | None => inr ValueError
  end.

Definition days_map : gmap str Z :=
  <["monday" := 0%Z]> (<["tuesday" := 1%Z]> (<["wednesday" := 2%Z]>
  (<["thursday" := 3%Z]> (<["friday" := 4%Z]> (<["saturday" := 5%Z]>
  (<["sunday" := 6%Z]> ∅)))))).

(** The number of days added to today for a weekday deadline. *)
Definition days_until (target_day_num current_day : Z) : Z :=
  let d := ((target_day_num - current_day) mod 7)%Z in
  if (d =? 0)%Z then 7%Z else d.

(** [_parse_delivery_date(query)]: the loop over the date patterns. *)
Fixpoint parse_date_loop (patterns : list regex) (lq : str) : M (option datetime) :=
  match patterns with
  | [] => ret None
  | pattern :: rest =>
      match re_search pattern lq with
      | Some m =>
          let target_day := group m 1 in
          do today <- now;
          match target_day with
          | Some day =>
              if mem day weekdays then
                match days_map !! day with
                | Some target_day_num =>
                    do d <- lift (add_days today (days_until target_day_num (weekday today)));
                    ret (Some d)
                | None => raise KeyError
                end
              else
                match strptime_B_d day with
                | inl d => ret (Some d)
                | inr ValueError => parse_date_loop rest lq
                | inr e => raise e
                end
          | None => raise TypeError
          end
      | None => parse_date_loop rest lq
      end
  end.

Definition _parse_delivery_date (query : str) : M (option datetime) :=
  parse_date_loop date_patterns (lower query).

(** The intent record built by [parse_query]. *)
Record Info := {
  max_price : option float;
  size : option ustr;
  color : option str;
  store : option str;
  delivery_target : option datetime;
  discount_code : option str;
  product_name : option str;
  query_type : str
}.

(** The first pattern of the list that matches, with its match. *)
Fixpoint first_match (patterns : list regex) (s : str) : option Match :=
  match patterns with
  | [] => None
  | pattern :: rest =>
      match re_search pattern s with
      | Some m => Some m
      | None => first_match rest s
      end
  end.

Definition extract_max_price (query : str) : result (option float) :=
  match first_match price_patterns query with
  | Some m =>
      match group m 1 with
      | Some g => match py_float g with inl x => inl (Some x) | inr e => inr e end
      | None => inr TypeError
      end
  | None => inl None
  end.

Definition size_patterns : list regex :=
  [ seqs [lit "size"; spaces1; Grp 1 (plus is_word)];
    seqs [lit "in"; spaces1; Grp 1 (plus is_word); spaces1; lit "size"];
    seqs [lit "size:"; spaces; Grp 1 (plus is_word)] ].

Definition extract_size (query : str) : result (option ustr) :=
  match first_match size_patterns (lower query) with
  | Some m =>
      match group m 1 with
      | Some g => inl (Some (upper g))
      | None => inr AttributeError
      end
  | None => inl None
  end.

Definition colors : list str :=
  ["white"; "black"; "blue"; "red"; "green"; "yellow"; "floral"].

Definition whole_word (w : str) : regex := seqs [Bnd; lit w; Bnd].

Fixpoint color_loop (cs : list str) (lq : str) : option str :=
  match cs with
  | [] => None
  | color :: rest =>
      if contains color lq then
        match re_search (whole_word color) lq with
        | Some _ => Some color
        | None => color_loop rest lq
        end
      else color_loop rest lq
  end.

Definition extract_color (query : str) : option str := color_loop colors (lower query).

Definition any_match (patterns : list regex) (s : str) : bool :=
  existsb (fun pattern => found (re_search pattern s)) patterns.

Definition classify (query : str) : str :=
  if any_match comparison_patterns (lower query) then "comparison"
  else if any_match return_patterns (lower query) then "return"
  else "search".

Definition store_pattern : regex :=
  seqs [alts (lit "at") [lit "from"; lit "in"; lit "store"]; spaces1;
        Grp 1 (Seq (lit "Store") (Cls (any_of "ABC")))].

Definition extract_store (query : str) : option str :=
  match re_search store_pattern query with
  | Some store_match => group store_match 1
  | None => None
  end.

Definition code_token : regex :=
  seqs [Cls is_quote; Grp 1 (plus (fun c => is_word c || is_digit c)); Cls is_quote].

Definition discount_patterns : list regex :=
  [ Seq (lit_i "discount code ") code_token;
    Seq (lit_i "code ") code_token;
    Seq (lit_i "coupon ") code_token ].

Definition extract_discount_code (query : str) : option str :=
  match first_match discount_patterns query with
  | Some m => group m 1
  | None => None
  end.

(** [parse_query(query)] *)
Definition parse_query (query : str) : M Info :=
  do name <- lift (_extract_product_name query);
  do price <- lift (extract_max_price query);
  do sz <- lift (extract_size query);
  let col := extract_color query in
  do target <- _parse_delivery_date query;
  let qtype := classify query in
  let st := extract_store query in
  let disc := extract_discount_code query in
  ret {| max_price := price; size := sz; color := col; store := st;
         delivery_target := target; discount_code := disc;
         product_name := name; query_type := qtype |}.

(** [sorted(items, key=lambda x: x[1])]: a stable sort by price. *)
Fixpoint insert_by_price (x : str * float) (l : list (str * float)) : list (str * float) :=
  match l with
  | [] => [x]
  | y :: l' => if (snd x <? snd y)%float then x :: l else y :: insert_by_price x l'
  end.

Definition sorted_by_price (items : list (str * float)) : list (str * float) :=
  fold_left (fun acc x => insert_by_price x acc) items [].

Definition show_opt (x : option str) : str :=
  match x with Some s => s | None => "None" end.

(** [_handle_return_query(info)] *)
Definition _handle_return_query (info : Info) : str :=
  match match store info with Some s => get_return_policy s | None => None end with
  | Some policy =>
      show_opt (store info) ++ " accepts returns within " ++ str_of_Z (days_allowed policy)
      ++ " days. "
      ++ (if free_returns policy then "Returns are free" else "Return shipping fee applies")
      ++ ". " ++ conditions policy
  | None =>
      "Sorry, I couldn't find return policy information for " ++ show_opt (store info)
  end.

(** The loop of [_handle_comparison_query] over the sorted prices: a line
    is added for a price that is at most [max_price]; comparing a price
    with [None] raises [TypeError]. *)
Fixpoint comparison_lines (max_price : option float) (items : list (str * float))
    (response : str) : result str :=
  match items with
  | [] => inl response
  | (store, price) :: rest =>
      match max_price with
      | Some mx =>
          if (price <=? mx)%float
          then comparison_lines max_price rest
                 (response ++ "- " ++ store ++ ": $" ++ format_2f price ++ [ascii_of_N 10])
          else comparison_lines max_price rest response
      | None => inr TypeError
      end
  end.

(** [_handle_comparison_query(info)] *)
Definition _handle_comparison_query (info : Info) : result str :=
  match truthy_str (product_name info) with
  | None =>
      inl "I couldn't determine which product you want to compare. Please specify the product name."
  | Some name =>
      let comparisons := compare_prices name in
      match comparisons with
      | _ :: _ =>
          comparison_lines (max_price info) (sorted_by_price comparisons)
            ("Here are the prices for the " ++ name ++ " across stores:" ++ [ascii_of_N 10])
      | [] => inl ("Sorry, I couldn't find any price comparisons for " ++ name ++ ".")
      end
  end.

(** [_format_product_response(product, info)] *)
Definition _format_product_response (product : Product) (info : Info) : M str :=
  let response :=
    [ "I found a " ++ p_name product ++ " in size " ++ p_size product ++ " for $"
      ++ format_2f (p_price product) ++ " at " ++ p_store product ++ ".";
      "It's in stock (" ++ str_of_Z (p_stock product) ++ " available)." ] in
  do response <-
    match delivery_target info with
    | Some target =>
        do shipping <- get_shipping_estimate product (Some target);
        do today <- now;
        do estimated_date <- lift (add_days today (estimated_days shipping));
        let date_str := strftime_A_B_d estimated_date in
        if available shipping then
          ret (response ++
               [ "It can be delivered by " ++ date_str ++ " (estimated "
                 ++ str_of_Z (estimated_days shipping) ++ " days) for $"
                 ++ format_2f (cost shipping) ++ " shipping." ])
        else
          ret (response ++
               [ "Sorry, we cannot guarantee delivery by your requested date. "
                 ++ "Estimated delivery would be " ++ date_str ++ "." ])
    | None => ret response
    end;
  let response :=
    match truthy_str (discount_code info) with
    | Some code =>
        match truthy_float (apply_discount (p_price product) code) with
        | Some discounted_price =>
            response ++
            [ "With discount code '" ++ code ++ "', the final price would be $"
              ++ format_2f discounted_price ++ "." ]
        | None => response ++ [ "The discount code '" ++ code ++ "' is not valid." ]
        end
    | None => response
    end in
  ret (join_space response).

(** [_handle_search_query(info)] *)
Definition _handle_search_query (info : Info) : M str :=
  let query := match truthy_str (product_name info) with Some n => n | None => "" end in
  let results := search_products query (max_price info) (color info) (size info) in
  match results with
  | [] => ret "I couldn't find any products matching your criteria."
  | first :: _ => _format_product_response first info
  end.

(** [handle_query(query)] *)
Definition handle_query (query : str) : M str :=
  do info <- parse_query query;
  if str_eqb (query_type info) "return" && bool_decide (truthy_str (store info) <> None)
  then ret (_handle_return_query info)
  else if str_eqb (query_type info) "comparison"
          && bool_decide (truthy_str (product_name info) <> None)
  then lift (_handle_comparison_query info)
  else _handle_search_query info.

(** * Vocabulary of the statements *)

(** [matches re st st'] holds when [re] can match the text between the
    positions [st] and [st'], whatever the priorities. *)
Inductive matches : regex -> cursor -> cursor -> Prop :=
| matches_eps st : matches Eps st st
| matches_cls p c l r g :
    p c = true -> matches (Cls p) (Cursor l (c :: r) g) (Cursor (c :: l) r g)
| matches_seq r1 r2 st1 st2 st3 :
    matches r1 st1 st2 -> matches r2 st2 st3 -> matches (Seq r1 r2) st1 st3
| matches_alt_l r1 r2 st st' : matches r1 st st' -> matches (Alt r1 r2) st st'
| matches_alt_r r1 r2 st st' : matches r2 st st' -> matches (Alt r1 r2) st st'
| matches_star greedy p a l r g :
    forallb p a = true ->
    matches (Star greedy p) (Cursor l (a ++ r) g) (Cursor (rev a ++ l) r g)
| matches_grp n r st st' :
    matches r st st' -> matches (Grp n r) st (set_cap n (span st st') st')
| matches_bnd st : boundary st = true -> matches Bnd st st
| matches_eos st : at_end st = true -> matches Eos st st.

#[local] Hint Constructors matches : core.

(** The texts a pattern spells out, positions and captures left aside. *)
Inductive spells : regex -> str -> Prop :=
| spells_eps : spells Eps []
| spells_cls p c : p c = true -> spells (Cls p) [c]
| spells_seq r1 r2 u v : spells r1 u -> spells r2 v -> spells (Seq r1 r2) (u ++ v)
| spells_alt_l r1 r2 u : spells r1 u -> spells (Alt r1 r2) u
| spells_alt_r r1 r2 u : spells r2 u -> spells (Alt r1 r2) u
| spells_star greedy p u : forallb p u = true -> spells (Star greedy p) u
| spells_grp n r u : spells r u -> spells (Grp n r) u
| spells_bnd : spells Bnd []
| spells_eos : spells Eos [].

#[local] Hint Constructors spells : core.

(** The bodies of the groups numbered [n] in a pattern. *)
Fixpoint group_bodies (n : nat) (re : regex) : list regex :=
  match re with
  | Seq r1 r2 | Alt r1 r2 => group_bodies n r1 ++ group_bodies n r2
  | Grp m r => (if Nat.eqb n m then [r] else []) ++ group_bodies n r
  | _ => []
  end.

(** Does every match of the pattern capture group [n]? *)
Fixpoint binds (n : nat) (re : regex) : bool :=
  match re with
  | Seq r1 r2 => binds n r1 || binds n r2
  | Alt r1 r2 => binds n r1 && binds n r2
  | Grp m r => Nat.eqb n m || binds n r
  | _ => false
  end.

(** Every reading of the clock is a valid day, more than a week before the
    last day that [datetime] can hold. *)
Definition sane_clock (w : World) : Prop :=
  forall n, (1 <= ordinal (clock w n) /\ ordinal (clock w n) + 7 <= max_ordinal)%Z.

(** The texts of the pattern [\d+\.?\d*]. *)
Inductive numeral_text : str -> Prop :=
| numeral_int ip :
    ip <> [] -> forallb is_digit ip = true -> numeral_text ip
| numeral_frac ip fp :
    ip <> [] -> forallb is_digit ip = true -> forallb is_digit fp = true ->
    numeral_text (ip ++ "." ++ fp).

(** The world after one reading of the clock. *)
Definition tick (w : World) : World :=
  {| clock := clock w; clock_reads := S (clock_reads w);
     dice := dice w; dice_rolls := dice_rolls w |}.

(** A world for the examples: Tuesday 3 November 2026, noon. *)
Definition sample_world : World :=
  {| clock := fun _ => {| ordinal := 739923; micros := 43200000000 |};
     clock_reads := 0;
     dice := fun _ => 1%Z;
     dice_rolls := 0 |}.

(** A keyword pattern: a literal, possibly followed by an optional letter. *)
Inductive keyword_pattern (w : str) : regex -> Prop :=
| keyword_lit : keyword_pattern w (lit w)
| keyword_opt c : keyword_pattern w (Seq (lit w) (opt (chr c))).

(** The literal texts that the patterns of the two keyword buckets look
    for. *)
Definition comparison_keywords : list str :=
  ["better deal"; "compare"; "cheaper"; "best price"; "lowest price";
   "price difference"; "price comparison"].

Definition return_keywords : list str :=
  ["return policy"; "can i return"; "return"; "refund"; "exchange"].

(** Does the text end, or begin, with a word character? *)
Definition word_last (pre : str) : bool :=
  match rev pre with c :: _ => is_word c | [] => false end.

Definition word_first (post : str) : bool :=
  match post with c :: _ => is_word c | [] => false end.

(** [c] stands in [s] as a whole word: no word character touches it. *)
Definition occurs_as_word (c s : str) : Prop :=
  exists pre post, s = pre ++ c ++ post /\ word_last pre = false /\ word_first post = false.

(** A vocabulary word begins and ends with a word character. *)
Definition wordy (c : str) : bool := word_first c && word_last c.

(** A keyword, blanks and a weekday name: the shape of the first two date
    patterns. *)
Definition deadline_pattern (kw : str) : regex := seqs [lit kw; spaces; Grp 1 weekday_alt].

(** A numeral: an integer part and, optionally, a dot and a fraction. *)
Definition numeral_str (ip : str) (fp : option str) : str :=
  match fp with
  | Some f => ip ++ "." ++ f
  | None => ip
  end.

Definition fraction (fp : option str) : str :=
  match fp with Some f => f | None => [] end.

Definition starts_with_digit (s : str) : bool :=
  match s with c :: _ => is_digit c | [] => false end.

(** The numeral is not continued by the text that follows it. *)
Definition numeral_ends (fp : option str) (post : str) : bool :=
  negb (starts_with_digit post)
  && match fp with
     | Some _ => true
     | None => negb (starts_with "." post)
     end.

(** The text begins with "under", blanks, a dollar sign and a digit. *)
Definition under_phrase (s : str) : bool :=
  starts_with "under" s
  && match lstrip (skipn 5 s) with
     | d :: c :: _ => Ascii.eqb d "$" && is_digit c
     | _ => false
     end.

(** No text that starts inside [pre] is an under-phrase. *)
Fixpoint first_under_phrase (pre rest : str) : bool :=
  match pre with
  | [] => true
  | _ :: pre' => negb (under_phrase (pre ++ rest)) && first_under_phrase pre' rest
  end.

(** The text begins with the keyword, blanks and the name of a weekday. *)
Definition weekday_phrase (kw s : str) : bool :=
  starts_with kw s
  && existsb (fun name => starts_with name (lstrip (skipn (length kw) s)))
       ["monday"; "tuesday"; "wednesday"; "thursday"; "friday"; "saturday"; "sunday"].

(** No text that starts inside [pre] is such a phrase. *)
Fixpoint first_weekday_phrase (kw pre rest : str) : bool :=
  match pre with
  | [] => true
  | _ :: pre' => negb (weekday_phrase kw (pre ++ rest)) && first_weekday_phrase kw pre' rest
  end.

(** Patterns whose matches do not depend on what surrounds the text. *)
Fixpoint context_free (re : regex) : bool :=
  match re with
  | Seq r1 r2 | Alt r1 r2 => context_free r1 && context_free r2
  | Grp _ r => context_free r
  | Bnd | Eos => false
  | _ => true
  end.

(** The [n] integers from [lo] on. *)
Definition range_Z (lo : Z) (n : nat) : list Z := map (fun i => (lo + Z.of_nat i)%Z) (seq 0 n).

(** One line of the comparison answer. *)
Definition comparison_line (item : str * float) : str :=
  "- " ++ fst item ++ ": $" ++ format_2f (snd item) ++ [ascii_of_N 10].

(** No item is priced below an item that stands before it. *)
Fixpoint ascending (l : list (str * float)) : Prop :=
  match l with
  | [] => True
  | a :: l' => (forall b, In b l' -> (snd b <? snd a)%float = false) /\ ascending l'
  end.

(** The test that [search_products] makes on an optional colour or size:
    absent and empty values pass every product. *)
Definition same_text (wanted : option str) (actual : str) : bool :=
  match truthy_str wanted with
  | Some v => str_eqb (lower v) (lower actual)
  | None => true
  end.

(** The same test on a size, which may be an upper-cased text. *)
Definition same_size (wanted : option ustr) (actual : str) : bool :=
  match truthy_str wanted with
  | Some v => ustr_eqb (ulower v) (utext (lower actual))
  | None => true
  end.

(** The world after some more readings of the clock and rolls of the
    dice. *)
Definition bump (reads rolls : nat) (w : World) : World :=
  {| clock := clock w; clock_reads := reads + clock_reads w;
     dice := dice w; dice_rolls := rolls + dice_rolls w |}.

(** ** Numerals as binary64 numbers *)

Open Scope Z_scope.

(** The number written by a run of decimal digits. *)
Definition decimal_digits (ds : str) : Z :=
  fold_left (fun acc c => acc * 10 + (Z.of_N (code c) - 48)) ds 0.

(** The value of a non-negative finite binary64 number, in units of
    2^-1074, the smallest positive one. *)
Definition finite_units (s : spec_float) : option Z :=
  match s with
  | S754_zero _ => Some 0
  | S754_finite false m e => Some (Zpos m * 2 ^ (e + 1074))
  | _ => None
  end.

Definition even_mantissa (s : spec_float) : bool :=
  match s with
  | S754_finite _ m _ => Z.even (Zpos m)
  | _ => true
  end.

(** 2^1024 - 2^970, half way between the largest finite binary64 number
    and 2^1024, in units of 2^-1074: from there on numbers round to
    infinity. *)
Definition overflow_units : Z := 2 ^ 2098 - 2 ^ 2044.

(** [s] is the binary64 number nearest to [N / D] units, ties to even: no
    non-negative binary64 number is nearer, and when another one is as near
    the mantissa of [s] is even; at or beyond the overflow threshold [s] is
    infinity. *)
Definition nearest_binary64 (s : spec_float) (N D : Z) : Prop :=
  match s with
  | S754_infinity false => overflow_units * D <= N
  | S754_zero false | S754_finite false _ _ =>
      exists u,
        finite_units s = Some u /\
        N <= overflow_units * D /\
        forall y v,
          valid_binary y = true -> finite_units y = Some v ->
          Z.abs (u * D - N) <= Z.abs (v * D - N) /\
          (v <> u -> Z.abs (u * D - N) = Z.abs (v * D - N) -> even_mantissa s = true)
  | _ => False
  end.

(** [x] is the float of the decimal number [n / 10^k]. *)
Definition is_float_of (x : float) (n : Z) (k : nat) : Prop :=
  nearest_binary64 (Prim2SF x) (n * 2 ^ 1074) (10 ^ Z.of_nat k).

(** [x] is the float of the numeral [g]: digits, and optionally a dot and
    more digits. *)
Definition reads_as (x : float) (g : str) : Prop :=
  exists ip fp,
    g = numeral_str ip fp /\ ip <> [] /\
    forallb is_digit ip = true /\ forallb is_digit (fraction fp) = true /\
    is_float_of x (decimal_digits (ip ++ fraction fp)) (length (fraction fp)).

(** [N / D] lies between [m] and [m + 1], at the place that [l] tells. *)
Definition located (N D m : Z) (l : location) : Prop :=
  0 <= m /\ m * D <= N < (m + 1) * D /\
  match l with
  | loc_Exact => N - m * D = 0
  | loc_Inexact Lt => 0 < N - m * D /\ 2 * (N - m * D) < D
  | loc_Inexact Eq => 2 * (N - m * D) = D
  | loc_Inexact Gt => D < 2 * (N - m * D)
  end.

(** The same for a mantissa with its round and sticky bits. *)
Definition inb (N D : Z) (mrs : shr_record) : Prop :=
  0 <= shr_m mrs /\
  shr_m mrs * D <= N < (shr_m mrs + 1) * D /\
  (shr_r mrs = true <-> D <= 2 * (N - shr_m mrs * D)) /\
  (shr_s mrs = true <-> N - shr_m mrs * D <> 0 /\ 2 * (N - shr_m mrs * D) <> D).

Close Scope Z_scope.

(** * Properties *)

(** ** What a pattern matches

    [matches re st st'] holds when [re] can match the text between the
    positions [st] and [st'], whatever the priorities.  The matcher finds
    a match exactly when there is one that its continuation accepts. *)

Section MatcherFacts.
Context {A : Type}.
Implicit Types (k : cursor -> option A) (x : A).

Lemma orelse_some (a b : option A) x :
  orelse a b = Some x -> a = Some x \/ (a = None /\ b = Some x).
Proof. destruct a; simpl; intros H; [left | right]; auto. Qed.

Lemma orelse_none (a b : option A) :
  orelse a b = None -> a = None /\ b = None.
Proof. destruct a; simpl; intros H; [discriminate | auto]. Qed.

Lemma star_sound greedy p k r : forall l g x,
  star greedy p k l r g = Some x ->
  exists a r', r = a ++ r' /\ forallb p a = true /\
               k (Cursor (rev a ++ l) r' g) = Some x.
Proof.
  induction r as [| c r IH]; intros l g x H; simpl in H.
  - exists [], []. auto.
  - destruct (p c) eqn:Hp.
    + assert (Hcases : star greedy p k (c :: l) r g = Some x \/
                       k (Cursor l (c :: r) g) = Some x).
      { destruct greedy; apply orelse_some in H; tauto. }
      destruct Hcases as [H1 | H1].
      * destruct (IH _ _ _ H1) as (a & r' & -> & Ha & Hk).
        exists (c :: a), r'. simpl. rewrite Hp, Ha.
        rewrite <- app_assoc. simpl. auto.
      * exists [], (c :: r). auto.
    + exists [], (c :: r). auto.
Qed.

Lemma star_complete greedy p k r : forall l g,
  star greedy p k l r g = None ->
  forall a r', r = a ++ r' -> forallb p a = true ->
               k (Cursor (rev a ++ l) r' g) = None.
Proof.
  induction r as [| c r IH]; intros l g H a r' Hr Ha; simpl in H.
  - symmetry in Hr. apply app_eq_nil in Hr as [-> ->]. exact H.
  - destruct a as [| c' a]; simpl in Hr.
    + subst r'. destruct (p c); [| exact H].
      destruct greedy; apply orelse_none in H; tauto.
    + injection Hr as -> ->. simpl in Ha.
      apply andb_true_iff in Ha as [Hc Ha]. rewrite Hc in H.
      assert (H1 : star greedy p k (c' :: l) (a ++ r') g = None).
      { destruct greedy; apply orelse_none in H; tauto. }
      simpl. rewrite <- app_assoc. simpl.
      apply (IH _ _ H1 a r' eq_refl Ha).
Qed.

(** With a continuation that accepts the longest run, a greedy
    repetition returns what the continuation returns there. *)
Lemma star_greedy_longest p k a : forall l r g x,
  forallb p a = true ->
  match r with c :: _ => p c = false | [] => True end ->
  k (Cursor (rev a ++ l) r g) = Some x ->
  star true p k l (a ++ r) g = Some x.
Proof.
  induction a as [| c a IH]; intros l r g x Ha Hr Hk; simpl in *.
  - destruct r as [| c r]; simpl; [exact Hk |]. rewrite Hr. exact Hk.
  - apply andb_true_iff in Ha as [Hc Ha]. rewrite Hc.
    rewrite (IH (c :: l) r g x Ha Hr); [reflexivity |].
    rewrite <- app_assoc in Hk. exact Hk.
Qed.
End MatcherFacts.

Lemma rmatch_sound {A} re : forall st (k : cursor -> option A) x,
  rmatch re st k = Some x ->
  exists st', matches re st st' /\ k st' = Some x.
Proof.
  induction re as [| p | r1 IH1 r2 IH2 | r1 IH1 r2 IH2 | greedy p | n r IH | |];
    intros st k x H; simpl in H.
  - eauto.
  - destruct st as [l [| c r] g]; simpl in H; [discriminate |].
    destruct (p c) eqn:Hp; [| discriminate]. eauto.
  - apply IH1 in H as (st1 & H1 & H). apply IH2 in H as (st2 & H2 & H). eauto.
  - apply orelse_some in H as [H | [_ H]].
    + apply IH1 in H as (st' & ? & ?). eauto.
    + apply IH2 in H as (st' & ? & ?). eauto.
  - destruct st as [l r g]; simpl in H.
    apply star_sound in H as (a & r' & -> & Ha & Hk). eauto.
  - apply IH in H as (st' & ? & ?). eauto.
  - destruct (boundary st) eqn:Hb; [eauto | discriminate].
  - destruct (at_end st) eqn:Hb; [eauto | discriminate].
Qed.

Lemma rmatch_complete {A} re : forall st (k : cursor -> option A),
  rmatch re st k = None ->
  forall st', matches re st st' -> k st' = None.
Proof.
  induction re as [| p | r1 IH1 r2 IH2 | r1 IH1 r2 IH2 | greedy p | n r IH | |];
    intros st k H st' Hm; simpl in H; inversion Hm; subst; simpl in *.
  - exact H.
  - match goal with Hp : p _ = true |- _ => rewrite Hp in H end. exact H.
  - match goal with
    | Ha : matches r1 _ ?s2, Hb : matches r2 ?s2 _ |- _ =>
        apply (IH2 s2 k); [apply (IH1 st _ H s2 Ha) | exact Hb]
    end.
  - apply orelse_none in H as [H _]. eapply IH1; eauto.
  - apply orelse_none in H as [_ H]. eapply IH2; eauto.
  - eapply star_complete in H; eauto.
  - match goal with Ha : matches r _ _ |- _ => apply (IH st _ H _ Ha) end.
  - match goal with Hb : boundary _ = true |- _ => rewrite Hb in H end. exact H.
  - match goal with Hb : at_end _ = true |- _ => rewrite Hb in H end. exact H.
Qed.

(** A match leaves the subject in place and only moves right in it. *)
Lemma matches_subject re st st' :
  matches re st st' ->
  exists a, after st = a ++ after st' /\ before st' = rev a ++ before st.
Proof.
  induction 1 as [st | p c l r g Hp | r1 r2 st1 st2 st3 _ IH1 _ IH2
                 | r1 r2 st st' _ IH | r1 r2 st st' _ IH | greedy p a l r g Ha
                 | n r st st' _ IH | st Hb | st Hb]; simpl.
  - exists []. auto.
  - exists [c]. auto.
  - destruct IH1 as (a & Ha1 & Hb1), IH2 as (b & Ha2 & Hb2).
    exists (a ++ b). rewrite Ha1, Ha2, Hb2, Hb1, rev_app_distr, <- !app_assoc. auto.
  - exact IH.
  - exact IH.
  - exists a. auto.
  - exact IH.
  - exists []. auto.
  - exists []. auto.
Qed.

Lemma span_matches re st st' :
  matches re st st' -> after st = span st st' ++ after st'.
Proof.
  intros H. destruct (matches_subject _ _ _ H) as (a & Ha & Hb).
  unfold span. rewrite Hb, Ha, length_app, length_rev.
  replace (length a + length (before st) - length (before st))%nat with (length a) by lia.
  rewrite firstn_app, firstn_all, Nat.sub_diag. simpl. rewrite app_nil_r. reflexivity.
Qed.

(** ** [re.search] *)

Lemma match_at_some re l r m :
  match_at re l r = Some m ->
  exists st', matches re (Cursor l r []) st' /\
              m = {| m_start := length l; m_text := span (Cursor l r []) st';
                     m_caps := caps st' |}.
Proof.
  unfold match_at. intros H.
  destruct (rmatch re (Cursor l r []) Some) as [st' |] eqn:E; [| discriminate].
  apply rmatch_sound in E as (st'' & Hm & Hk). injection Hk as ->.
  injection H as <-. eauto.
Qed.

Lemma match_at_none re l r :
  match_at re l r = None -> forall st', ~ matches re (Cursor l r []) st'.
Proof.
  unfold match_at. intros H st' Hm.
  destruct (rmatch re (Cursor l r []) Some) as [x |] eqn:E; [discriminate |].
  pose proof (rmatch_complete _ _ _ E _ Hm). discriminate.
Qed.

(** [re.search] returns the match at the leftmost position that has one. *)
Lemma search_from_some re : forall r l m,
  search_from re l r = Some m ->
  exists a b, r = a ++ b /\ match_at re (rev a ++ l) b = Some m /\
    forall a1 a2, a = a1 ++ a2 -> a2 <> [] -> match_at re (rev a1 ++ l) (a2 ++ b) = None.
Proof.
  induction r as [| c r IH]; intros l m H; simpl in H.
  - destruct (match_at re l []) eqn:E; [| discriminate]. injection H as ->.
    exists [], []. repeat split; auto.
    intros a1 a2 Ha. symmetry in Ha. apply app_eq_nil in Ha as [_ ->]. congruence.
  - destruct (match_at re l (c :: r)) eqn:E.
    + injection H as ->. exists [], (c :: r). repeat split; auto.
      intros a1 a2 Ha. symmetry in Ha. apply app_eq_nil in Ha as [_ ->]. congruence.
    + apply IH in H as (a & b & -> & Hm & Hfirst).
      exists (c :: a), b. simpl. rewrite <- app_assoc. repeat split; auto.
      intros a1 a2 Ha Hne. destruct a1 as [| c' a1]; simpl in Ha.
      * subst a2. exact E.
      * injection Ha as -> ->. simpl. rewrite <- app_assoc. simpl.
        apply Hfirst; auto.
Qed.

Lemma search_from_none re : forall r l,
  search_from re l r = None ->
  forall a b, r = a ++ b -> match_at re (rev a ++ l) b = None.
Proof.
  induction r as [| c r IH]; intros l H a b Hr; simpl in H.
  - symmetry in Hr. apply app_eq_nil in Hr as [-> ->]. simpl.
    destruct (match_at re l []); [discriminate | reflexivity].
  - destruct (match_at re l (c :: r)) eqn:E; [discriminate |].
    destruct a as [| c' a]; simpl in Hr.
    + subst b. exact E.
    + injection Hr as -> ->. simpl. rewrite <- app_assoc. apply (IH _ H a b eq_refl).
Qed.

Lemma search_from_first re : forall a l b m,
  (forall a1 a2, a = a1 ++ a2 -> a2 <> [] -> match_at re (rev a1 ++ l) (a2 ++ b) = None) ->
  match_at re (rev a ++ l) b = Some m ->
  search_from re l (a ++ b) = Some m.
Proof.
  induction a as [| c a IH]; intros l b m Hfirst Hm; simpl in *.
  - destruct b; simpl; rewrite Hm; reflexivity.
  - pose proof (Hfirst [] (c :: a) eq_refl) as H0. simpl in H0.
    rewrite H0 by discriminate.
    apply IH.
    + intros a1 a2 Ha Hne. specialize (Hfirst (c :: a1) a2).
      simpl in Hfirst. rewrite <- app_assoc in Hfirst. apply Hfirst; [congruence | exact Hne].
    + rewrite <- app_assoc in Hm. exact Hm.
Qed.

(** ** Captured groups

    The text a pattern spells out, and what its groups capture. *)

Lemma span_refl st : span st st = [].
Proof. unfold span. rewrite Nat.sub_diag. reflexivity. Qed.

Lemma span_of_subject st st' a :
  after st = a ++ after st' -> before st' = rev a ++ before st -> span st st' = a.
Proof.
  intros Ha Hb. unfold span. rewrite Hb, Ha, length_app, length_rev.
  replace (length a + length (before st) - length (before st))%nat with (length a) by lia.
  rewrite firstn_app, firstn_all, Nat.sub_diag. simpl. apply app_nil_r.
Qed.

Lemma span_trans r1 r2 st1 st2 st3 :
  matches r1 st1 st2 -> matches r2 st2 st3 ->
  span st1 st3 = span st1 st2 ++ span st2 st3.
Proof.
  intros H1 H2.
  destruct (matches_subject _ _ _ H1) as (a & Ha1 & Hb1).
  destruct (matches_subject _ _ _ H2) as (b & Ha2 & Hb2).
  rewrite (span_of_subject st1 st2 a), (span_of_subject st2 st3 b) by assumption.
  apply span_of_subject.
  - rewrite Ha1, Ha2, app_assoc. reflexivity.
  - rewrite Hb2, Hb1, rev_app_distr, app_assoc. reflexivity.
Qed.

Lemma matches_spells re st st' : matches re st st' -> spells re (span st st').
Proof.
  induction 1 as [st | p c l r g Hp | r1 r2 st1 st2 st3 H1 IH1 H2 IH2
                 | r1 r2 st st' _ IH | r1 r2 st st' _ IH | greedy p a l r g Ha
                 | n r st st' H IH | st Hb | st Hb].
  - rewrite span_refl. auto.
  - rewrite (span_of_subject _ _ [c]) by reflexivity. auto.
  - rewrite (span_trans _ _ _ _ _ H1 H2). auto.
  - auto.
  - auto.
  - rewrite (span_of_subject _ _ a) by reflexivity. auto.
  - replace (span st (set_cap n (span st st') st')) with (span st st') by reflexivity. auto.
  - rewrite span_refl. auto.
  - rewrite span_refl. auto.
Qed.

Lemma matches_binds n re st st' :
  matches re st st' ->
  binds n re = true \/ assoc n (caps st) <> None ->
  assoc n (caps st') <> None.
Proof.
  induction 1 as [st | p c l r g Hp | r1 r2 st1 st2 st3 H1 IH1 H2 IH2
                 | r1 r2 st st' _ IH | r1 r2 st st' _ IH | greedy p a l r g Ha
                 | m r st st' H IH | st Hb | st Hb]; simpl; intros Hn;
    try (destruct Hn as [Hn | Hn]; [discriminate | exact Hn]).
  - destruct Hn as [Hn | Hn].
    + apply orb_true_iff in Hn as [Hn | Hn]; auto.
    + auto.
  - destruct Hn as [Hn | Hn]; [apply andb_true_iff in Hn as [Hn _] |]; auto.
  - destruct Hn as [Hn | Hn]; [apply andb_true_iff in Hn as [_ Hn] |]; auto.
  - destruct (Nat.eqb n m) eqn:E; [discriminate |].
    apply IH. destruct Hn as [Hn | Hn]; auto.
Qed.

(** A captured group holds a text that the body of the group spells. *)
Lemma matches_group n w re st st' :
  matches re st st' ->
  assoc n (caps st') = Some w ->
  assoc n (caps st) = Some w \/ exists r, In r (group_bodies n re) /\ spells r w.
Proof.
  induction 1 as [st | p c l r g Hp | r1 r2 st1 st2 st3 H1 IH1 H2 IH2
                 | r1 r2 st st' _ IH | r1 r2 st st' _ IH | greedy p a l r g Ha
                 | m r st st' H IH | st Hb | st Hb]; simpl; intros Hw; auto.
  - destruct (IH2 Hw) as [Hw' | (r & Hr & Hs)].
    + destruct (IH1 Hw') as [Hw'' | (r & Hr & Hs)]; auto.
      right. exists r. split; [apply in_or_app |]; auto.
    + right. exists r. split; [apply in_or_app |]; auto.
  - destruct (IH Hw) as [Hw' | (r & Hr & Hs)]; auto.
    right. exists r. split; [apply in_or_app |]; auto.
  - destruct (IH Hw) as [Hw' | (r & Hr & Hs)]; auto.
    right. exists r. split; [apply in_or_app |]; auto.
  - destruct (Nat.eqb n m) eqn:E.
    + injection Hw as <-. right. exists r. split; [left; reflexivity |].
      apply matches_spells. exact H.
    + destruct (IH Hw) as [Hw' | (r' & Hr & Hs)]; eauto.
Qed.

Lemma search_from_matches re r l m :
  search_from re l r = Some m ->
  exists st st', matches re st st' /\ caps st = [] /\ m_caps m = caps st' /\
                 m_text m = span st st'.
Proof.
  intros H. apply search_from_some in H as (a & b & _ & H & _).
  apply match_at_some in H as (st' & Hm & ->). simpl. eauto 6.
Qed.

(** [re.search] with a pattern that always captures group [n] gives a
    match whose group [n] is a text the group's body spells. *)
Lemma search_group n re s m :
  re_search re s = Some m -> binds (S n) re = true ->
  exists w r, group m (S n) = Some w /\ In r (group_bodies (S n) re) /\ spells r w.
Proof.
  intros H Hb. apply search_from_matches in H as (st & st' & Hm & Hst & Hc & _).
  pose proof (matches_binds (S n) _ _ _ Hm (or_introl Hb)) as Hsome.
  simpl. rewrite Hc. destruct (assoc (S n) (caps st')) as [w |] eqn:E; [| congruence].
  destruct (matches_group _ _ _ _ _ Hm E) as [Habs | (r & Hr & Hs)].
  - rewrite Hst in Habs. discriminate.
  - eauto.
Qed.

Lemma first_match_some ps s m :
  first_match ps s = Some m -> exists p, In p ps /\ re_search p s = Some m.
Proof.
  induction ps as [| p ps IH]; simpl; [discriminate |].
  destruct (re_search p s) eqn:E.
  - intros [= ->]. eauto.
  - intros H. destruct (IH H) as (p' & ? & ?). eauto.
Qed.

(** ** [parse_query] returns

    No extractor raises: every pattern whose group 1 is read captures it,
    and the price patterns capture only texts that [float] accepts.  The
    weekday branch adds at most seven days to the clock's reading, which
    stays in range for a clock that is not in the last week of year 9999. *)

Lemma digits_value_some ds : forall acc,
  forallb is_digit ds = true -> exists n, digits_value acc ds = Some n.
Proof.
  induction ds as [| c ds IH]; intros acc H; simpl in *; [eauto |].
  apply andb_true_iff in H as [Hc Hds]. rewrite Hc. apply IH. exact Hds.
Qed.

Lemma is_digit_not_dot c : is_digit c = true -> Ascii.eqb c "." = false.
Proof.
  intros H. destruct (Ascii.eqb_spec c "."); [subst c; discriminate | reflexivity].
Qed.

Lemma split_dot_digits ip :
  forallb is_digit ip = true -> split_dot ip = (ip, None).
Proof.
  induction ip as [| c ip IH]; simpl; intros H; [reflexivity |].
  apply andb_true_iff in H as [Hc Hip].
  rewrite (is_digit_not_dot _ Hc), (IH Hip). reflexivity.
Qed.

Lemma split_dot_fraction ip fp :
  forallb is_digit ip = true -> split_dot (ip ++ "." ++ fp) = (ip, Some fp).
Proof.
  induction ip as [| c ip IH]; simpl; intros H; [reflexivity |].
  apply andb_true_iff in H as [Hc Hip].
  rewrite (is_digit_not_dot _ Hc). simpl in IH. rewrite (IH Hip). reflexivity.
Qed.

Lemma spells_numeral w : spells numeral w -> numeral_text w.
Proof.
  unfold numeral, plus, opt, chr. simpl. intros H.
  inversion H as [| | r1 r2 u v Hu Hv | | | | | |]; subst; clear H.
  inversion Hu as [| | r1 r2 d ds Hd Hds | | | | | |]; subst; clear Hu.
  inversion Hd as [| p c Hc | | | | | | |]; subst; clear Hd.
  inversion Hds; subst.
  inversion Hv as [| | r1 r2 dot fs Hdot Hfs | | | | | |]; subst; clear Hv.
  inversion Hfs; subst.
  assert (Hip : forallb is_digit (c :: ds) = true) by (simpl; rewrite Hc; assumption).
  inversion Hdot as [| | | r1 r2 u H1 | r1 r2 u H1 | | | |]; subst; clear Hdot.
  - inversion H1 as [| p c' Hc' | | | | | | |]; subst.
    apply Ascii.eqb_eq in Hc'. subst c'.
    apply numeral_frac; [discriminate | assumption | assumption].
  - inversion H1; subst. simpl.
    assert (Hall : forallb is_digit (c :: ds ++ fs) = true).
    { simpl. rewrite Hc. simpl. rewrite forallb_app.
      apply andb_true_iff. split; assumption. }
    apply (numeral_int (c :: ds ++ fs)); [discriminate | exact Hall].
Qed.

Lemma py_float_int ip n :
  ip <> [] -> forallb is_digit ip = true -> digits_value 0 ip = Some n ->
  py_float ip = inl (nearest_float n 0).
Proof.
  intros Hne Hip Hn. unfold py_float. rewrite (split_dot_digits _ Hip).
  destruct ip as [| c ip]; [congruence |].
  rewrite app_nil_r, Hn. reflexivity.
Qed.

Lemma py_float_frac ip fp n :
  ip <> [] -> forallb is_digit ip = true -> digits_value 0 (ip ++ fp) = Some n ->
  py_float (ip ++ "." ++ fp) = inl (nearest_float n (length fp)).
Proof.
  intros Hne Hip Hn. unfold py_float. rewrite (split_dot_fraction _ _ Hip).
  destruct ip as [| c ip]; [congruence |].
  rewrite Hn. reflexivity.
Qed.

Lemma py_float_numeral w : numeral_text w -> exists x, py_float w = inl x.
Proof.
  intros [ip Hne Hip | ip fp Hne Hip Hfp].
  - destruct (digits_value_some ip 0%Z Hip) as (n & Hn).
    rewrite (py_float_int ip n); eauto.
  - assert (Hall : forallb is_digit (ip ++ fp) = true).
    { rewrite forallb_app. apply andb_true_iff. split; assumption. }
    destruct (digits_value_some _ 0%Z Hall) as (n & Hn).
    rewrite (py_float_frac ip fp n); eauto.
Qed.

Lemma price_patterns_capture p :
  In p price_patterns -> binds 1 p = true /\ group_bodies 1 p = [numeral].
Proof.
  intros H. repeat (destruct H as [<- | H]; [split; reflexivity |]). destruct H.
Qed.

Lemma extract_max_price_returns q : exists x, extract_max_price q = inl x.
Proof.
  unfold extract_max_price.
  destruct (first_match price_patterns q) as [m |] eqn:E; [| eauto].
  apply first_match_some in E as (p & Hp & Hs).
  destruct (price_patterns_capture p Hp) as [Hb Hg].
  destruct (search_group 0 p q m Hs Hb) as (w & r & Hw & Hr & Hsp).
  rewrite Hg in Hr. destruct Hr as [<- | []].
  rewrite Hw. destruct (py_float_numeral w (spells_numeral w Hsp)) as (x & ->). eauto.
Qed.

Lemma first_match_group ps s m :
  forallb (binds 1) ps = true -> first_match ps s = Some m ->
  exists w, group m 1 = Some w.
Proof.
  intros Hb H. apply first_match_some in H as (p & Hp & Hs).
  rewrite forallb_forall in Hb.
  destruct (search_group 0 p s m Hs (Hb p Hp)) as (w & _ & Hw & _). eauto.
Qed.

Lemma extract_size_returns q : exists x, extract_size q = inl x.
Proof.
  unfold extract_size.
  destruct (first_match size_patterns (lower q)) as [m |] eqn:E; [| eauto].
  destruct (first_match_group size_patterns _ m eq_refl E) as (w & ->). eauto.
Qed.

Lemma indicator_tier_returns ps lq :
  forallb (binds 1) ps = true -> exists x, indicator_tier ps lq = inl x.
Proof.
  induction ps as [| p ps IH]; simpl; intros Hb; [eauto |].
  apply andb_true_iff in Hb as [Hp Hps].
  destruct (re_search p lq) as [m |] eqn:E; [| auto].
  destruct (search_group 0 p lq m E Hp) as (w & _ & Hw & _).
  simpl in Hw. rewrite Hw.
  destruct (strip (re_sub filler_words "" (strip w))); [auto | eauto].
Qed.

Lemma _extract_product_name_returns q : exists x, _extract_product_name q = inl x.
Proof.
  unfold _extract_product_name. destruct (quote_tier q); [eauto |].
  unfold fallback_tiers.
  destruct (indicator_tier_returns product_indicators (lower q) eq_refl) as (x & ->).
  destruct x; eauto.
Qed.

Lemma mem_In x l : mem x l = true <-> In x l.
Proof.
  unfold mem. rewrite existsb_exists. split.
  - intros (y & Hy & He). apply bool_decide_eq_true in He. subst. exact Hy.
  - intros H. exists x. split; [exact H |]. apply bool_decide_eq_true. reflexivity.
Qed.

Lemma weekday_number day :
  mem day weekdays = true ->
  exists t, days_map !! day = Some t /\ (0 <= t <= 6)%Z.
Proof.
  intros H. apply mem_In in H.
  repeat (destruct H as [<- | H];
          [eexists; split; [vm_compute; reflexivity | lia] |]).
  destruct H.
Qed.

Lemma days_until_range t c : (1 <= days_until t c <= 7)%Z.
Proof.
  unfold days_until. pose proof (Z.mod_pos_bound (t - c) 7 ltac:(lia)).
  destruct (Z.eqb_spec ((t - c) mod 7) 0); lia.
Qed.

Lemma add_days_in_range d n :
  (1 <= ordinal d)%Z -> (ordinal d + 7 <= max_ordinal)%Z -> (1 <= n <= 7)%Z ->
  add_days d n = inl {| ordinal := ordinal d + n; micros := micros d |}.
Proof.
  intros H1 H2 Hn. unfold add_days.
  destruct (Z.leb_spec 1 (ordinal d + n)); [| lia].
  destruct (Z.leb_spec (ordinal d + n) max_ordinal); [| lia]. reflexivity.
Qed.

Lemma datetime_ymd_error y m d e : datetime_ymd y m d = inr e -> e = ValueError.
Proof. unfold datetime_ymd. destruct (_ && _); congruence. Qed.

Lemma strptime_B_d_error text e : strptime_B_d text = inr e -> e = ValueError.
Proof.
  unfold strptime_B_d.
  repeat match goal with
         | |- context [match ?x with _ => _ end] => destruct x eqn:?
         | |- context [if ?x then _ else _] => destruct x eqn:?
         end; try congruence.
  apply datetime_ymd_error.
Qed.

Lemma sane_clock_tick w : sane_clock w -> sane_clock (tick w).
Proof. intros H n. apply H. Qed.

Lemma parse_date_loop_returns ps lq :
  forallb (binds 1) ps = true ->
  forall w, sane_clock w ->
  exists d w', parse_date_loop ps lq w = (inl d, w') /\ clock w' = clock w.
Proof.
  induction ps as [| p ps IH]; cbn [parse_date_loop forallb]; intros Hb w Hw;
    [unfold ret; eauto |].
  apply andb_true_iff in Hb as [Hp Hps].
  destruct (re_search p lq) as [m |] eqn:E; [| auto].
  destruct (search_group 0 p lq m E Hp) as (day & _ & Hg & _).
  unfold bind, now. fold (tick w). rewrite Hg.
  destruct (mem day weekdays) eqn:Hmem.
  - destruct (weekday_number day Hmem) as (t & -> & Ht).
    unfold bind, lift.
    rewrite add_days_in_range; [unfold ret; eauto | apply Hw | apply Hw |].
    apply days_until_range.
  - destruct (strptime_B_d day) as [d | e] eqn:Es; [unfold ret; eauto |].
    apply strptime_B_d_error in Es. subst e.
    destruct (IH Hps (tick w) (sane_clock_tick w Hw)) as (d & w' & Hd & Hc). eauto.
Qed.

Lemma _parse_delivery_date_returns q w :
  sane_clock w ->
  exists d w', _parse_delivery_date q w = (inl d, w') /\ clock w' = clock w.
Proof. apply parse_date_loop_returns. reflexivity. Qed.

(** [parse_query] returns an intent record whose fields are the results of
    the extractors. *)
Lemma parse_query_returns q w :
  sane_clock w ->
  exists info w',
    parse_query q w = (inl info, w') /\
    _extract_product_name q = inl (product_name info) /\
    extract_max_price q = inl (max_price info) /\
    extract_size q = inl (size info) /\
    color info = extract_color q /\
    fst (_parse_delivery_date q w) = inl (delivery_target info) /\
    query_type info = classify q /\
    store info = extract_store q /\
    discount_code info = extract_discount_code q /\
    clock w' = clock w.
Proof.
  intros Hw. unfold parse_query, bind, lift, ret.
  destruct (_extract_product_name_returns q) as (name & ->).
  destruct (extract_max_price_returns q) as (price & ->).
  destruct (extract_size_returns q) as (sz & ->).
  destruct (_parse_delivery_date_returns q w Hw) as (d & w' & -> & Hc).
  eexists _, _. repeat split. exact Hc.
Qed.

(** ** Literal patterns *)

Lemma starts_with_app w s : starts_with w (w ++ s) = true.
Proof.
  induction w as [| c w IH]; simpl; [reflexivity |].
  rewrite Ascii.eqb_refl. exact IH.
Qed.

Lemma starts_with_split w : forall s,
  starts_with w s = true -> s = w ++ skipn (length w) s.
Proof.
  induction w as [| c w IH]; intros s H; [reflexivity |].
  destruct s as [| c' s]; simpl in H; [discriminate |].
  apply andb_true_iff in H as [Hc Hw]. apply Ascii.eqb_eq in Hc. subst c'.
  simpl. f_equal. apply IH. exact Hw.
Qed.

Lemma rmatch_lit {A} w : forall l r g (k : cursor -> option A),
  rmatch (lit w) (Cursor l r g) k =
  if starts_with w r then k (Cursor (rev w ++ l) (skipn (length w) r) g) else None.
Proof.
  induction w as [| c w IH]; intros l r g k; [reflexivity |].
  destruct w as [| c2 w].
  - simpl. destruct r as [| c' r]; [reflexivity |]. rewrite andb_true_r.
    destruct (Ascii.eqb_spec c c'); [subst; reflexivity | reflexivity].
  - change (lit (c :: c2 :: w)) with (Seq (chr c) (lit (c2 :: w))).
    cbn [rmatch chr after before caps].
    destruct r as [| c' r]; [reflexivity |].
    change (starts_with (c :: c2 :: w) (c' :: r))
      with (Ascii.eqb c c' && starts_with (c2 :: w) r).
    destruct (Ascii.eqb_spec c c'); [subst c' | reflexivity].
    rewrite IH. cbn [andb]. destruct (starts_with (c2 :: w) r); [| reflexivity].
    f_equal. f_equal. simpl. rewrite <- !app_assoc. reflexivity.
Qed.

Lemma keyword_match_at w re l r :
  keyword_pattern w re -> found (match_at re l r) = starts_with w r.
Proof.
  intros [| c]; unfold match_at; cbn [rmatch opt]; rewrite rmatch_lit;
    destruct (starts_with w r); try reflexivity.
  cbn [rmatch]. match goal with |- context [orelse ?a ?b] => destruct a end; reflexivity.
Qed.

Lemma keyword_search_from w re :
  keyword_pattern w re -> forall r l, found (search_from re l r) = contains w r.
Proof.
  intros Hk. induction r as [| c r IH]; intros l; cbn [search_from contains];
    pose proof (fun r => keyword_match_at w re l r Hk) as Hm.
  - specialize (Hm []). destruct (match_at re l []); simpl in *; rewrite <- Hm; reflexivity.
  - specialize (Hm (c :: r)).
    destruct (match_at re l (c :: r)); simpl in Hm; rewrite <- Hm; [reflexivity |].
    simpl. apply IH.
Qed.

Lemma keyword_search w re s :
  keyword_pattern w re -> found (re_search re s) = contains w s.
Proof. intros Hk. apply keyword_search_from. exact Hk. Qed.

Lemma contains_app w pre post : contains w (pre ++ w ++ post) = true.
Proof.
  induction pre as [| c pre IH].
  - simpl. destruct (w ++ post) eqn:E; simpl; rewrite <- E, starts_with_app; reflexivity.
  - simpl. rewrite IH. apply orb_true_r.
Qed.

Lemma contains_split w : forall s,
  contains w s = true -> exists pre post, s = pre ++ w ++ post.
Proof.
  induction s as [| c s IH]; simpl; intros H.
  - rewrite orb_false_r in H. apply starts_with_split in H. exists [], (skipn (length w) []). exact H.
  - apply orb_true_iff in H as [H | H].
    + apply starts_with_split in H. exists [], (skipn (length w) (c :: s)). exact H.
    + destruct (IH H) as (pre & post & ->). exists (c :: pre), post. reflexivity.
Qed.

(** ** Query classification *)

Lemma comparison_bucket s :
  any_match comparison_patterns s = existsb (fun kw => contains kw s) comparison_keywords.
Proof.
  unfold any_match, comparison_patterns, comparison_keywords. cbn [existsb seqs].
  rewrite (keyword_search "better deal" _ s (keyword_opt _ _)).
  rewrite !(fun w => keyword_search w _ s (keyword_lit w)). reflexivity.
Qed.

Lemma return_bucket s :
  any_match return_patterns s = existsb (fun kw => contains kw s) return_keywords.
Proof.
  unfold any_match, return_patterns, return_keywords. cbn [existsb seqs].
  rewrite (keyword_search "return" _ s (keyword_opt _ _)).
  rewrite !(fun w => keyword_search w _ s (keyword_lit w)). reflexivity.
Qed.

(** C1, as the code has it: the comparison bucket is tested first.  For
    every query, [parse_query] returns, and the query type is "comparison"
    when the lower-cased query contains a comparison keyword, else "return"
    when it contains a return keyword, else "search"; a query that matches
    both buckets is a comparison. *)
Theorem query_type_comparison_first q w :
  sane_clock w ->
  exists info w',
    parse_query q w = (inl info, w') /\
    query_type info =
      (if existsb (fun kw => contains kw (lower q)) comparison_keywords then "comparison"
       else if existsb (fun kw => contains kw (lower q)) return_keywords then "return"
       else "search") /\
    (any_match comparison_patterns (lower q) = true ->
     any_match return_patterns (lower q) = true ->
     query_type info = "comparison").
Proof.
  intros Hw.
  destruct (parse_query_returns q w Hw) as (info & w' & Hq & _ & _ & _ & _ & _ & Ht & _).
  exists info, w'. split; [exact Hq |]. rewrite Ht. unfold classify. split.
  - rewrite comparison_bucket, return_bucket. reflexivity.
  - intros -> _. reflexivity.
Qed.

Lemma query_type_comparison_first_witness :
  sane_clock sample_world /\
  exists info w',
    parse_query "Do they accept returns?" sample_world = (inl info, w') /\
    query_type info =
      (if existsb (fun kw => contains kw (lower "Do they accept returns?")) comparison_keywords
       then "comparison"
       else if existsb (fun kw => contains kw (lower "Do they accept returns?")) return_keywords
       then "return"
       else "search") /\
    (any_match comparison_patterns (lower "Do they accept returns?") = true ->
     any_match return_patterns (lower "Do they accept returns?") = true ->
     query_type info = "comparison").
Proof.
  split.
  - intros n. simpl. unfold max_ordinal. lia.
  - apply (query_type_comparison_first "Do they accept returns?" sample_world).
    intros n. simpl. unfold max_ordinal. lia.
Defined.

(** C1 as stated fails: this query matches the return bucket ("can i
    return") and the comparison bucket ("cheaper"), and its type is
    "comparison", not "return". *)
Lemma return_bucket_not_first :
  any_match return_patterns (lower "Can I return it if I find a cheaper one?") = true /\
  any_match comparison_patterns (lower "Can I return it if I find a cheaper one?") = true /\
  exists info,
    fst (parse_query "Can I return it if I find a cheaper one?" sample_world) = inl info /\
    query_type info = "comparison" /\ query_type info <> "return".
Proof.
  split; [vm_compute; reflexivity |]. split; [vm_compute; reflexivity |].
  eexists. split; [vm_compute; reflexivity |]. split; [reflexivity | discriminate].
Qed.

(** ** Colours *)

Lemma word_first_app c post : word_first c = true -> word_first (c ++ post) = true.
Proof. destruct c; [discriminate | auto]. Qed.

Lemma word_last_app c pre : word_last c = true -> word_last (pre ++ c) = true.
Proof.
  unfold word_last. rewrite rev_app_distr. destruct (rev c); [discriminate | auto].
Qed.

Lemma whole_word_at c l r :
  wordy c = true ->
  found (match_at (whole_word c) (rev l) r) =
  negb (word_last l) && starts_with c r && negb (word_first (skipn (length c) r)).
Proof.
  intros Hc. apply andb_true_iff in Hc as [Hf Hl].
  unfold match_at, whole_word. cbn [seqs rmatch].
  unfold boundary at 1, word_before, word_after. cbn [before after].
  fold (word_last l). fold (word_first r).
  destruct (starts_with c r) eqn:Hs.
  - pose proof (starts_with_split _ _ Hs) as Hr.
    assert (Hwf : word_first r = true) by (rewrite Hr; apply word_first_app; exact Hf).
    rewrite Hwf, xorb_true_r.
    destruct (word_last l); [reflexivity |]. cbn [negb andb].
    rewrite rmatch_lit, Hs.
    unfold boundary, word_before, word_after. cbn [before after].
    rewrite <- rev_app_distr. fold (word_last (l ++ c)).
    rewrite (word_last_app c l Hl). fold (word_first (skipn (length c) r)).
    destruct (word_first (skipn (length c) r)); reflexivity.
  - rewrite andb_false_r. destruct (xorb _ _); [| reflexivity].
    rewrite rmatch_lit, Hs. reflexivity.
Qed.

Lemma whole_word_search c s :
  wordy c = true ->
  found (re_search (whole_word c) s) = true <-> occurs_as_word c s.
Proof.
  intros Hc. unfold re_search. split.
  - destruct (search_from (whole_word c) [] s) as [m |] eqn:E; [intros _ | discriminate].
    apply search_from_some in E as (a & b & -> & Hm & _).
    rewrite app_nil_r in Hm.
    pose proof (whole_word_at c a b Hc) as Hat. rewrite Hm in Hat. simpl in Hat.
    symmetry in Hat. apply andb_true_iff in Hat as [Hat Hpost].
    apply andb_true_iff in Hat as [Hpre Hs].
    exists a, (skipn (length c) b). split; [| split].
    + f_equal. apply starts_with_split. exact Hs.
    + apply negb_true_iff. exact Hpre.
    + apply negb_true_iff. exact Hpost.
  - intros (pre & post & -> & Hpre & Hpost).
    destruct (search_from (whole_word c) [] (pre ++ c ++ post)) eqn:E; [reflexivity |].
    pose proof (search_from_none _ _ _ E pre (c ++ post) eq_refl) as Hn.
    rewrite app_nil_r in Hn.
    pose proof (whole_word_at c pre (c ++ post) Hc) as Hat.
    rewrite Hn, Hpre, starts_with_app in Hat.
    rewrite skipn_app, skipn_all, Nat.sub_diag in Hat. simpl in Hat.
    change (drop 0 post) with post in Hat.
    rewrite Hpost in Hat. discriminate.
Qed.

Lemma occurs_contains c s : occurs_as_word c s -> contains c s = true.
Proof. intros (pre & post & -> & _). apply contains_app. Qed.

Lemma color_loop_some cs lq c :
  forallb wordy cs = true ->
  color_loop cs lq = Some c <->
  exists earlier later,
    cs = earlier ++ c :: later /\ occurs_as_word c lq /\
    forall c', In c' earlier -> ~ occurs_as_word c' lq.
Proof.
  induction cs as [| x cs IH]; cbn [color_loop forallb]; intros Hw.
  - split; [discriminate |]. intros ([| ? ?] & ? & ? & _); discriminate.
  - apply andb_true_iff in Hw as [Hx Hcs].
    pose proof (whole_word_search x lq Hx) as Hsearch.
    destruct (found (re_search (whole_word x) lq)) eqn:Ef.
    + assert (Hocc : occurs_as_word x lq) by (apply Hsearch; reflexivity).
      rewrite (occurs_contains _ _ Hocc).
      destruct (re_search (whole_word x) lq); [| discriminate]. split.
      * intros [= <-]. exists [], cs. repeat split; auto; intros c' [].
      * intros ([| y earlier] & later & Heq & Hc & Hnone).
        -- injection Heq as -> _. reflexivity.
        -- injection Heq as -> _. exfalso. apply (Hnone y); [left; reflexivity | exact Hocc].
    + assert (Hnocc : ~ occurs_as_word x lq).
      { intros H. apply Hsearch in H. discriminate. }
      assert (Hstep : (if contains x lq
                       then match re_search (whole_word x) lq with
                            | Some _ => Some x
                            | None => color_loop cs lq
                            end
                       else color_loop cs lq) = color_loop cs lq).
      { destruct (contains x lq); [| reflexivity].
        destruct (re_search (whole_word x) lq); [discriminate | reflexivity]. }
      rewrite Hstep, (IH Hcs). split.
      * intros (earlier & later & -> & Hc & Hnone).
        exists (x :: earlier), later. repeat split; auto.
        intros c' [<- | Hin]; auto.
      * intros ([| y earlier] & later & Heq & Hc & Hnone).
        -- injection Heq as -> _. contradiction.
        -- injection Heq as _ ->. exists earlier, later. repeat split; auto.
           intros c' Hin. apply Hnone. right. exact Hin.
Qed.

Lemma color_loop_none cs lq :
  forallb wordy cs = true ->
  color_loop cs lq = None <-> forall c, In c cs -> ~ occurs_as_word c lq.
Proof.
  intros Hw. split.
  - intros Hn c Hin Hocc. apply in_split in Hin as (l1 & l2 & Heq).
    revert l1 l2 c Hocc Heq Hn Hw. induction cs as [| x cs IH]; intros l1 l2 c Hocc Heq Hn Hw.
    + destruct l1; discriminate.
    + cbn [color_loop forallb] in *. apply andb_true_iff in Hw as [Hx Hcs].
      pose proof (whole_word_search x lq Hx) as Hsearch.
      destruct (contains x lq) eqn:Ec.
      * destruct (re_search (whole_word x) lq) eqn:Es; [discriminate |].
        destruct l1 as [| y l1]; injection Heq as -> ->.
        -- apply Hsearch in Hocc. discriminate.
        -- apply (IH l1 l2 c); auto.
      * destruct l1 as [| y l1]; injection Heq as -> ->.
        -- apply occurs_contains in Hocc. congruence.
        -- apply (IH l1 l2 c); auto.
  - intros Hnone. destruct (color_loop cs lq) as [c |] eqn:E; [| reflexivity].
    apply (color_loop_some cs lq c Hw) in E as (earlier & later & -> & Hc & _).
    exfalso. apply (Hnone c); [apply in_or_app; right; left; reflexivity | exact Hc].
Qed.

(** C7: the colour of the intent record is one of white, black, blue,
    red, green, yellow and floral that stands in the lower-cased query as
    a whole word, and it is the first such word in that order, wherever
    the words stand in the query; no colour is set exactly when none of
    the seven stands as a whole word. *)
Theorem color_first_whole_word q w :
  sane_clock w ->
  exists info w',
    parse_query q w = (inl info, w') /\
    (forall c,
        color info = Some c <->
        exists earlier later,
          ["white"; "black"; "blue"; "red"; "green"; "yellow"; "floral"]
          = earlier ++ c :: later /\
          occurs_as_word c (lower q) /\
          forall c', In c' earlier -> ~ occurs_as_word c' (lower q)) /\
    (color info = None <->
     forall c, In c ["white"; "black"; "blue"; "red"; "green"; "yellow"; "floral"] ->
               ~ occurs_as_word c (lower q)).
Proof.
  intros Hw.
  destruct (parse_query_returns q w Hw) as (info & w' & Hq & _ & _ & _ & Hc & _).
  exists info, w'. split; [exact Hq |]. rewrite Hc. unfold extract_color. split.
  - intros c. apply (color_loop_some colors). reflexivity.
  - apply (color_loop_none colors). reflexivity.
Qed.

Lemma color_first_whole_word_witness :
  exists info w',
    parse_query "a blueberry red and white top" sample_world = (inl info, w') /\
    color info = Some "white".
Proof.
  destruct (color_first_whole_word "a blueberry red and white top" sample_world)
    as (info & w' & Hq & Hsome & _).
  - intros n. simpl. unfold max_ordinal. lia.
  - exists info, w'. split; [exact Hq |].
    apply Hsome. exists [], ["black"; "blue"; "red"; "green"; "yellow"; "floral"].
    split; [reflexivity |]. split; [| intros c' []].
    exists "a blueberry red and ", " top". repeat split.
Defined.

Example color_blueberry : extract_color "Blueberry muffins" = None.
Proof. reflexivity. Qed.

Example color_vocabulary_order : extract_color "a red and white top" = Some "white".
Proof. reflexivity. Qed.

(** ** Weekday deadlines *)

Lemma matches_lit w : forall l r g,
  matches (lit w) (Cursor l (w ++ r) g) (Cursor (rev w ++ l) r g).
Proof.
  induction w as [| c w IH]; intros l r g; [apply matches_eps |].
  destruct w as [| c2 w].
  - apply matches_cls. apply Ascii.eqb_refl.
  - change (lit (c :: c2 :: w)) with (Seq (chr c) (lit (c2 :: w))).
    apply matches_seq with (st2 := Cursor (c :: l) ((c2 :: w) ++ r) g).
    + apply matches_cls. apply Ascii.eqb_refl.
    + replace (rev (c :: c2 :: w) ++ l) with (rev (c2 :: w) ++ c :: l)
        by (simpl; rewrite <- !app_assoc; reflexivity).
      apply IH.
Qed.

Lemma spells_lit w : forall u, spells (lit w) u -> u = w.
Proof.
  induction w as [| c w IH]; intros u H.
  - inversion H. reflexivity.
  - destruct w as [| c2 w].
    + inversion H as [| p c' Hc | | | | | | |]; subst.
      apply Ascii.eqb_eq in Hc. subst. reflexivity.
    + change (lit (c :: c2 :: w)) with (Seq (chr c) (lit (c2 :: w))) in H.
      inversion H as [| | r1 r2 u1 u2 H1 H2 | | | | | |]; subst.
      inversion H1 as [| p c' Hc | | | | | | |]; subst.
      apply Ascii.eqb_eq in Hc. subst. simpl. f_equal. apply IH. exact H2.
Qed.

Lemma spells_alts_lit xs : forall x u,
  spells (alts (lit x) (map lit xs)) u -> In u (x :: xs).
Proof.
  induction xs as [| y xs IH]; intros x u H; cbn [alts map] in H.
  - left. symmetry. apply spells_lit. exact H.
  - inversion H as [| | | r1 r2 u' H1 | r1 r2 u' H1 | | | |]; subst.
    + left. symmetry. apply spells_lit. exact H1.
    + right. apply IH. exact H1.
Qed.

(** One turn of the loop on a pattern that matched a weekday name. *)
Lemma parse_date_loop_weekday p rest lq w m day t :
  sane_clock w ->
  re_search p lq = Some m -> group m 1 = Some day -> In day weekdays ->
  days_map !! day = Some t ->
  parse_date_loop (p :: rest) lq w =
  (inl (Some {| ordinal := ordinal (clock w (clock_reads w))
                           + days_until t (weekday (clock w (clock_reads w)));
                micros := micros (clock w (clock_reads w)) |}),
   tick w).
Proof.
  intros Hw Hs Hg Hday Ht. cbn [parse_date_loop]. rewrite Hs, Hg.
  unfold bind, now. fold (tick w).
  apply mem_In in Hday. rewrite Hday, Ht. unfold bind, lift.
  rewrite add_days_in_range; [reflexivity | apply Hw | apply Hw | apply days_until_range].
Qed.

Lemma next_occurrence today t :
  (0 <= t <= 6)%Z ->
  let n := days_until t (weekday today) in
  (n = (if ((t - weekday today) mod 7 =? 0) then 7 else (t - weekday today) mod 7) /\
   1 <= n <= 7 /\
   (ordinal today + n + 6) mod 7 = t /\
   (weekday today = t -> n = 7) /\
   (forall k, 1 <= k < n -> (ordinal today + k + 6) mod 7 <> t))%Z.
Proof.
  intros Ht n. subst n. unfold days_until, weekday.
  split; [reflexivity |].
  destruct (Z.eqb_spec ((t - (ordinal today + 6) mod 7) mod 7) 0) as [E | E].
  - split; [lia |]. split; [Z.to_euclidean_division_equations; lia |].
    split; [reflexivity |].
    intros k Hk Heq. Z.to_euclidean_division_equations; lia.
  - split; [Z.to_euclidean_division_equations; lia |].
    split; [Z.to_euclidean_division_equations; lia |].
    split.
    + intros Heq. Z.to_euclidean_division_equations; lia.
    + intros k Hk Heq. Z.to_euclidean_division_equations; lia.
Qed.

Lemma lstrip_blanks ws r :
  forallb is_space ws = true ->
  match r with c :: _ => is_space c = false | [] => True end ->
  lstrip (ws ++ r) = r.
Proof.
  induction ws as [| c ws IH]; simpl; intros Hws Hr.
  - destruct r as [| c r]; [reflexivity |]. simpl. rewrite Hr. reflexivity.
  - apply andb_true_iff in Hws as [Hc Hws]. rewrite Hc. apply IH; assumption.
Qed.

Lemma first_weekday_phrase_spec kw pre rest :
  first_weekday_phrase kw pre rest = true ->
  forall a b, pre = a ++ b -> b <> [] -> weekday_phrase kw (b ++ rest) = false.
Proof.
  induction pre as [| c pre IH]; cbn [first_weekday_phrase]; intros H a b Hab Hb.
  - symmetry in Hab. apply app_eq_nil in Hab as [_ ->]. congruence.
  - apply andb_true_iff in H as [Hc Hpre]. apply negb_true_iff in Hc.
    destruct a as [| c' a]; simpl in Hab.
    + subst b. exact Hc.
    + injection Hab as _ ->. apply (IH Hpre a b eq_refl Hb).
Qed.

Lemma skipn_length_app (a b : str) : skipn (length a) (a ++ b) = b.
Proof. induction a as [| c a IH]; [reflexivity | exact IH]. Qed.

Lemma weekday_not_blank name r :
  In name weekdays -> match name ++ r with c :: _ => is_space c = false | [] => True end.
Proof.
  intros Hin. unfold weekdays in Hin.
  repeat (destruct Hin as [<- | Hin]; [reflexivity |]). destruct Hin.
Qed.

Lemma spells_deadline kw u :
  spells (deadline_pattern kw) u ->
  exists ws name, u = kw ++ ws ++ name /\ forallb is_space ws = true /\ In name weekdays.
Proof.
  unfold deadline_pattern. cbn [seqs]. intros H.
  inversion H as [| | r1 r2 u1 v1 H1 H2 | | | | | |]; subst; clear H.
  apply spells_lit in H1. subst u1.
  inversion H2 as [| | r3 r4 u2 v2 Hsp Hgrp | | | | | |]; subst; clear H2.
  inversion Hsp as [| | | | | greedy p u Hws | | |]; subst; clear Hsp.
  inversion Hgrp as [| | | | | | n r0 u Hname | |]; subst; clear Hgrp.
  change weekday_alt with (alts (lit "monday") (map lit (tl weekdays))) in Hname.
  apply spells_alts_lit in Hname. eauto.
Qed.

(** Where a weekday pattern matches, a weekday phrase begins. *)
Lemma deadline_at_phrase kw l r m :
  match_at (deadline_pattern kw) l r = Some m -> weekday_phrase kw r = true.
Proof.
  intros H. apply match_at_some in H as (st' & Hm & _).
  pose proof (span_matches _ _ _ Hm) as Hr. cbn [after] in Hr.
  apply matches_spells in Hm.
  destruct (spells_deadline _ _ Hm) as (ws & name & Hu & Hws & Hname).
  rewrite Hr, Hu. unfold weekday_phrase. rewrite <- !app_assoc.
  rewrite starts_with_app, skipn_length_app.
  rewrite lstrip_blanks; [| exact Hws | apply weekday_not_blank; exact Hname].
  cbn [andb]. apply existsb_exists. exists name. split; [exact Hname | apply starts_with_app].
Qed.

Lemma rmatch_weekday_alt {A} name post l g (k : cursor -> option A) x :
  In name weekdays ->
  k (Cursor (rev name ++ l) post g) = Some x ->
  rmatch weekday_alt (Cursor l (name ++ post) g) k = Some x.
Proof.
  intros Hin Hk. unfold weekday_alt. cbn [alts rmatch]. rewrite !rmatch_lit.
  unfold weekdays in Hin.
  repeat (destruct Hin as [<- | Hin];
          [cbn in Hk |- *; change (drop 0 post) with post; rewrite Hk; reflexivity |]).
  destruct Hin.
Qed.

(** At a weekday phrase the pattern matches and captures the name. *)
Lemma deadline_match kw pre ws name post :
  forallb is_space ws = true -> In name weekdays ->
  exists m,
    match_at (deadline_pattern kw) (rev pre) (kw ++ ws ++ name ++ post) = Some m /\
    group m 1 = Some name.
Proof.
  intros Hws Hname. unfold match_at, deadline_pattern. cbn [seqs rmatch].
  rewrite rmatch_lit, starts_with_app, skipn_length_app.
  unfold spaces. cbn [rmatch after before caps].
  erewrite star_greedy_longest;
    [| exact Hws | apply weekday_not_blank; exact Hname |]; cycle 1.
  { apply rmatch_weekday_alt; [exact Hname | reflexivity]. }
  eexists. split; [reflexivity |].
  cbn [group m_caps set_cap caps assoc Nat.eqb].
  f_equal. apply span_of_subject; reflexivity.
Qed.

Lemma search_from_absent re : forall r l,
  (forall a b, r = a ++ b -> match_at re (rev a ++ l) b = None) ->
  search_from re l r = None.
Proof.
  induction r as [| c r IH]; intros l H; cbn [search_from].
  - pose proof (H [] [] eq_refl) as H0. cbn [rev app] in H0. rewrite H0. reflexivity.
  - pose proof (H [] (c :: r) eq_refl) as H0. cbn [rev app] in H0. rewrite H0. apply IH.
    intros a b ->. specialize (H (c :: a) b eq_refl).
    cbn [rev] in H. rewrite <- app_assoc in H. exact H.
Qed.

(** The leftmost weekday phrase of a keyword is what its pattern finds. *)
Lemma deadline_search kw pre ws name post :
  forallb is_space ws = true -> In name weekdays ->
  first_weekday_phrase kw pre (kw ++ ws ++ name ++ post) = true ->
  exists m,
    re_search (deadline_pattern kw) (pre ++ kw ++ ws ++ name ++ post) = Some m /\
    group m 1 = Some name.
Proof.
  intros Hws Hname Hfirst.
  destruct (deadline_match kw pre ws name post Hws Hname) as (m & Hm & Hg).
  exists m. split; [| exact Hg].
  apply search_from_first; [| rewrite app_nil_r; exact Hm].
  intros a1 a2 Ha Hne. rewrite app_nil_r.
  destruct (match_at (deadline_pattern kw) (rev a1) (a2 ++ kw ++ ws ++ name ++ post)) eqn:E;
    [| reflexivity].
  apply deadline_at_phrase in E.
  rewrite (first_weekday_phrase_spec _ _ _ Hfirst a1 a2 Ha Hne) in E. discriminate.
Qed.

Lemma deadline_absent kw s :
  first_weekday_phrase kw s [] = true -> re_search (deadline_pattern kw) s = None.
Proof.
  intros Hfirst. apply search_from_absent. intros a b ->.
  destruct (match_at (deadline_pattern kw) (rev a ++ []) b) eqn:E; [| reflexivity].
  apply deadline_at_phrase in E. destruct b as [| c b].
  - unfold weekday_phrase in E. apply andb_true_iff in E as [_ E].
    replace (lstrip (skipn (length kw) [])) with (@nil ascii) in E
      by (destruct kw; reflexivity).
    discriminate.
  - pose proof (first_weekday_phrase_spec _ _ _ Hfirst a (c :: b) eq_refl) as H.
    rewrite app_nil_r in H. rewrite H in E by discriminate. discriminate.
Qed.

Lemma weekday_table i name :
  nth_error ["monday"; "tuesday"; "wednesday"; "thursday"; "friday"; "saturday"; "sunday"] i
  = Some name ->
  In name weekdays /\ days_map !! name = Some (Z.of_nat i) /\ (0 <= Z.of_nat i <= 6)%Z.
Proof.
  intros H.
  do 7 (destruct i as [| i]; [injection H as <-; vm_compute; intuition discriminate |]).
  destruct i; discriminate.
Qed.

(** C5: the weekday phrase that counts is the leftmost "by", blanks and
    weekday name of the lower-cased query, or, when the query has no such
    phrase, the leftmost "before", blanks and weekday name.  With Monday
    numbered 0 and Sunday 6, the delivery target is today plus
    [(target - current) mod 7] days, or plus 7 days when that is zero: it
    falls on the named weekday, 1 to 7 days ahead, is the first such day
    after today, and is a full week ahead when today is that weekday. *)
Theorem weekday_deadline_next_occurrence q w pre kw ws name post i :
  sane_clock w ->
  lower q = pre ++ kw ++ ws ++ name ++ post ->
  forallb is_space ws = true ->
  nth_error ["monday"; "tuesday"; "wednesday"; "thursday"; "friday"; "saturday"; "sunday"] i
  = Some name ->
  (kw = "by" /\ first_weekday_phrase "by" pre (kw ++ ws ++ name ++ post) = true) \/
  (kw = "before" /\ first_weekday_phrase "by" (lower q) [] = true /\
   first_weekday_phrase "before" pre (kw ++ ws ++ name ++ post) = true) ->
  let today := clock w (clock_reads w) in
  let n := ((Z.of_nat i - weekday today) mod 7)%Z in
  let days := (if (n =? 0)%Z then 7 else n)%Z in
  let result := {| ordinal := ordinal today + days; micros := micros today |} in
  _parse_delivery_date q w = (inl (Some result), tick w) /\
  (1 <= days <= 7)%Z /\
  weekday result = Z.of_nat i /\
  (weekday today = Z.of_nat i -> days = 7%Z) /\
  (forall k, (1 <= k < days)%Z ->
             weekday {| ordinal := ordinal today + k; micros := micros today |}
             <> Z.of_nat i).
Proof.
  intros Hw Hq Hws Hi Hkw today.
  destruct (weekday_table i name Hi) as (Hname & Ht & Hrange).
  assert (Hfirst : exists p m rest,
             re_search p (lower q) = Some m /\ group m 1 = Some name /\
             parse_date_loop date_patterns (lower q) w = parse_date_loop (p :: rest) (lower q) w).
  { destruct Hkw as [[-> Hby] | (-> & Hnoby & Hbefore)].
    - destruct (deadline_search "by" pre ws name post Hws Hname Hby) as (m & Hm & Hg).
      rewrite <- Hq in Hm.
      exists date_by, m, [date_before; date_deliver; date_arrive]. auto.
    - destruct (deadline_search "before" pre ws name post Hws Hname Hbefore) as (m & Hm & Hg).
      rewrite <- Hq in Hm. apply deadline_absent in Hnoby.
      exists date_before, m, [date_deliver; date_arrive]. repeat split; auto.
      unfold date_patterns. cbn [parse_date_loop].
      change date_by with (deadline_pattern "by"). rewrite Hnoby. reflexivity. }
  destruct Hfirst as (p & m & rest & Hs & Hg & Hloop).
  destruct (next_occurrence today (Z.of_nat i) Hrange) as (Hn & Hb & Hwd & Hsame & Hnone).
  cbv zeta. rewrite <- Hn. split; [| split; [| split; [| split]]].
  - unfold _parse_delivery_date. rewrite Hloop.
    apply (parse_date_loop_weekday p rest (lower q) w m name (Z.of_nat i)); assumption.
  - exact Hb.
  - unfold weekday at 1. cbn [ordinal]. exact Hwd.
  - exact Hsame.
  - intros k Hk. unfold weekday at 1. cbn [ordinal]. apply Hnone. exact Hk.
Qed.

Lemma weekday_deadline_next_occurrence_witness :
  _parse_delivery_date "Shoes before Friday, or a dress by TUESDAY?" sample_world
  = (inl (Some {| ordinal := 739930; micros := 43200000000 |}), tick sample_world) /\
  weekday {| ordinal := 739930; micros := 43200000000 |} = 1%Z.
Proof.
  destruct (weekday_deadline_next_occurrence
              "Shoes before Friday, or a dress by TUESDAY?" sample_world
              "shoes before friday, or a dress " "by" " " "tuesday" "?" 1)
    as (Hres & _ & Hday & _).
  - intros n. simpl. unfold max_ordinal. lia.
  - reflexivity.
  - reflexivity.
  - reflexivity.
  - left. split; reflexivity.
  - split; [exact Hres | exact Hday].
Defined.

(** The frozen form of C5 fails: a query that holds "before friday" is
    resolved to a Monday when a "by" phrase stands later in it, because
    the "by" pattern is tried first.  On Tuesday 3 November 2026 the
    answer is Monday 9 November, not Friday 6 November. *)
Lemma before_phrase_not_resolved :
  lower "Can it come before Friday or by Monday?"
  = "can it come " ++ "before" ++ " " ++ "friday" ++ " or by monday?" /\
  _parse_delivery_date "Can it come before Friday or by Monday?" sample_world
  = (inl (Some {| ordinal := 739929; micros := 43200000000 |}), tick sample_world) /\
  weekday {| ordinal := 739929; micros := 43200000000 |} = 0%Z /\
  weekday {| ordinal := 739926; micros := 43200000000 |} = 4%Z.
Proof. repeat split. Qed.

(** ** Price ceilings *)

Lemma first_under_phrase_spec pre rest :
  first_under_phrase pre rest = true ->
  forall a b, pre = a ++ b -> b <> [] -> under_phrase (b ++ rest) = false.
Proof.
  induction pre as [| c pre IH]; cbn [first_under_phrase]; intros H a b Hab Hb.
  - symmetry in Hab. apply app_eq_nil in Hab as [_ ->]. congruence.
  - apply andb_true_iff in H as [Hc Hpre]. apply negb_true_iff in Hc.
    destruct a as [| c' a]; simpl in Hab.
    + subst b. exact Hc.
    + injection Hab as _ ->. apply (IH Hpre a b eq_refl Hb).
Qed.

Lemma star_greedy_stop {A} p (k : cursor -> option A) l r g :
  match r with c :: _ => p c = false | [] => True end ->
  star true p k l r g = k (Cursor l r g).
Proof. destruct r as [| c r]; simpl; [reflexivity |]. intros ->. reflexivity. Qed.

Lemma not_digit_head post :
  starts_with_digit post = false ->
  match post with c :: _ => is_digit c = false | [] => True end.
Proof. destruct post; simpl; auto. Qed.

Lemma rmatch_numeral {A} ip fp post l g (k : cursor -> option A) x :
  ip <> [] -> forallb is_digit ip = true -> forallb is_digit (fraction fp) = true ->
  numeral_ends fp post = true ->
  k (Cursor (rev (numeral_str ip fp) ++ l) post g) = Some x ->
  rmatch numeral (Cursor l (numeral_str ip fp ++ post) g) k = Some x.
Proof.
  intros Hne Hip Hfp Hend Hk.
  destruct ip as [| d ds]; [congruence |].
  cbn [forallb] in Hip. apply andb_true_iff in Hip as [Hd Hds].
  apply andb_true_iff in Hend as [Hpost Hdot]. apply negb_true_iff in Hpost.
  unfold numeral, plus, opt. cbn [seqs].
  destruct fp as [f |]; cbn [numeral_str fraction] in *.
  - replace (((d :: ds) ++ "." ++ f) ++ post) with (d :: ds ++ ("." ++ f ++ post))
      by (simpl; rewrite <- !app_assoc; reflexivity).
    cbn [rmatch after before caps]. rewrite Hd.
    apply star_greedy_longest; [exact Hds | reflexivity |].
    change ("." ++ f ++ post) with ("."%char :: f ++ post).
    cbn [rmatch after before caps chr]. rewrite Ascii.eqb_refl.
    rewrite (star_greedy_longest is_digit k f _ post g x Hfp (not_digit_head _ Hpost));
      [reflexivity |].
    rewrite <- Hk. f_equal. f_equal. simpl. rewrite !rev_app_distr. simpl.
    rewrite <- !app_assoc. reflexivity.
  - replace ((d :: ds) ++ post) with (d :: ds ++ post) by reflexivity.
    cbn [rmatch after before caps]. rewrite Hd.
    apply star_greedy_longest; [exact Hds | apply not_digit_head; exact Hpost |].
    cbn [rmatch after before caps chr].
    assert (Hnodot : match post with
                     | c :: r => if Ascii.eqb "." c
                                 then star true is_digit k (c :: rev ds ++ d :: l) r g
                                 else None
                     | [] => None
                     end = None).
    { destruct post as [| c r]; [reflexivity |]. cbn [starts_with] in Hdot.
      rewrite andb_true_r in Hdot. apply negb_true_iff in Hdot.
      rewrite Hdot. reflexivity. }
    rewrite Hnodot. cbn [orelse].
    rewrite (star_greedy_stop is_digit k _ post g (not_digit_head _ Hpost)).
    rewrite <- Hk. f_equal. f_equal. simpl. rewrite <- app_assoc. reflexivity.
Qed.

Lemma price_under_spells u :
  spells price_under u ->
  exists ws g, u = "under" ++ ws ++ "$" ++ g /\ forallb is_space ws = true /\ numeral_text g.
Proof.
  unfold price_under. cbn [seqs]. intros H.
  inversion H as [| | r1 r2 u1 v1 H1 H2 | | | | | |]; subst; clear H.
  apply (spells_lit "under") in H1. subst u1.
  inversion H2 as [| | r1 r2 u2 v2 H3 H4 | | | | | |]; subst; clear H2.
  inversion H3; subst; clear H3.
  inversion H4 as [| | r1 r2 u3 v3 H5 H6 | | | | | |]; subst; clear H4.
  inversion H5 as [| p c Hc | | | | | | |]; subst; clear H5.
  apply Ascii.eqb_eq in Hc. subst c.
  inversion H6; subst; clear H6.
  exists u2, v3. repeat split; auto. apply spells_numeral. assumption.
Qed.

Lemma numeral_text_digit g : numeral_text g -> exists d r, g = d :: r /\ is_digit d = true.
Proof.
  intros [ip Hne Hip | ip fp Hne Hip Hfp]; (destruct ip as [| d ds]; [congruence |]);
    simpl in Hip; apply andb_true_iff in Hip as [Hd _]; simpl; eauto.
Qed.

Lemma price_under_phrase l r m :
  match_at price_under l r = Some m -> under_phrase r = true.
Proof.
  intros H. apply match_at_some in H as (st' & Hm & _).
  pose proof (span_matches _ _ _ Hm) as Hr. cbn [after] in Hr.
  apply matches_spells in Hm.
  destruct (price_under_spells _ Hm) as (ws & g & Hu & Hws & Hg).
  destruct (numeral_text_digit g Hg) as (d & g' & -> & Hd).
  rewrite Hu in Hr. rewrite Hr. unfold under_phrase.
  rewrite <- !app_assoc. rewrite starts_with_app.
  change (skipn 5 ("under" ++ ws ++ "$" ++ (d :: g') ++ after st'))
    with (ws ++ "$" ++ (d :: g') ++ after st').
  rewrite lstrip_blanks; [| exact Hws | reflexivity].
  simpl. exact Hd.
Qed.

Lemma price_under_match pre ws ip fp post :
  forallb is_space ws = true ->
  ip <> [] -> forallb is_digit ip = true -> forallb is_digit (fraction fp) = true ->
  numeral_ends fp post = true ->
  exists m,
    match_at price_under (rev pre) ("under" ++ ws ++ "$" ++ numeral_str ip fp ++ post) = Some m /\
    group m 1 = Some (numeral_str ip fp).
Proof.
  intros Hws Hne Hip Hfp Hend. unfold match_at, price_under. cbn [seqs rmatch].
  rewrite rmatch_lit, starts_with_app.
  change (skipn (length "under") ("under" ++ ws ++ "$" ++ numeral_str ip fp ++ post))
    with (ws ++ "$" ++ numeral_str ip fp ++ post).
  unfold spaces. cbn [rmatch after before caps].
  erewrite star_greedy_longest; [| exact Hws | reflexivity |]; cycle 1.
  { change ("$" ++ numeral_str ip fp ++ post) with ("$"%char :: numeral_str ip fp ++ post).
    cbn [rmatch after before caps chr]. rewrite Ascii.eqb_refl.
    apply (rmatch_numeral ip fp post); try assumption. reflexivity. }
  eexists. split; [reflexivity |].
  cbn [group m_caps set_cap caps assoc Nat.eqb].
  f_equal. apply span_of_subject; reflexivity.
Qed.

Lemma first_match_priority ps s : forall earlier p later m,
  ps = earlier ++ p :: later ->
  (forall p', In p' earlier -> re_search p' s = None) ->
  re_search p s = Some m ->
  first_match ps s = Some m.
Proof.
  intros earlier. revert ps.
  induction earlier as [| e earlier IH]; intros ps p later m -> Hnone Hm; cbn [app first_match].
  - rewrite Hm. reflexivity.
  - rewrite (Hnone e) by (left; reflexivity).
    apply (IH _ p later m eq_refl); [| exact Hm].
    intros p' Hin. apply Hnone. right. exact Hin.
Qed.

Lemma first_match_none ps s :
  (forall p, In p ps -> re_search p s = None) -> first_match ps s = None.
Proof.
  induction ps as [| p ps IH]; intros Hnone; cbn [first_match]; [reflexivity |].
  rewrite (Hnone p) by (left; reflexivity). apply IH.
  intros p' Hin. apply Hnone. right. exact Hin.
Qed.

(** ** The float of a numeral

    [float] gives the binary64 number nearest to the decimal number that
    a numeral writes.  The model divides the integer written by all the
    digits by the power of ten of the fraction, with the division of
    [SpecFloat]; what follows shows that this division rounds to
    nearest, ties to even. *)

Open Scope Z_scope.

(** *** Binary digits *)

Lemma digits2_pos_bounds p :
  2 ^ (Zpos (digits2_pos p) - 1) <= Zpos p < 2 ^ Zpos (digits2_pos p).
Proof.
  induction p as [p IH | p IH |]; cbn [digits2_pos].
  - rewrite Pos2Z.inj_succ. change (Z.pos p~1) with (2 * Z.pos p + 1).
    replace (Z.succ (Zpos (digits2_pos p)) - 1) with (Z.succ (Zpos (digits2_pos p) - 1)) by lia.
    rewrite !Z.pow_succ_r by lia. lia.
  - rewrite Pos2Z.inj_succ. change (Z.pos p~0) with (2 * Z.pos p).
    replace (Z.succ (Zpos (digits2_pos p)) - 1) with (Z.succ (Zpos (digits2_pos p) - 1)) by lia.
    rewrite !Z.pow_succ_r by lia. lia.
  - cbn. lia.
Qed.

Lemma Zdigits2_bounds m :
  0 < m -> 2 ^ (Zdigits2 m - 1) <= m < 2 ^ Zdigits2 m.
Proof. destruct m as [| p | p]; try lia. intros _. apply digits2_pos_bounds. Qed.

Lemma Zdigits2_pos m : 0 < m -> 0 < Zdigits2 m.
Proof. destruct m; cbn; lia. Qed.

Lemma Zdigits2_le m d : 0 < m -> m < 2 ^ d -> Zdigits2 m <= d.
Proof.
  intros Hm Hd. destruct (Z.le_gt_cases (Zdigits2 m) d) as [H | H]; [exact H | exfalso].
  pose proof (Zdigits2_bounds m Hm) as [Hlo _].
  assert (0 <= d). { destruct (Z.le_gt_cases 0 d); [assumption |]. rewrite Z.pow_neg_r in Hd; lia. }
  pose proof (Z.pow_le_mono_r 2 d (Zdigits2 m - 1)). lia.
Qed.

Lemma Zdigits2_ge m d : 0 < m -> 2 ^ (d - 1) <= m -> d <= Zdigits2 m.
Proof.
  intros Hm Hd. destruct (Z.le_gt_cases d (Zdigits2 m)) as [H | H]; [exact H | exfalso].
  pose proof (Zdigits2_bounds m Hm) as [_ Hhi].
  pose proof (Zdigits2_pos m Hm).
  pose proof (Z.pow_le_mono_r 2 (Zdigits2 m) (d - 1)). lia.
Qed.

(** *** Shifting a mantissa *)

Lemma shr_1_half mrs : 0 <= shr_m mrs -> shr_m (shr_1 mrs) = shr_m mrs / 2.
Proof.
  destruct mrs as [m r s]. cbn [shr_m]. intros Hm.
  destruct m as [| [p | p |] | p]; cbn [shr_1 shr_m]; try lia.
  - reflexivity.
  - change (Z.pos p~1) with (2 * Z.pos p + 1).
    apply (Z.div_unique _ 2 _ 1); lia.
  - change (Z.pos p~0) with (2 * Z.pos p).
    apply (Z.div_unique _ 2 _ 0); lia.
  - reflexivity.
Qed.

Lemma shr_1_inb N D mrs : 0 < D -> inb N D mrs -> inb N (2 * D) (shr_1 mrs).
Proof.
  destruct mrs as [m r s]. unfold inb. cbn [shr_m shr_r shr_s].
  intros HD (Hm & Hb & Hr & Hs).
  assert (Hor : orb r s = true <-> N - m * D <> 0).
  { rewrite orb_true_iff, Hr, Hs. lia. }
  destruct m as [| [p | p |] | p]; cbn [shr_1 shr_m shr_r shr_s]; try lia;
    rewrite Hor;
    try change (Z.pos p~1) with (2 * Z.pos p + 1) in *;
    try change (Z.pos p~0) with (2 * Z.pos p) in *;
    repeat split; try lia; try discriminate; intros; try lia.
Qed.

Lemma iter_shr_1 N n : forall mrs D,
  0 < D -> inb N D mrs ->
  inb N (2 ^ Zpos n * D) (SpecFloat.iter_pos shr_1 n mrs) /\
  shr_m (SpecFloat.iter_pos shr_1 n mrs) = shr_m mrs / 2 ^ Zpos n.
Proof.
  induction n as [n IH | n IH |]; intros mrs D HD Hin; cbn [SpecFloat.iter_pos].
  - pose proof (shr_1_inb N D mrs HD Hin) as H1.
    pose proof (shr_1_half mrs (proj1 Hin)) as E1.
    destruct (IH _ (2 * D) ltac:(lia) H1) as [H2 E2].
    assert (Hp : 0 < 2 ^ Zpos n) by (apply Z.pow_pos_nonneg; lia).
    destruct (IH _ (2 ^ Zpos n * (2 * D)) ltac:(lia) H2) as [H3 E3].
    change (Z.pos n~1) with (2 * Z.pos n + 1).
    replace (2 ^ (2 * Z.pos n + 1)) with (2 * 2 ^ Zpos n * 2 ^ Zpos n)
      by (rewrite Z.pow_add_r, Z.pow_mul_r, Z.pow_2_r by lia;
          replace (2 * 2) with (2 ^ 2) by reflexivity;
          rewrite <- !Z.pow_mul_r by lia; rewrite (Z.mul_comm 2 (Z.pos n));
          rewrite Z.pow_mul_r, Z.pow_2_r by lia; lia).
    split.
    + replace (2 * 2 ^ Z.pos n * 2 ^ Z.pos n * D) with (2 ^ Z.pos n * (2 ^ Z.pos n * (2 * D)))
        by lia. exact H3.
    + rewrite E3, E2, E1. rewrite !Z.div_div by lia. f_equal. lia.
  - destruct (IH _ D HD Hin) as [H2 E2].
    assert (Hp : 0 < 2 ^ Zpos n) by (apply Z.pow_pos_nonneg; lia).
    destruct (IH _ (2 ^ Zpos n * D) ltac:(lia) H2) as [H3 E3].
    change (Z.pos n~0) with (2 * Z.pos n).
    replace (2 ^ (2 * Z.pos n)) with (2 ^ Zpos n * 2 ^ Zpos n)
      by (rewrite <- Z.pow_add_r by lia; f_equal; lia).
    split.
    + replace (2 ^ Z.pos n * 2 ^ Z.pos n * D) with (2 ^ Z.pos n * (2 ^ Z.pos n * D)) by lia.
      exact H3.
    + rewrite E3, E2. rewrite !Z.div_div by lia. reflexivity.
  - split.
    + change (2 ^ 1) with 2. apply shr_1_inb; assumption.
    + change (2 ^ 1) with 2. apply shr_1_half. apply Hin.
Qed.

Lemma located_inb N D m l : 0 < D -> located N D m l -> inb N D (shr_record_of_loc m l).
Proof.
  intros HD (Hm & Hb & Hl). unfold inb.
  destruct l as [| []]; cbn [shr_record_of_loc shr_m shr_r shr_s];
    repeat split; try lia; try discriminate; intros; try lia.
Qed.

Lemma inb_located N D mrs :
  0 < D -> inb N D mrs -> located N D (shr_m mrs) (loc_of_shr_record mrs).
Proof.
  destruct mrs as [m r s]. unfold inb, located. cbn [shr_m shr_r shr_s].
  intros HD (Hm & Hb & Hr & Hs). split; [exact Hm |]. split; [exact Hb |].
  destruct r, s; cbn [loc_of_shr_record].
  - assert (D <= 2 * (N - m * D)) by (apply Hr; reflexivity).
    assert (N - m * D <> 0 /\ 2 * (N - m * D) <> D) by (apply Hs; reflexivity). lia.
  - assert (D <= 2 * (N - m * D)) by (apply Hr; reflexivity).
    destruct (Z.eq_dec (2 * (N - m * D)) D) as [E | E]; [exact E | exfalso].
    assert (false = true) by (apply Hs; lia). discriminate.
  - assert (N - m * D <> 0 /\ 2 * (N - m * D) <> D) by (apply Hs; reflexivity).
    assert (~ D <= 2 * (N - m * D)) by (intros H1; apply Hr in H1; discriminate). lia.
  - destruct (Z.eq_dec (N - m * D) 0) as [E | E]; [exact E | exfalso].
    assert (~ D <= 2 * (N - m * D)) by (intros H1; apply Hr in H1; discriminate).
    assert (false = true) by (apply Hs; lia). discriminate.
Qed.

Lemma fexp_eq e : fexp prec emax e = Z.max (e - 53) (-1074).
Proof. reflexivity. Qed.

Lemma pow2_pos a : 0 <= a -> 0 < 2 ^ a.
Proof. intros. apply Z.pow_pos_nonneg; lia. Qed.

Lemma pow2_le a b : a <= b -> 0 <= a -> 2 ^ a <= 2 ^ b.
Proof. intros. apply Z.pow_le_mono_r; lia. Qed.

Lemma pow2_add a b : 0 <= a -> 0 <= b -> 2 ^ (a + b) = 2 ^ a * 2 ^ b.
Proof. intros. apply Z.pow_add_r; lia. Qed.

(** The first shift of [binary_round_aux]. *)
Lemma shr_fexp_first N Du mx ex lx :
  0 < Du -> -1074 <= ex -> (ex = -1074 \/ 2 ^ 52 <= mx) ->
  located N (Du * 2 ^ (ex + 1074)) mx lx ->
  exists mrs e',
    shr_fexp prec emax mx ex lx = (mrs, e') /\
    inb N (Du * 2 ^ (e' + 1074)) mrs /\ ex <= e' /\
    shr_m mrs < 2 ^ 53 /\ (e' = -1074 \/ 2 ^ 52 <= shr_m mrs).
Proof.
  intros HDu Hex Hnorm Hloc.
  assert (HD : 0 < Du * 2 ^ (ex + 1074)) by (apply Z.mul_pos_pos; [lia | apply pow2_pos; lia]).
  pose proof (located_inb _ _ _ _ HD Hloc) as Hin.
  assert (Hmx : 0 <= mx) by apply Hloc.
  unfold shr_fexp, shr. rewrite fexp_eq.
  assert (Hm0 : shr_m (shr_record_of_loc mx lx) = mx) by (destruct lx as [| []]; reflexivity).
  destruct (Z.eq_dec mx 0) as [-> | Hne].
  - destruct Hnorm as [-> | Habs]; [| cbn in Habs; lia].
    cbn [Zdigits2]. cbn -[Z.pow shr_record_of_loc].
    eexists _, _. split; [reflexivity |]. rewrite Hm0.
    split; [exact Hin |]. split; [lia |]. split; [reflexivity | left; reflexivity].
  - pose proof (Zdigits2_bounds mx ltac:(lia)) as [Hlo Hhi].
    pose proof (Zdigits2_pos mx ltac:(lia)) as Hd.
    set (d := Zdigits2 mx) in *.
    destruct (Z.max (d + ex - 53) (-1074) - ex) as [| p | p] eqn:En.
    + eexists _, _. split; [reflexivity |]. rewrite Hm0.
      split; [exact Hin |]. split; [lia |]. split; [| exact Hnorm].
      pose proof (pow2_le d 53). lia.
    + destruct (iter_shr_1 N p _ _ HD Hin) as [Hin' Em].
      eexists _, _. split; [reflexivity |]. rewrite Em, Hm0.
      assert (Hp : 0 < 2 ^ Z.pos p) by (apply pow2_pos; lia).
      split; [| split; [lia | split]].
      * replace (Du * 2 ^ (ex + Z.pos p + 1074)) with (2 ^ Z.pos p * (Du * 2 ^ (ex + 1074)));
          [exact Hin' |].
        replace (ex + Z.pos p + 1074) with (ex + 1074 + Z.pos p) by lia.
        rewrite (pow2_add (ex + 1074) (Z.pos p)) by lia. lia.
      * apply Z.div_lt_upper_bound; [exact Hp |].
        rewrite <- pow2_add by lia. pose proof (pow2_le d (Z.pos p + 53)). lia.
      * destruct (Z.eq_dec (ex + Z.pos p) (-1074)) as [E | E]; [left; exact E | right].
        apply Z.div_le_lower_bound; [exact Hp |].
        rewrite <- pow2_add by lia.
        replace (Z.pos p + 52) with (d - 1) by lia. exact Hlo.
    + eexists _, _. split; [reflexivity |]. rewrite Hm0.
      split; [exact Hin |]. split; [lia |]. split; [| exact Hnorm].
      pose proof (pow2_le d 53). lia.
Qed.

(** Rounding to nearest, ties to even. *)
Lemma round_nearest_even_spec N D m l :
  located N D m l ->
  let m' := round_nearest_even m l in
  ((m' = m /\ 2 * (N - m * D) <= D) \/ (m' = m + 1 /\ D <= 2 * (N - m * D))) /\
  (2 * (N - m * D) = D -> Z.even m' = true).
Proof.
  intros (Hm & Hb & Hl). destruct l as [| []]; cbn [round_nearest_even].
  - split; [left; lia | lia].
  - destruct (Z.even m) eqn:E.
    + split; [left; lia | auto].
    + split; [right; lia |]. intros _. rewrite Z.even_add, E. reflexivity.
  - split; [left; lia | lia].
  - split; [right; lia | lia].
Qed.

(** The second shift of [binary_round_aux]: one bit at most, and none is
    lost. *)
Lemma shr_fexp_second m e :
  0 <= m <= 2 ^ 53 -> -1074 <= e ->
  exists mrs e',
    shr_fexp prec emax m e loc_Exact = (mrs, e') /\
    ((m < 2 ^ 53 /\ shr_m mrs = m /\ e' = e) \/
     (m = 2 ^ 53 /\ shr_m mrs = 2 ^ 52 /\ e' = e + 1)).
Proof.
  intros Hm He. destruct (Z.eq_dec m (2 ^ 53)) as [-> | Hne].
  - unfold shr_fexp, shr. rewrite fexp_eq.
    change (Zdigits2 (2 ^ 53)) with 54.
    replace (Z.max (54 + e - 53) (-1074) - e) with 1 by lia.
    eexists _, _. split; [reflexivity |]. right. repeat split.
  - unfold shr_fexp, shr. rewrite fexp_eq.
    assert (Hd : Zdigits2 m <= 53).
    { destruct (Z.eq_dec m 0) as [-> | H0]; [cbn; lia |].
      apply Zdigits2_le; lia. }
    destruct (Z.max (Zdigits2 m + e - 53) (-1074) - e) as [| p | p] eqn:En; try lia;
      (eexists _, _; split; [reflexivity |]; left; repeat split; lia).
Qed.

Lemma valid_finite m e : valid_binary (S754_finite false m e) = true ->
  -1074 <= e <= 971 /\ Zpos m < 2 ^ 53.
Proof.
  cbn [valid_binary SpecFloat.valid_binary]. unfold bounded, canonical_mantissa.
  rewrite fexp_eq. intros H. apply andb_true_iff in H as [Hc Hb].
  apply Z.eqb_eq in Hc. apply Z.leb_le in Hb. change (emax - prec) with 971 in Hb.
  split; [lia |].
  pose proof (digits2_pos_bounds m) as [_ Hhi].
  pose proof (pow2_le (Z.pos (digits2_pos m)) 53). lia.
Qed.

Lemma overflow_units_eq : overflow_units = (2 ^ 54 - 1) * 2 ^ 2044.
Proof. reflexivity. Qed.

(** Every non-negative binary64 number is at least as far from [N / Du]
    (in units of 2^-1074) as [m'' * 2^e'], where [m''] is [N / D']
    rounded. *)
Lemma rounded_is_nearest N Du e' m' m'' :
  0 < Du -> -1074 <= e' -> 0 <= m' -> (e' = -1074 \/ 2 ^ 52 <= m') ->
  m' * (Du * 2 ^ (e' + 1074)) <= N < (m' + 1) * (Du * 2 ^ (e' + 1074)) ->
  (m'' = m' /\ 2 * (N - m' * (Du * 2 ^ (e' + 1074))) <= Du * 2 ^ (e' + 1074)) \/
  (m'' = m' + 1 /\ Du * 2 ^ (e' + 1074) <= 2 * (N - m' * (Du * 2 ^ (e' + 1074)))) ->
  (2 * (N - m' * (Du * 2 ^ (e' + 1074))) = Du * 2 ^ (e' + 1074) -> Z.even m'' = true) ->
  forall y v,
    valid_binary y = true -> finite_units y = Some v ->
    Z.abs (m'' * 2 ^ (e' + 1074) * Du - N) <= Z.abs (v * Du - N) /\
    (v <> m'' * 2 ^ (e' + 1074) ->
     Z.abs (m'' * 2 ^ (e' + 1074) * Du - N) = Z.abs (v * Du - N) -> Z.even m'' = true).
Proof.
  intros HDu He' Hm' Hnorm Hb Hround Heven y v Hy Hv.
  set (c := 2 ^ (e' + 1074)) in *.
  assert (Hc : 0 < c) by (apply pow2_pos; lia).
  set (D := Du * c) in *.
  assert (HD : 0 < D) by (apply Z.mul_pos_pos; lia).
  replace (m'' * c * Du) with (m'' * D) by (subst D; lia).
  assert (Hmult : forall j, v * Du = j * D ->
            Z.abs (m'' * D - N) <= Z.abs (v * Du - N) /\
            (v <> m'' * c ->
             Z.abs (m'' * D - N) = Z.abs (v * Du - N) -> Z.even m'' = true)).
  { intros j Hj. rewrite Hj.
    destruct (Z.eq_dec j m'') as [-> | Hne].
    - split; [lia |]. intros Hv'. exfalso. apply Hv'.
      apply (Z.mul_cancel_r _ _ Du); [lia |]. rewrite Hj. subst D. lia.
    - assert (Hcase : j * D <= m'' * D - D \/ m'' * D + D <= j * D).
      { destruct (Z.lt_ge_cases j m'') as [Hlt | Hge].
        - left. replace (m'' * D - D) with ((m'' - 1) * D) by lia.
          apply Z.mul_le_mono_nonneg_r; lia.
        - right. replace (m'' * D + D) with ((m'' + 1) * D) by lia.
          apply Z.mul_le_mono_nonneg_r; lia. }
      destruct Hround as [[-> Hr] | [-> Hr]].
      + split; [lia |]. intros _ Heq. apply Heven. lia.
      + replace ((m' + 1) * D) with (m' * D + D) in * by lia.
        split; [lia |]. intros _ Heq. apply Heven. lia. }
  destruct y as [sy | sy | | [] my ey]; try discriminate.
  - injection Hv as <-. apply (Hmult 0). lia.
  - cbn [finite_units] in Hv. injection Hv as <-.
    apply valid_finite in Hy as [Hey Hmy].
    destruct (Z.le_gt_cases e' ey) as [Hle | Hgt].
    + apply (Hmult (Z.pos my * 2 ^ (ey - e'))).
      replace (ey + 1074) with ((ey - e') + (e' + 1074)) by lia.
      rewrite pow2_add by lia. fold c. subst D. lia.
    + assert (H52 : 2 ^ 52 <= m') by lia.
      assert (Hsmall : Z.pos my * 2 ^ (ey + 1074) < m' * c).
      { assert (Z.pos my * 2 ^ (ey + 1074) < 2 ^ 53 * 2 ^ (ey + 1074)).
        { apply Z.mul_lt_mono_pos_r; [apply pow2_pos; lia | lia]. }
        assert (2 ^ 53 * 2 ^ (ey + 1074) <= 2 ^ 52 * c).
        { subst c. rewrite <- !pow2_add by lia. apply pow2_le; lia. }
        assert (2 ^ 52 * c <= m' * c) by (apply Z.mul_le_mono_nonneg_r; lia).
        lia. }
      assert (Hsmall' : Z.pos my * 2 ^ (ey + 1074) * Du < m' * D).
      { subst D. replace (m' * (Du * c)) with (m' * c * Du) by lia.
        apply Z.mul_lt_mono_pos_r; lia. }
      destruct Hround as [[-> Hr] | [-> Hr]].
      * split; [lia |]. intros _ Heq. lia.
      * replace ((m' + 1) * D) with (m' * D + D) in * by lia.
        split; [lia |]. intros _ Heq. lia.
Qed.

(** What [binary_round_aux] returns for a located non-negative number. *)
Lemma binary_round_aux_nearest N Du mx ex lx :
  0 < Du -> -1074 <= ex -> (ex = -1074 \/ 2 ^ 52 <= mx) ->
  located N (Du * 2 ^ (ex + 1074)) mx lx ->
  valid_binary (binary_round_aux prec emax false mx ex lx) = true /\
  nearest_binary64 (binary_round_aux prec emax false mx ex lx) N Du.
Proof.
  intros HDu Hex Hnorm Hloc. unfold binary_round_aux.
  destruct (shr_fexp_first N Du mx ex lx HDu Hex Hnorm Hloc)
    as (mrs & e' & -> & Hin & Hee & Hlt & Hnorm').
  assert (He' : -1074 <= e') by lia.
  set (c := 2 ^ (e' + 1074)) in *.
  assert (Hc : 0 < c) by (apply pow2_pos; lia).
  assert (HD : 0 < Du * c) by (apply Z.mul_pos_pos; lia).
  pose proof (inb_located _ _ _ HD Hin) as Hloc'.
  pose proof (round_nearest_even_spec _ _ _ _ Hloc') as [Hround Heven].
  destruct Hloc' as (Hm' & Hb & _).
  set (m' := shr_m mrs) in *.
  set (m'' := round_nearest_even m' (loc_of_shr_record mrs)) in *.
  cbv zeta in Hround, Heven.
  pose proof (rounded_is_nearest N Du e' m' m'' HDu He' Hm' Hnorm' Hb Hround Heven) as Hnear.
  fold c in Hnear.
  assert (Hm'' : 0 <= m'' <= 2 ^ 53) by lia.
  destruct (shr_fexp_second m'' e' Hm'' He') as (mrs2 & e'' & -> & Hsecond).
  assert (Hover : overflow_units = (2 ^ 54 - 1) * 2 ^ 2044) by reflexivity.
  assert (HP : 0 < 2 ^ 2044) by (apply pow2_pos; lia).
  assert (Htwice : 2 * N <= 2 * (m'' * (Du * c)) + Du * c) by lia.
  destruct (shr_m mrs2) as [| m | m] eqn:Em.
  - (* zero *)
    split; [reflexivity |].
    assert (E0 : m'' = 0) by lia.
    exists 0. split; [reflexivity |]. split.
    + assert (e' = -1074) by lia. subst e'. change (2 ^ (-1074 + 1074)) with 1 in c.
      subst c. rewrite Hover. rewrite E0 in Htwice.
      assert (0 < 2 ^ 2044 * Du) by (apply Z.mul_pos_pos; lia).
      change (2 ^ 54) with 18014398509481984. lia.
    + intros y v Hy Hv. destruct (Hnear y v Hy Hv) as [H1 H2].
      rewrite E0 in H1, H2. cbn [Z.mul] in H1, H2. split; [exact H1 | reflexivity].
  - (* a positive mantissa *)
    assert (Hu : Z.pos m * 2 ^ (e'' + 1074) = m'' * c /\ (Z.even m'' = true -> Z.even (Z.pos m) = true)
                 /\ Z.pos m < 2 ^ 53 /\ e' <= e'').
    { destruct Hsecond as [(Hlt2 & E2 & ->) | (E53 & E2 & ->)].
      - rewrite <- E2. fold c. repeat split; auto; lia.
      - rewrite E53, E2. split; [| split; [| split]]; [| reflexivity | reflexivity | lia].
        replace (e' + 1 + 1074) with (1 + (e' + 1074)) by lia.
        rewrite pow2_add by lia. fold c. change (2 ^ 53) with (2 ^ 52 * 2 ^ 1). lia. }
    destruct Hu as (Hu & Hev & Hm53 & Hee').
    destruct (Z.leb_spec e'' (emax - prec)) as [Hfin | Hinf]; change (emax - prec) with 971 in *.
    + (* finite *)
      split.
      * cbn [valid_binary SpecFloat.valid_binary]. unfold bounded, canonical_mantissa.
        rewrite fexp_eq. apply andb_true_iff. split; [| apply Z.leb_le; exact Hfin].
        apply Z.eqb_eq. change (Z.pos (digits2_pos m)) with (Zdigits2 (Z.pos m)).
        destruct Hsecond as [(Hlt2 & E2 & ->) | (E53 & E2 & ->)].
        -- assert (Hd : Zdigits2 (Z.pos m) <= 53) by (apply Zdigits2_le; lia).
           destruct Hnorm' as [-> | H52]; [lia |].
           assert (53 <= Zdigits2 (Z.pos m)) by (apply Zdigits2_ge; lia).
           lia.
        -- rewrite E2. change (Zdigits2 (2 ^ 52)) with 53. lia.
      * exists (Z.pos m * 2 ^ (e'' + 1074)). split; [reflexivity |]. split.
        -- assert (Z.pos m * 2 ^ (e'' + 1074) <= (2 ^ 53 - 1) * 2 ^ 2045).
           { apply Z.mul_le_mono_nonneg; try lia. apply pow2_le; lia. }
           assert (c <= 2 ^ 2045) by (apply pow2_le; lia).
           change (2 ^ 2045) with (2 ^ 2044 * 2 ^ 1) in *.
           rewrite Hover. rewrite Hu in *.
           assert (m'' * (Du * c) = m'' * c * Du) by lia.
           assert (m'' * c * Du <= (2 ^ 53 - 1) * (2 ^ 2044 * 2 ^ 1) * Du)
             by (apply Z.mul_le_mono_nonneg_r; lia).
           assert (Du * c <= Du * (2 ^ 2044 * 2 ^ 1))
             by (apply Z.mul_le_mono_nonneg_l; lia).
           change (2 ^ 54) with (2 * 2 ^ 53). change (2 ^ 1) with 2 in *. lia.
        -- intros y v Hy Hv. rewrite Hu. destruct (Hnear y v Hy Hv) as [H1 H2].
           split; [exact H1 |]. intros Hne Heq. apply Hev. apply H2; assumption.
    + (* overflow *)
      split; [reflexivity |]. cbn [nearest_binary64]. rewrite Hover.
      destruct Hsecond as [(Hlt2 & E2 & ->) | (E53 & E2 & ->)].
      * destruct Hnorm' as [-> | H52]; [lia |].
        assert (2 ^ 2046 <= c) by (apply pow2_le; lia).
        assert (2 ^ 52 * (Du * 2 ^ 2046) <= m' * (Du * c)).
        { apply Z.mul_le_mono_nonneg; try lia.
          apply Z.mul_le_mono_nonneg_l; lia. }
        change (2 ^ 2046) with (2 ^ 2044 * 4) in *.
        assert (0 < 2 ^ 2044 * Du) by (apply Z.mul_pos_pos; lia).
        change (2 ^ 54) with 18014398509481984.
        change (2 ^ 52) with 4503599627370496 in *. lia.
      * assert (2 ^ 2045 <= c) by (apply pow2_le; lia).
        assert (Hmm : m'' = m' + 1) by lia.
        assert (Hr : Du * c <= 2 * (N - m' * (Du * c))) by lia.
        assert (m' = 2 ^ 53 - 1) by lia.
        assert ((2 ^ 54 - 1) * (Du * 2 ^ 2045) <= (2 ^ 54 - 1) * (Du * c)).
        { apply Z.mul_le_mono_nonneg_l; [lia |]. apply Z.mul_le_mono_nonneg_l; lia. }
        change (2 ^ 2045) with (2 ^ 2044 * 2) in *.
        change (2 ^ 54) with (2 * 2 ^ 53) in *. subst m'. 
        assert (2 * N >= (2 * (2 ^ 53 - 1) + 1) * (Du * c)) by lia.
        lia.
  - (* a negative mantissa cannot be *)
    exfalso. destruct Hsecond as [(_ & E2 & _) | (_ & E2 & _)]; lia.
Qed.

Lemma new_location_spec n r :
  0 < n -> 0 <= r < n ->
  match new_location n r with
  | loc_Exact => r = 0
  | loc_Inexact Lt => 0 < r /\ 2 * r < n
  | loc_Inexact Eq => 2 * r = n
  | loc_Inexact Gt => n < 2 * r
  end.
Proof.
  intros Hn Hr. unfold new_location, new_location_even, new_location_odd.
  destruct (Z.even n) eqn:En.
  - destruct (Z.eqb_spec r 0) as [-> | Hr0]; [lia |].
    destruct (Z.compare_spec (2 * r) n) as [E | E | E]; lia.
  - destruct (Z.eqb_spec r 0) as [-> | Hr0]; [lia |].
    assert (Hodd : n <> 2 * r) by (intros ->; rewrite Z.even_mul in En; discriminate).
    destruct (Z.compare_spec (2 * r + 1) n) as [E | E | E]; lia.
Qed.

(** The quotient that [SFdiv] hands over to the rounding. *)
Lemma SFdiv_core_located m1 m2 q e' l :
  SFdiv_core_binary prec emax (Z.pos m1) 0 (Z.pos m2) 0 = (q, e', l) ->
  -1074 <= e' /\ (e' = -1074 \/ 2 ^ 52 <= q) /\
  located (Z.pos m1 * 2 ^ 1074) (Z.pos m2 * 2 ^ (e' + 1074)) q l.
Proof.
  unfold SFdiv_core_binary. rewrite fexp_eq.
  pose proof (Zdigits2_bounds (Z.pos m1) ltac:(lia)) as [Hlo1 Hhi1].
  pose proof (Zdigits2_bounds (Z.pos m2) ltac:(lia)) as [Hlo2 Hhi2].
  pose proof (Zdigits2_pos (Z.pos m1) ltac:(lia)) as Hd1.
  pose proof (Zdigits2_pos (Z.pos m2) ltac:(lia)) as Hd2.
  set (d1 := Zdigits2 (Z.pos m1)) in *. set (d2 := Zdigits2 (Z.pos m2)) in *.
  set (e := Z.min (Z.max (d1 + 0 - (d2 + 0) - 53) (-1074)) (0 - 0)).
  assert (He : -1074 <= e <= 0) by lia.
  assert (Hm : match 0 - 0 - e with
               | 0 => Z.pos m1
               | Z.pos _ => Z.shiftl (Z.pos m1) (0 - 0 - e)
               | Z.neg _ => 0
               end = Z.pos m1 * 2 ^ (- e)).
  { destruct (0 - 0 - e) as [| p | p] eqn:Es; try lia.
    - replace (- e) with 0 by lia. lia.
    - rewrite Z.shiftl_mul_pow2 by lia. f_equal. f_equal. lia. }
  rewrite Hm. clear Hm.
  pose proof (Z_div_mod (Z.pos m1 * 2 ^ (- e)) (Z.pos m2) ltac:(lia)) as Hdiv.
  destruct (Z.div_eucl (Z.pos m1 * 2 ^ (- e)) (Z.pos m2)) as [q0 r]. destruct Hdiv as [Hq Hr].
  intros [= <- <- <-].
  set (c := 2 ^ (e + 1074)).
  assert (Hc : 0 < c) by (apply pow2_pos; lia).
  assert (Hs : 0 < 2 ^ (- e)) by (apply pow2_pos; lia).
  assert (HN : Z.pos m1 * 2 ^ 1074 = (Z.pos m2 * q0 + r) * c).
  { rewrite <- Hq. subst c. replace 1074 with (- e + (e + 1074)) at 1 by lia.
    rewrite pow2_add by lia. lia. }
  assert (Hq0 : 0 <= q0).
  { destruct (Z.lt_ge_cases q0 0) as [Hneg | Hok]; [exfalso | exact Hok].
    assert (Z.pos m2 * q0 <= Z.pos m2 * (-1)) by (apply Z.mul_le_mono_nonneg_l; lia).
    assert (0 < Z.pos m1 * 2 ^ (- e)) by (apply Z.mul_pos_pos; lia).
    lia. }
  split; [lia |]. split.
  - destruct (Z.eq_dec e (-1074)) as [E | E]; [left; exact E | right].
    assert (Hbig : 2 ^ 52 * Z.pos m2 <= Z.pos m1 * 2 ^ (- e)).
    { assert (2 ^ 52 * 2 ^ d2 <= Z.pos m1 * 2 ^ (- e)).
      { destruct (Z.le_gt_cases 0 (d1 - d2 - 53)) as [Hge | Hlt].
        - replace (- e) with 0 by lia. rewrite <- pow2_add by lia.
          pose proof (pow2_le (52 + d2) (d1 - 1)). lia.
        - replace (- e) with (53 + d2 - d1) by lia.
          assert (2 ^ (d1 - 1) * 2 ^ (53 + d2 - d1) <= Z.pos m1 * 2 ^ (53 + d2 - d1)).
          { apply Z.mul_le_mono_nonneg_r; [| exact Hlo1].
            pose proof (pow2_pos (53 + d2 - d1)). lia. }
          rewrite <- !pow2_add in * by lia.
          replace (d1 - 1 + (53 + d2 - d1)) with (52 + d2) in * by lia. lia. }
      assert (2 ^ 52 * Z.pos m2 <= 2 ^ 52 * 2 ^ d2) by (apply Z.mul_le_mono_nonneg_l; lia).
      lia. }
    rewrite Hq in Hbig.
    destruct (Z.lt_ge_cases q0 (2 ^ 52)) as [Hsmall | Hok]; [exfalso | exact Hok].
    assert (Z.pos m2 * q0 <= Z.pos m2 * (2 ^ 52 - 1)) by (apply Z.mul_le_mono_nonneg_l; lia).
    lia.
  - unfold located. rewrite HN. fold c.
    pose proof (new_location_spec (Z.pos m2) r ltac:(lia) Hr) as Hl.
    assert (Hrc : 0 <= r * c < Z.pos m2 * c).
    { split; [apply Z.mul_nonneg_nonneg; lia | apply Z.mul_lt_mono_pos_r; lia]. }
    split; [exact Hq0 |]. split; [lia |].
    replace ((Z.pos m2 * q0 + r) * c - q0 * (Z.pos m2 * c)) with (r * c) by lia.
    revert Hl. destruct (new_location (Z.pos m2) r) as [| []]; intros Hl.
    + subst r. lia.
    + rewrite <- Hl. lia.
    + destruct Hl as [Hl1 Hl2].
      assert (0 < r * c) by (apply Z.mul_pos_pos; lia).
      assert (2 * r * c < Z.pos m2 * c) by (apply Z.mul_lt_mono_pos_r; lia). lia.
    + assert (Z.pos m2 * c < 2 * r * c) by (apply Z.mul_lt_mono_pos_r; lia). lia.
Qed.

Lemma SFdiv_nearest m1 m2 :
  valid_binary (SFdiv prec emax (S754_finite false m1 0) (S754_finite false m2 0)) = true /\
  nearest_binary64 (SFdiv prec emax (S754_finite false m1 0) (S754_finite false m2 0))
    (Z.pos m1 * 2 ^ 1074) (Z.pos m2).
Proof.
  unfold SFdiv. cbn [xorb].
  destruct (SFdiv_core_binary prec emax (Z.pos m1) 0 (Z.pos m2) 0) as [[q e'] l] eqn:E.
  apply SFdiv_core_located in E as (He & Hnorm & Hloc).
  apply binary_round_aux_nearest; auto. lia.
Qed.

Lemma nearest_float_spec n k : 0 <= n -> is_float_of (nearest_float n k) n k.
Proof.
  intros Hn. unfold is_float_of, nearest_float.
  assert (H10 : 0 < 10 ^ Z.of_nat k) by (apply Z.pow_pos_nonneg; lia).
  destruct n as [| m | m]; [| | lia].
  - replace (Prim2SF 0) with (S754_zero false) by (vm_compute; reflexivity).
    exists 0. split; [reflexivity |]. split.
    + assert (0 < overflow_units) by reflexivity. nia.
    + intros y v _ _. split; [lia | reflexivity].
  - destruct (SFdiv_nearest m (Z.to_pos (10 ^ Z.of_nat k))) as [Hv Hnear].
    rewrite Prim2SF_SF2Prim by exact Hv.
    rewrite Z2Pos.id in Hnear by exact H10. exact Hnear.
Qed.

Lemma digit_code c : is_digit c = true -> Z.of_N (code c - 48) = Z.of_N (code c) - 48.
Proof.
  unfold is_digit, in_range. intros H. apply andb_true_iff in H as [H _].
  apply N.leb_le in H. lia.
Qed.

Lemma digits_value_decimal ds : forall acc n,
  digits_value acc ds = Some n ->
  n = fold_left (fun acc c => acc * 10 + (Z.of_N (code c) - 48)) ds acc /\
  (0 <= acc -> 0 <= n).
Proof.
  induction ds as [| c ds IH]; intros acc n H; cbn [digits_value fold_left] in *.
  - injection H as <-. auto.
  - destruct (is_digit c) eqn:Hc; [| discriminate].
    rewrite (digit_code c Hc) in H. apply IH in H as [-> Hpos]. split; [reflexivity |].
    intros Hacc. apply Hpos. unfold is_digit, in_range in Hc.
    apply andb_true_iff in Hc as [Hc _]. apply N.leb_le in Hc. lia.
Qed.

Close Scope Z_scope.

(** What [float] returns on a numeral is the float of that numeral. *)
Lemma py_float_reads g x : numeral_text g -> py_float g = inl x -> reads_as x g.
Proof.
  intros [ip Hne Hip | ip fp Hne Hip Hfp] Hx.
  - destruct (digits_value_some ip 0%Z Hip) as (n & Hn).
    rewrite (py_float_int ip n Hne Hip Hn) in Hx. injection Hx as <-.
    exists ip, None. cbn [numeral_str fraction]. rewrite app_nil_r.
    repeat split; auto.
    apply digits_value_decimal in Hn as [-> Hpos]. apply nearest_float_spec.
    apply Hpos. reflexivity.
  - assert (Hall : forallb is_digit (ip ++ fp) = true).
    { rewrite forallb_app. apply andb_true_iff. split; assumption. }
    destruct (digits_value_some _ 0%Z Hall) as (n & Hn).
    rewrite (py_float_frac ip fp n Hne Hip Hn) in Hx. injection Hx as <-.
    exists ip, (Some fp). cbn [numeral_str fraction].
    repeat split; auto.
    apply digits_value_decimal in Hn as [-> Hpos]. apply nearest_float_spec.
    apply Hpos. reflexivity.
Qed.

(** C6: the price patterns are tried in the order under, less than,
    cheaper than, or less, bare amount, and the first one that matches
    somewhere in the query gives [max_price], the float of the numeral
    in its group; no match leaves it absent.  When the leftmost text of
    the query made of "under", blanks, a dollar sign and a digit carries
    the numeral X, [max_price] is the binary64 number nearest to X. *)
Theorem under_price_exact q w :
  sane_clock w ->
  exists info w',
    parse_query q w = (inl info, w') /\
    (forall earlier p later m,
        [price_under; price_less_than; price_cheaper_than; price_or_less; price_bare]
        = earlier ++ p :: later ->
        (forall p', In p' earlier -> re_search p' q = None) ->
        re_search p q = Some m ->
        exists g x, group m 1 = Some g /\ py_float g = inl x /\ reads_as x g /\
                    max_price info = Some x) /\
    ((forall p, In p price_patterns -> re_search p q = None) -> max_price info = None) /\
    (forall pre ws ip fp post,
        q = pre ++ "under" ++ ws ++ "$" ++ numeral_str ip fp ++ post ->
        first_under_phrase pre ("under" ++ ws ++ "$" ++ numeral_str ip fp ++ post) = true ->
        forallb is_space ws = true ->
        ip <> [] -> forallb is_digit ip = true -> forallb is_digit (fraction fp) = true ->
        numeral_ends fp post = true ->
        exists x,
          max_price info = Some x /\
          is_float_of x (decimal_digits (ip ++ fraction fp)) (length (fraction fp))).
Proof.
  intros Hw.
  destruct (parse_query_returns q w Hw) as (info & w' & Hq & _ & Hprice & _).
  exists info, w'. split; [exact Hq |]. unfold extract_max_price in Hprice.
  split; [| split].
  - intros earlier p later m Hps Hnone Hm.
    rewrite (first_match_priority price_patterns q earlier p later m Hps Hnone Hm) in Hprice.
    assert (Hp : In p price_patterns).
    { unfold price_patterns. rewrite Hps. apply in_or_app. right. left. reflexivity. }
    destruct (price_patterns_capture p Hp) as [Hb Hbodies].
    destruct (search_group 0 p q m Hm Hb) as (g & r & Hg & Hr & Hsp).
    rewrite Hbodies in Hr. destruct Hr as [<- | []].
    rewrite Hg in Hprice.
    destruct (py_float g) as [x | e] eqn:Ef; [| discriminate].
    injection Hprice as <-. exists g, x. repeat split; auto.
    apply py_float_reads; [apply spells_numeral; exact Hsp | exact Ef].
  - intros Hnone. rewrite (first_match_none _ _ Hnone) in Hprice. congruence.
  - intros pre ws ip fp post -> Hfirst Hws Hne Hip Hfp Hend.
    destruct (price_under_match pre ws ip fp post Hws Hne Hip Hfp Hend) as (m & Hm & Hg).
    assert (Hs : re_search price_under
                   (pre ++ "under" ++ ws ++ "$" ++ numeral_str ip fp ++ post) = Some m).
    { apply search_from_first; [| rewrite app_nil_r; exact Hm].
      intros a1 a2 Ha Hne2. rewrite app_nil_r.
      destruct (match_at price_under (rev a1)
                  (a2 ++ "under" ++ ws ++ "$" ++ numeral_str ip fp ++ post)) eqn:E;
        [| reflexivity].
      apply price_under_phrase in E.
      rewrite (first_under_phrase_spec _ _ Hfirst a1 a2 Ha Hne2) in E. discriminate. }
    unfold price_patterns in Hprice. cbn [first_match] in Hprice.
    rewrite Hs, Hg in Hprice.
    assert (Hall : forallb is_digit (ip ++ fraction fp) = true).
    { rewrite forallb_app, Hip, Hfp. reflexivity. }
    destruct (digits_value_some _ 0%Z Hall) as (n & Hn).
    assert (Hfloat : py_float (numeral_str ip fp)
                     = inl (nearest_float n (length (fraction fp)))).
    { destruct fp as [f |]; cbn [numeral_str fraction] in *.
      - apply py_float_frac; assumption.
      - rewrite app_nil_r in Hn. apply py_float_int; assumption. }
    rewrite Hfloat in Hprice. injection Hprice as <-.
    exists (nearest_float n (length (fraction fp))). split; [reflexivity |].
    apply digits_value_decimal in Hn as [-> Hpos]. apply nearest_float_spec.
    apply Hpos. reflexivity.
Qed.

Lemma under_price_exact_witness :
  exists info w',
    parse_query "Find a floral skirt under $19.99 in size S." sample_world = (inl info, w') /\
    max_price info = Some 19.99%float /\
    is_float_of 19.99%float 1999 2.
Proof.
  destruct (under_price_exact "Find a floral skirt under $19.99 in size S." sample_world)
    as (info & w' & Hq & _ & _ & Hunder).
  - intros n. simpl. unfold max_ordinal. lia.
  - exists info, w'. split; [exact Hq |].
    destruct (Hunder "Find a floral skirt " " " "19" (Some "99") " in size S.")
      as (x & Hmax & Hx); try reflexivity.
    + discriminate.
    + change (decimal_digits ("19" ++ fraction (Some "99"))) with 1999%Z in Hx.
      change (length (fraction (Some "99"))) with 2%nat in Hx.
      vm_compute in Hq. injection Hq as <- _.
      cbn [max_price] in Hmax. injection Hmax as <-. split; [reflexivity | exact Hx].
Defined.

(** The frozen form of C6 fails: a query that holds "under $30" gets the
    ceiling 50 when "under $50" stands before it, because [re.search]
    takes the leftmost match of the pattern. *)
Lemma later_under_phrase_ignored :
  "a top under $50 or under $30"
  = "a top under $50 or " ++ "under" ++ " " ++ "$" ++ numeral_str "30" None ++ "" /\
  numeral_ends None "" = true /\
  fst (parse_query "a top under $50 or under $30" sample_world)
  = inl {| max_price := Some 50%float; size := None; color := None; store := None;
           delivery_target := None; discount_code := None;
           product_name := Some "top"; query_type := "search" |} /\
  (50 =? 30)%float = false.
Proof. repeat split. Qed.

Example price_fraction :
  extract_max_price "a skirt under $19.99" = inl (Some 19.99%float) /\
  extract_max_price "a skirt under $0.1" = inl (Some 0.1%float) /\
  extract_max_price "at most $35.5 or less" = inl (Some 35.5%float).
Proof. repeat split. Qed.

Example price_priority :
  extract_max_price "a jacket for $90, or $75 or less, or less than $60" = inl (Some 60%float).
Proof. reflexivity. Qed.

(** ** Quoted product names *)

Lemma spells_matches re u :
  spells re u -> context_free re = true ->
  forall l r g, exists g', matches re (Cursor l (u ++ r) g) (Cursor (rev u ++ l) r g').
Proof.
  induction 1 as [| p c Hp | r1 r2 u v _ IH1 _ IH2 | r1 r2 u _ IH | r1 r2 u _ IH
                 | greedy p u Hu | n r0 u _ IH | |]; cbn [context_free]; intros Hcf l r g;
    try discriminate.
  - exists g. apply matches_eps.
  - exists g. apply matches_cls. exact Hp.
  - apply andb_true_iff in Hcf as [H1 H2].
    destruct (IH1 H1 l (v ++ r) g) as (g1 & Hm1).
    destruct (IH2 H2 (rev u ++ l) r g1) as (g2 & Hm2).
    exists g2. rewrite <- app_assoc, rev_app_distr, <- app_assoc.
    eapply matches_seq; eassumption.
  - apply andb_true_iff in Hcf as [H1 _]. destruct (IH H1 l r g) as (g' & Hm). eauto.
  - apply andb_true_iff in Hcf as [_ H2]. destruct (IH H2 l r g) as (g' & Hm). eauto.
  - exists g. apply matches_star. exact Hu.
  - destruct (IH Hcf l r g) as (g' & Hm). eexists.
    apply (matches_grp n r0 _ _ Hm).
Qed.

Lemma find_leftmost sub : forall a b,
  starts_with sub b = true ->
  (forall a1 a2, a = a1 ++ a2 -> a2 <> [] -> starts_with sub (a2 ++ b) = false) ->
  find sub (a ++ b) = Some (length a).
Proof.
  induction a as [| c a IH]; intros b Hb Hfirst.
  - destruct b; simpl in *; rewrite Hb; reflexivity.
  - cbn [app find length].
    pose proof (Hfirst [] (c :: a) eq_refl ltac:(discriminate)) as H0.
    cbn [app] in H0. rewrite H0.
    rewrite IH; [reflexivity | exact Hb |].
    intros a1 a2 Ha Hne. apply (Hfirst (c :: a1) a2); [simpl; congruence | exact Hne].
Qed.

(** The first quoted span is where [find] looks for its text. *)
Lemma quote_span_find q m :
  re_search quote_pattern q = Some m ->
  find (m_text m) q = Some (m_start m) /\
  exists a c t, q = a ++ c :: t /\ m_start m = length a /\ is_quote c = true.
Proof.
  intros H. apply search_from_some in H as (a & b & -> & Hm & Hfirst).
  rewrite app_nil_r in Hm.
  apply match_at_some in Hm as (st' & Hmatch & ->). cbn [m_text m_start].
  pose proof (span_matches _ _ _ Hmatch) as Hb. cbn [after] in Hb.
  pose proof (matches_spells _ _ _ Hmatch) as Hsp.
  remember (span (Cursor (rev a) b []) st') as u eqn:Hu. clear Hu.
  rewrite length_rev. split.
  - apply find_leftmost.
    + rewrite Hb. apply starts_with_app.
    + intros a1 a2 Ha Hne.
      destruct (starts_with u (a2 ++ b)) eqn:Es; [| reflexivity]. exfalso.
      apply starts_with_split in Es.
      destruct (spells_matches _ _ Hsp eq_refl (rev a1) (skipn (length u) (a2 ++ b)) [])
        as (g' & Hm').
      rewrite <- Es in Hm'.
      specialize (Hfirst a1 a2 Ha Hne). rewrite app_nil_r in Hfirst.
      exact (match_at_none _ _ _ Hfirst _ Hm').
  - unfold quote_pattern in Hsp. cbn [seqs] in Hsp.
    inversion Hsp as [| | r1 r2 u1 u2 H1 H2 | | | | | |]; subst.
    inversion H1 as [| p c Hc | | | | | | |]; subst.
    exists a, c, (u2 ++ after st'). repeat split; auto.
Qed.

Lemma quote_after_prefix pre : forall a c t rest,
  a ++ c :: t = pre ++ rest ->
  forallb (fun x => negb (is_quote x)) pre = true -> is_quote c = true ->
  exists x, a = pre ++ x.
Proof.
  induction pre as [| y pre IH]; intros a c t rest Heq Hpre Hc; [eauto |].
  cbn [forallb] in Hpre. apply andb_true_iff in Hpre as [Hy Hpre].
  destruct a as [| y' a]; simpl in Heq.
  - injection Heq as -> _. rewrite Hc in Hy. discriminate.
  - injection Heq as -> Heq. destruct (IH a c t rest Heq Hpre Hc) as (x & ->). eauto.
Qed.

Lemma contains_prefix w s t : contains w s = true -> contains w (s ++ t) = true.
Proof.
  intros H. apply contains_split in H as (pre & post & ->).
  rewrite <- !app_assoc. apply contains_app.
Qed.

(** C8: when the text in front of the first quoted span (the leftmost
    match of the quote pattern) contains "code" in any letter case, the
    quote tier does not return, and the product name is what the
    phrase-template and known-noun tiers give.  This is so in particular
    when "code" stands in a quote-free text that precedes the span. *)
Theorem quoted_code_skipped :
  (forall q m,
      re_search quote_pattern q = Some m ->
      contains "code" (lower (firstn (m_start m) q)) = true ->
      quote_tier q = None /\ _extract_product_name q = fallback_tiers q) /\
  (forall pre rest,
      forallb (fun c => negb (is_quote c)) pre = true ->
      contains "code" (lower pre) = true ->
      quote_tier (pre ++ rest) = None /\
      _extract_product_name (pre ++ rest) = fallback_tiers (pre ++ rest)).
Proof.
  assert (Hmain : forall q m,
             re_search quote_pattern q = Some m ->
             contains "code" (lower (firstn (m_start m) q)) = true ->
             quote_tier q = None /\ _extract_product_name q = fallback_tiers q).
  { intros q m Hm Hcode.
    assert (Hq : quote_tier q = None).
    { unfold quote_tier. rewrite Hm.
      destruct (quote_span_find q m Hm) as [-> _]. cbn [slice_to].
      rewrite Hcode. reflexivity. }
    split; [exact Hq |]. unfold _extract_product_name. rewrite Hq. reflexivity. }
  split; [exact Hmain |].
  intros pre rest Hpre Hcode.
  destruct (re_search quote_pattern (pre ++ rest)) as [m |] eqn:Hm.
  - apply (Hmain _ m Hm).
    destruct (quote_span_find _ m Hm) as [_ (a & c & t & Heq & -> & Hc)].
    symmetry in Heq.
    destruct (quote_after_prefix pre a c t rest Heq Hpre Hc) as (x & ->).
    rewrite <- Heq, firstn_app, firstn_all, Nat.sub_diag. cbn [firstn].
    rewrite app_nil_r. unfold lower. rewrite map_app. apply contains_prefix. exact Hcode.
  - assert (Hq : quote_tier (pre ++ rest) = None) by (unfold quote_tier; rewrite Hm; reflexivity).
    split; [exact Hq |]. unfold _extract_product_name. rewrite Hq. reflexivity.
Qed.

Lemma quoted_code_skipped_witness :
  quote_tier "Can I apply the discount Code 'SAVE10' to a skirt?" = None /\
  _extract_product_name "Can I apply the discount Code 'SAVE10' to a skirt?" = inl (Some "a skirt").
Proof.
  destruct (proj2 quoted_code_skipped "Can I apply the discount Code " "'SAVE10' to a skirt?")
    as [Hq Hn]; [reflexivity | reflexivity |].
  cbn [app] in Hq, Hn. split; [exact Hq |]. rewrite Hn. reflexivity.
Defined.

(** ** Catalogue search *)

Lemma filter_none {X} (f : X -> bool) l :
  (forall x, In x l -> f x = false) -> List.filter f l = [].
Proof.
  induction l as [| x l IH]; intros H; simpl; [reflexivity |].
  rewrite (H x) by (left; reflexivity). apply IH. intros y Hy. apply H. right. exact Hy.
Qed.

Lemma keywords_of_stopwords query :
  (forall word, In word (split query) -> In (lower word) stopwords) ->
  keywords_of query = [].
Proof.
  intros H. unfold keywords_of. rewrite filter_none; [reflexivity |].
  intros word Hw. apply negb_false_iff. apply mem_In. apply H. exact Hw.
Qed.

Lemma search_products_no_keywords query max_price color size :
  keywords_of query = [] -> search_products query max_price color size = [].
Proof.
  intros H. unfold search_products. rewrite H. apply filter_none.
  intros p _. reflexivity.
Qed.

(** C10: a query made of stop words only, the empty query included, finds
    no product; so the search branch answers that nothing was found
    whenever no product name was extracted, whatever the price ceiling,
    the colour and the size. *)
Theorem stopword_query_finds_nothing :
  (forall query max_price color size,
      (forall word, In word (split query) -> In (lower word) stopwords) ->
      search_products query max_price color size = []) /\
  (forall max_price color size, search_products "" max_price color size = []) /\
  (forall info w,
      product_name info = None ->
      _handle_search_query info w
      = (inl "I couldn't find any products matching your criteria.", w)).
Proof.
  split; [| split].
  - intros query mp c sz H. apply search_products_no_keywords.
    apply keywords_of_stopwords. exact H.
  - intros mp c sz. apply search_products_no_keywords. reflexivity.
  - intros info w H. unfold _handle_search_query. rewrite H. cbn [truthy_str].
    rewrite search_products_no_keywords by reflexivity. reflexivity.
Qed.

Lemma stopword_query_finds_nothing_witness :
  search_products "for the  A and TO" (Some 100%float) (Some "blue") None = [] /\
  _handle_search_query
    {| max_price := Some 100%float; size := Some (utext "M"); color := Some "blue"; store := None;
       delivery_target := None; discount_code := None; product_name := None;
       query_type := "search" |} sample_world
  = (inl "I couldn't find any products matching your criteria.", sample_world).
Proof.
  split.
  - apply (proj1 stopword_query_finds_nothing).
    intros word Hw. vm_compute in Hw.
    repeat (destruct Hw as [<- | Hw]; [vm_compute; tauto |]). destruct Hw.
  - apply (proj2 (proj2 stopword_query_finds_nothing)). reflexivity.
Defined.

(** What [search_products] does guarantee: the result is a part of the
    catalogue in catalogue order, and a ceiling other than zero bounds the
    prices of the result. *)
Lemma search_products_catalogue_order query max_price color size :
  search_products query max_price color size
  = List.filter (product_selected (keywords_of query) max_price color size) products.
Proof. reflexivity. Qed.

Lemma search_products_nonzero_ceiling query mx color size p :
  (mx =? 0)%float = false ->
  In p (search_products query (Some mx) color size) ->
  (mx <? p_price p)%float = false.
Proof.
  intros Hmx Hin. unfold search_products in Hin. apply filter_In in Hin as [_ Hsel].
  unfold product_selected in Hsel. cbn [truthy_float] in Hsel. rewrite Hmx in Hsel.
  destruct (List.filter _ (keywords_of query)); [discriminate |].
  apply andb_true_iff in Hsel as [Hsel _]. apply andb_true_iff in Hsel as [Hsel _].
  apply negb_true_iff. exact Hsel.
Qed.

(** C4 fails on the code for the ceiling 0: the test [if max_price:] takes
    a zero ceiling for an absent one, and the search returns a product
    whose price exceeds the ceiling.  The query "skirt under $0" reaches
    this through [handle_query]. *)
Theorem zero_ceiling_not_applied :
  map p_name (search_products "skirt" (Some 0%float) None None) = ["Floral Summer Skirt"] /\
  map p_price (search_products "skirt" (Some 0%float) None None) = [35.99%float] /\
  (35.99 <=? 0)%float = false /\
  fst (handle_query "skirt under $0" sample_world)
  = inl "I found a Floral Summer Skirt in size S for $35.99 at StoreA. It's in stock (10 available).".
Proof. repeat split; vm_compute; reflexivity. Qed.

(** ** Dispatch *)

Lemma comparison_lines_no_ceiling item rest response :
  comparison_lines None (item :: rest) response = inr TypeError.
Proof. destruct item. reflexivity. Qed.

Lemma insert_by_price_cons x l : exists y l', insert_by_price x l = y :: l'.
Proof. destruct l as [| y l]; simpl; [eauto |]. destruct (_ <? _)%float; eauto. Qed.

Lemma sorted_by_price_cons x l : exists y l', sorted_by_price (x :: l) = y :: l'.
Proof.
  unfold sorted_by_price. cbn [fold_left].
  assert (H : forall l acc, acc <> [] ->
              exists y l', fold_left (fun acc x => insert_by_price x acc) l acc = y :: l').
  { clear. induction l as [| x l IH]; intros acc Hacc; cbn [fold_left].
    - destruct acc; [congruence | eauto].
    - apply IH. destruct (insert_by_price_cons x acc) as (y & l' & ->). discriminate. }
  apply H. discriminate.
Qed.

(** The comparison branch raises whenever it has prices to show and no
    ceiling to compare them with. *)
Lemma comparison_without_ceiling info name :
  truthy_str (product_name info) = Some name ->
  compare_prices name <> [] ->
  max_price info = None ->
  _handle_comparison_query info = inr TypeError.
Proof.
  intros Hname Hcmp Hmax. unfold _handle_comparison_query. rewrite Hname, Hmax.
  destruct (compare_prices name) as [| x l]; [congruence |].
  destruct (sorted_by_price_cons x l) as (y & l' & ->).
  apply comparison_lines_no_ceiling.
Qed.

Lemma comparison_lines_ceiling mx items : forall response,
  exists s, comparison_lines (Some mx) items response = inl s.
Proof.
  induction items as [| [store price] items IH]; intros response; cbn [comparison_lines];
    [eauto |].
  destruct (price <=? mx)%float; apply IH.
Qed.

Lemma _handle_comparison_query_result info :
  (exists s, _handle_comparison_query info = inl s) \/
  (_handle_comparison_query info = inr TypeError /\ max_price info = None).
Proof.
  unfold _handle_comparison_query.
  destruct (truthy_str (product_name info)) as [name |]; [| eauto].
  destruct (compare_prices name) as [| x l]; [eauto |].
  destruct (max_price info) as [mx |].
  - left. apply comparison_lines_ceiling.
  - right. destruct (sorted_by_price_cons x l) as (y & l' & ->).
    split; [apply comparison_lines_no_ceiling | reflexivity].
Qed.

Lemma get_shipping_estimate_returns product target w :
  sane_clock w ->
  exists shipping w',
    get_shipping_estimate product target w = (inl shipping, w') /\
    clock w' = clock w /\ (5 <= estimated_days shipping <= 7)%Z.
Proof.
  intros Hw. unfold get_shipping_estimate, bind, randint, now, lift, ret. cbn [clock].
  pose proof (Z.mod_pos_bound (dice w (dice_rolls w)) (7 - 5 + 1) ltac:(lia)) as Hd.
  rewrite add_days_in_range; [| apply Hw | apply Hw | lia].
  eexists _, _. split; [reflexivity |]. cbn [clock estimated_days]. split; [reflexivity | lia].
Qed.

Lemma _format_product_response_returns product info w :
  sane_clock w -> exists s w', _format_product_response product info w = (inl s, w').
Proof.
  intros Hw. unfold _format_product_response.
  destruct (delivery_target info) as [target |].
  - unfold bind at 1 2.
    destruct (get_shipping_estimate_returns product (Some target) w Hw)
      as (shipping & w1 & -> & Hc & Hdays).
    unfold bind at 1, now. unfold bind at 1, lift.
    assert (Hw1 : sane_clock w1) by (intros n; rewrite Hc; apply Hw).
    rewrite add_days_in_range; [| apply Hw1 | apply Hw1 | lia].
    destruct (available shipping); unfold ret; eauto.
  - unfold bind, ret. eauto.
Qed.

Lemma _handle_search_query_returns info w :
  sane_clock w -> exists s w', _handle_search_query info w = (inl s, w').
Proof.
  intros Hw. unfold _handle_search_query.
  destruct (search_products _ _ _ _); [unfold ret; eauto |].
  apply _format_product_response_returns. exact Hw.
Qed.

(** [handle_query] answers with a string, except in the comparison branch
    without a price ceiling, where it raises [TypeError]. *)
Lemma handle_query_result q w :
  sane_clock w ->
  (exists s w', handle_query q w = (inl s, w')) \/
  (exists info w',
      parse_query q w = (inl info, w') /\ handle_query q w = (inr TypeError, w') /\
      query_type info = "comparison" /\ max_price info = None).
Proof.
  intros Hw. unfold handle_query, bind.
  destruct (parse_query_returns q w Hw)
    as (info & w' & Hq & _ & _ & _ & _ & _ & _ & _ & _ & Hc).
  rewrite Hq.
  assert (Hw' : sane_clock w') by (intros n; rewrite Hc; apply Hw).
  destruct (str_eqb (query_type info) "return" && _); [left; unfold ret; eauto |].
  destruct (str_eqb (query_type info) "comparison") eqn:Et; cbn [andb].
  - destruct (bool_decide _).
    + unfold lift.
      destruct (_handle_comparison_query_result info) as [(s & ->) | [-> Hmax]]; [eauto |].
      right. exists info, w'. repeat split; auto.
      apply bool_decide_eq_true in Et. exact Et.
    + left. apply _handle_search_query_returns. exact Hw'.
  - left. apply _handle_search_query_returns. exact Hw'.
Qed.

(** C2 fails on the code: a comparison query that names a catalogue
    product and no price makes [handle_query] raise [TypeError], whatever
    the clock and the random source. *)
Theorem comparison_without_price_raises w :
  handle_query "Any better deals on a 'casual denim jacket'?" w = (inr TypeError, w).
Proof. reflexivity. Qed.

(** ** Explicit dates *)

Lemma range_Z_In lo n x : (lo <= x < lo + Z.of_nat n)%Z -> In x (range_Z lo n).
Proof.
  intros H. unfold range_Z. apply in_map_iff. exists (Z.to_nat (x - lo)). split; [lia |].
  apply in_seq. lia.
Qed.

Lemma datetime_ymd_1900 m d dt :
  datetime_ymd 1900 m d = inl dt -> ord2ymd (ordinal dt) = (1900, m, d)%Z.
Proof.
  assert (Hall : forallb (fun m => forallb (fun d =>
                   match datetime_ymd 1900 m d with
                   | inl dt =>
                       let '(y', m', d') := ord2ymd (ordinal dt) in
                       (y' =? 1900)%Z && (m' =? m)%Z && (d' =? d)%Z
                   | inr _ => true
                   end) (range_Z 1 31)) (range_Z 1 12) = true) by (vm_compute; reflexivity).
  intros H.
  assert (Hr : (1 <= m <= 12 /\ 1 <= d <= 31)%Z).
  { unfold datetime_ymd in H.
    destruct (_ && _) eqn:E; [| discriminate].
    repeat (apply andb_true_iff in E as [E ?]).
    assert (days_in_month 1900 m <= 31)%Z.
    { unfold days_in_month. repeat (destruct (_ =? _)%Z; simpl); destruct (is_leap 1900); lia. }
    lia. }
  rewrite forallb_forall in Hall.
  specialize (Hall m (range_Z_In 1 12 m ltac:(lia))).
  rewrite forallb_forall in Hall.
  specialize (Hall d (range_Z_In 1 31 d ltac:(lia))).
  rewrite H in Hall. destruct (ord2ymd (ordinal dt)) as [[y' m'] d'].
  repeat (apply andb_true_iff in Hall as [Hall ?]).
  f_equal; [f_equal |]; lia.
Qed.

(** Whatever [strptime] accepts is a day of the year 1900. *)
Lemma strptime_year text dt : strptime_B_d text = inl dt -> year_of dt = 1900%Z.
Proof.
  unfold strptime_B_d, year_of.
  repeat match goal with
         | |- context [match ?x with _ => _ end] => destruct x eqn:?
         | |- context [if ?x then _ else _] => destruct x eqn:?
         end; try discriminate.
  intros H. rewrite (datetime_ymd_1900 _ _ _ H). reflexivity.
Qed.

(** C3 fails on the code: an explicit month and day give a date in the
    year 1900, not in the current year.  The clock is read once and its
    reading is not used.  ("Sorry, we cannot guarantee delivery" is then
    the answer for every such deadline.) *)
Theorem explicit_date_in_1900 w :
  _parse_delivery_date "Can it arrive by March 5?" w
  = (inl (Some {| ordinal := ymd2ord 1900 3 5; micros := 0 |}), tick w) /\
  datetime_ymd 1900 3 5 = inl {| ordinal := ymd2ord 1900 3 5; micros := 0 |} /\
  ord2ymd (ymd2ord 1900 3 5) = (1900, 3, 5)%Z.
Proof. split; [reflexivity |]. split; reflexivity. Qed.

(** An explicit date that does not parse is dropped, and the later
    patterns are tried. *)
Example unparsable_date_absent w :
  fst (_parse_delivery_date "deliver by foo 12" w) = inl None /\
  fst (_parse_delivery_date "deliver by february 30" w) = inl None /\
  fst (_parse_delivery_date "no date here" w) = inl None.
Proof. repeat split. Qed.

(** ** Discounts *)

(** C9: a discount is present exactly for the codes of the promo table and
    is then [price * (1 - fraction)]; [SAVE10] gives [price * 0.90] for
    every price, and the code [UNKNOWN] gives nothing. *)
Theorem apply_discount_table :
  (forall P : float, apply_discount P "SAVE10" = Some (P * 0.90)%float) /\
  (forall P : float, apply_discount P "UNKNOWN" = None) /\
  (forall (P : float) (c : str),
      apply_discount P c = None <-> promo_codes !! c = None) /\
  (forall (P : float) (c : str) (fraction : float),
      promo_codes !! c = Some fraction ->
      apply_discount P c = Some (P * (1 - fraction))%float).
Proof.
  split; [| split; [| split]].
  - intros P. reflexivity.
  - intros P. reflexivity.
  - intros P c. unfold apply_discount.
    destruct (promo_codes !! c); split; (discriminate || reflexivity).
  - intros P c fraction Hc. unfold apply_discount. rewrite Hc. reflexivity.
Qed.

Lemma apply_discount_table_witness :
  promo_codes !! "SUMMER20" = Some 0.20%float /\
  apply_discount 50 "SUMMER20" = Some (50 * (1 - 0.20))%float.
Proof.
  split; [reflexivity |].
  apply (proj2 (proj2 (proj2 apply_discount_table)) 50%float "SUMMER20" 0.20%float).
  reflexivity.
Defined.

(** ** The demonstration queries *)

Example demo_search :
  fst (handle_query
         "Find a floral skirt under $140 in size S. Is it in stock, and can I apply a discount code 'SAVE10'?"
         sample_world)
  = inl "I found a Floral Summer Skirt in size S for $35.99 at StoreA. It's in stock (10 available). With discount code 'SAVE10', the final price would be $32.39.".
Proof. vm_compute. reflexivity. Qed.

Example demo_comparison :
  fst (handle_query "I found a 'casual denim jacket' at $79 on StoreA. Any better deals?"
         sample_world)
  = inl ("Here are the prices for the casual denim jacket across stores:" ++ [ascii_of_N 10]
         ++ "- StoreB: $75.99" ++ [ascii_of_N 10]).
Proof. vm_compute. reflexivity. Qed.

Example demo_return :
  fst (handle_query
         "I want to buy a cocktail dress from StoreB, but only if returns are hassle-free. Do they accept returns?"
         sample_world)
  = inl "StoreB accepts returns within 14 days. Return shipping fee applies. Return shipping fee applies".
Proof. vm_compute. reflexivity. Qed.

(** * Further properties of the code *)

(** ** What [parse_query] does to the world *)

Lemma parse_query_inv q w info w' :
  parse_query q w = (inl info, w') ->
  _extract_product_name q = inl (product_name info) /\
  extract_max_price q = inl (max_price info) /\
  extract_size q = inl (size info) /\
  color info = extract_color q /\
  _parse_delivery_date q w = (inl (delivery_target info), w') /\
  query_type info = classify q /\
  store info = extract_store q /\
  discount_code info = extract_discount_code q.
Proof.
  unfold parse_query, bind, lift, ret.
  destruct (_extract_product_name q) as [name | e]; [| discriminate].
  destruct (extract_max_price q) as [price | e]; [| discriminate].
  destruct (extract_size q) as [sz | e]; [| discriminate].
  destruct (_parse_delivery_date q w) as [[d | e] w1]; [| discriminate].
  intros [= <- <-]. repeat split.
Qed.

Lemma iter_tick_shift k w : Nat.iter k tick (tick w) = tick (Nat.iter k tick w).
Proof. induction k as [| k IH]; simpl; [reflexivity |]. rewrite IH. reflexivity. Qed.

(** The loop over the date patterns only reads the clock, at most once for
    each pattern. *)
Lemma parse_date_loop_world ps lq : forall w r w',
  parse_date_loop ps lq w = (r, w') ->
  exists k, (k <= length ps)%nat /\ w' = Nat.iter k tick w.
Proof.
  induction ps as [| p ps IH]; cbn [parse_date_loop length]; intros w r w' H.
  - injection H as _ <-. exists 0%nat. split; [lia | reflexivity].
  - destruct (re_search p lq) as [m |].
    + unfold bind, now in H. fold (tick w) in H.
      assert (Hone : forall (x : result (option datetime)),
                 (x, tick w) = (r, w') ->
                 exists k, (k <= S (length ps))%nat /\ w' = Nat.iter k tick w).
      { intros x [= _ <-]. exists 1%nat. split; [lia | reflexivity]. }
      destruct (group m 1) as [day |]; [| apply (Hone _ H)].
      destruct (mem day weekdays).
      * destruct (days_map !! day); [| apply (Hone _ H)].
        unfold bind, lift in H.
        destruct (add_days _ _); apply (Hone _ H).
      * destruct (strptime_B_d day) as [d | []]; try apply (Hone _ H).
        apply IH in H as (k & Hk & ->). exists (S k). split; [lia |].
        simpl. rewrite iter_tick_shift. reflexivity.
    + apply IH in H as (k & Hk & ->). exists k. split; [lia | reflexivity].
Qed.

(** X1: for every query [parse_query] returns an intent record, given a
    clock that is not in the last week of year 9999: no extractor raises.
    All it does to the world is read the clock, at most four times; it
    draws no random number. *)
Theorem parse_query_never_raises q w :
  sane_clock w ->
  exists info w' k,
    parse_query q w = (inl info, w') /\ (k <= 4)%nat /\ w' = Nat.iter k tick w.
Proof.
  intros Hw. destruct (parse_query_returns q w Hw) as (info & w' & Hq & _).
  destruct (parse_query_inv q w info w' Hq) as (_ & _ & _ & _ & Hd & _).
  apply parse_date_loop_world in Hd as (k & Hk & ->).
  exists info, (Nat.iter k tick w), k. auto.
Qed.

Lemma parse_query_never_raises_witness :
  exists info w' k,
    parse_query "red shoes, delivered by Friday 13 or before monday" sample_world
    = (inl info, w') /\ (k <= 4)%nat /\ w' = Nat.iter k tick sample_world.
Proof.
  apply (parse_query_never_raises _ sample_world).
  intros n. simpl. unfold max_ordinal. lia.
Defined.

(** X2: with a sane clock, [handle_query] answers with a string for every
    query in which a price is found, and for every query that is not
    classified as a comparison. *)
Theorem handle_query_answers q w :
  sane_clock w ->
  (exists x, extract_max_price q = inl (Some x)) \/ classify q <> "comparison" ->
  exists s w', handle_query q w = (inl s, w').
Proof.
  intros Hw Hcase.
  destruct (handle_query_result q w Hw) as [Hs | (info & w' & Hq & _ & Ht & Hmax)];
    [exact Hs | exfalso].
  destruct (parse_query_inv q w info w' Hq) as (_ & Hp & _ & _ & _ & Hc & _).
  destruct Hcase as [(x & Hx) | Hn].
  - rewrite Hx, Hmax in Hp. discriminate.
  - apply Hn. rewrite <- Hc. exact Ht.
Qed.

Lemma handle_query_answers_witness :
  exists s w',
    handle_query "Compare 'casual denim jacket' offers under $100" sample_world = (inl s, w').
Proof.
  apply (handle_query_answers _ sample_world).
  - intros n. simpl. unfold max_ordinal. lia.
  - left. eexists. vm_compute. reflexivity.
Defined.

(** ** Queries without a date *)

Lemma re_search_spells p s m :
  re_search p s = Some m -> exists pre u post, s = pre ++ u ++ post /\ spells p u.
Proof.
  intros H. apply search_from_some in H as (a & b & -> & H & _).
  apply match_at_some in H as (st' & Hm & _).
  pose proof (span_matches _ _ _ Hm) as Hb. cbn [after] in Hb.
  exists a, (span (Cursor (rev a ++ []) b []) st'), (after st').
  split; [rewrite <- Hb; reflexivity | apply matches_spells; exact Hm].
Qed.

Lemma spells_seq_lit w r u : spells (Seq (lit w) r) u -> exists v, u = w ++ v.
Proof.
  intros H. inversion H as [| | r1 r2 u1 u2 H1 H2 | | | | | |]; subst.
  apply spells_lit in H1. subst. eauto.
Qed.

Lemma spells_seq_skip r1 r2 u kw :
  spells (Seq r1 r2) u -> (forall v, spells r2 v -> exists a b, v = a ++ kw ++ b) ->
  exists a b, u = a ++ kw ++ b.
Proof.
  intros H Hr. inversion H as [| | ? ? u1 u2 H1 H2 | | | | | |]; subst.
  destruct (Hr _ H2) as (a & b & ->). exists (u1 ++ a), b. rewrite <- app_assoc. reflexivity.
Qed.

Lemma spells_seq_here w r u : spells (Seq (lit w) r) u -> exists a b, u = a ++ w ++ b.
Proof. intros H. apply spells_seq_lit in H as (v & ->). exists [], v. reflexivity. Qed.

Lemma date_pattern_keyword p u :
  In p date_patterns -> spells p u ->
  exists a b, u = a ++ "by" ++ b \/ u = a ++ "before" ++ b.
Proof.
  intros Hp Hs. destruct Hp as [<- | [<- | [<- | [<- | []]]]].
  - apply (spells_seq_here "by") in Hs as (a & b & ->). eauto.
  - apply (spells_seq_here "before") in Hs as (a & b & ->). eauto.
  - unfold date_deliver in Hs. cbn [seqs] in Hs.
    eapply (spells_seq_skip _ _ _ "by") in Hs as (a & b & ->); [eauto |].
    intros v Hv. eapply (spells_seq_skip _ _ _ "by") in Hv; [exact Hv |].
    intros v2 Hv2. eapply (spells_seq_skip _ _ _ "by") in Hv2; [exact Hv2 |].
    intros v3 Hv3. apply (spells_seq_here "by") in Hv3. exact Hv3.
  - unfold date_arrive in Hs. cbn [seqs] in Hs.
    eapply (spells_seq_skip _ _ _ "by") in Hs as (a & b & ->); [eauto |].
    intros v Hv. eapply (spells_seq_skip _ _ _ "by") in Hv; [exact Hv |].
    intros v2 Hv2. apply (spells_seq_here "by") in Hv2. exact Hv2.
Qed.

Lemma no_date_keyword lq p :
  contains "by" lq = false -> contains "before" lq = false ->
  In p date_patterns -> re_search p lq = None.
Proof.
  intros Hby Hbefore Hp. destruct (re_search p lq) as [m |] eqn:E; [exfalso | reflexivity].
  apply re_search_spells in E as (pre & u & post & -> & Hu).
  destruct (date_pattern_keyword p u Hp Hu) as (a & b & [-> | ->]).
  - rewrite <- !app_assoc, app_assoc, contains_app in Hby. discriminate.
  - rewrite <- !app_assoc, app_assoc, contains_app in Hbefore. discriminate.
Qed.

Lemma parse_date_loop_no_match ps lq w :
  (forall p, In p ps -> re_search p lq = None) -> parse_date_loop ps lq w = (inl None, w).
Proof.
  induction ps as [| p ps IH]; cbn [parse_date_loop]; intros H; [reflexivity |].
  rewrite (H p) by (left; reflexivity). apply IH. intros p' Hp'. apply H. right. exact Hp'.
Qed.

Lemma undated_format product info :
  delivery_target info = None ->
  exists s, forall w, _format_product_response product info w = (inl s, w).
Proof.
  intros Hd. unfold _format_product_response. rewrite Hd. unfold bind, ret. eauto.
Qed.

(** X3: a query whose lower-cased text holds neither "by" nor "before" has
    no delivery target, and its answer (or the exception raised) is a
    function of the query alone: the clock and the random source are left
    untouched, whatever they are. *)
Theorem undated_query_ignores_world q :
  contains "by" (lower q) = false -> contains "before" (lower q) = false ->
  exists answer, forall w,
    handle_query q w = (answer, w) /\
    _parse_delivery_date q w = (inl None, w).
Proof.
  intros Hby Hbefore.
  assert (Hdate : forall w, _parse_delivery_date q w = (inl None, w)).
  { intros w. apply parse_date_loop_no_match. intros p Hp. apply no_date_keyword; assumption. }
  unfold handle_query, parse_query, bind, lift, ret.
  destruct (_extract_product_name q) as [name | e]; [| eauto].
  destruct (extract_max_price q) as [price | e]; [| eauto].
  destruct (extract_size q) as [sz | e]; [| eauto].
  set (info := {| max_price := price; size := sz; color := extract_color q;
                  store := extract_store q; delivery_target := None;
                  discount_code := extract_discount_code q; product_name := name;
                  query_type := classify q |}).
  assert (Hbranch : exists answer, forall w,
            (if str_eqb (query_type info) "return"
                && bool_decide (truthy_str (store info) <> None)
             then fun w0 => (inl (_handle_return_query info), w0)
             else if str_eqb (query_type info) "comparison"
                     && bool_decide (truthy_str (product_name info) <> None)
             then fun w0 => (_handle_comparison_query info, w0)
             else _handle_search_query info) w = (answer, w)).
  { destruct (_ && _); [eauto |]. destruct (_ && _); [eauto |].
    unfold _handle_search_query.
    destruct (search_products _ _ _ _) as [| first rest]; [unfold ret; eauto |].
    destruct (undated_format first info eq_refl) as (s & Hs). eauto. }
  destruct Hbranch as (answer & Hanswer).
  exists answer. intros w. rewrite Hdate. split; [apply Hanswer | reflexivity].
Qed.

Lemma undated_query_ignores_world_witness :
  exists answer, forall w,
    handle_query "Find a floral skirt under $140 in size S." w = (answer, w) /\
    _parse_delivery_date "Find a floral skirt under $140 in size S." w = (inl None, w).
Proof.
  apply undated_query_ignores_world; reflexivity.
Defined.

(** ** Stores and return policies *)

Lemma store_name_text w :
  spells (Seq (lit "Store") (Cls (any_of "ABC"))) w -> In w ["StoreA"; "StoreB"; "StoreC"].
Proof.
  intros H. inversion H as [| | r1 r2 u1 u2 H1 H2 | | | | | |]; subst.
  apply (spells_lit "Store") in H1. subst u1.
  inversion H2 as [| p c Hc | | | | | | |]; subst.
  unfold any_of in Hc. cbn [existsb] in Hc.
  repeat (apply orb_true_iff in Hc as [Hc | Hc];
          [apply Ascii.eqb_eq in Hc; subst c; simpl; tauto |]).
  discriminate.
Qed.

Lemma extract_store_closed q s :
  extract_store q = Some s -> In s ["StoreA"; "StoreB"; "StoreC"].
Proof.
  unfold extract_store. destruct (re_search store_pattern q) as [m |] eqn:E; [| discriminate].
  intros Hg. destruct (search_group 0 _ q m E eq_refl) as (w & r & Hw & Hr & Hs).
  rewrite Hg in Hw. injection Hw as <-.
  destruct Hr as [<- | []]. apply store_name_text. exact Hs.
Qed.

Lemma get_return_policy_keys name :
  get_return_policy name <> None <-> In name ["StoreA"; "StoreB"; "StoreC"].
Proof.
  unfold get_return_policy, stores. split.
  - intros H.
    destruct (decide (name = "StoreA")) as [-> | Ha]; [simpl; tauto |].
    destruct (decide (name = "StoreB")) as [-> | Hb]; [simpl; tauto |].
    destruct (decide (name = "StoreC")) as [-> | Hc]; [simpl; tauto |].
    exfalso. apply H.
    rewrite !lookup_insert_ne by congruence. apply lookup_empty.
  - intros [<- | [<- | [<- | []]]]; vm_compute; discriminate.
Qed.

(** X4: a return policy exists exactly for StoreA, StoreB and StoreC and
    names the store it was asked for; the store that [parse_query]
    extracts is always one of these three.  So whenever [handle_query]
    takes the return branch it reports the store's policy: the
    "couldn't find return policy" answer cannot be reached from a query. *)
Theorem return_branch_finds_policy :
  (forall name, get_return_policy name <> None <-> In name ["StoreA"; "StoreB"; "StoreC"]) /\
  (forall name policy, get_return_policy name = Some policy -> rp_store policy = name) /\
  (forall q w info w' s,
      parse_query q w = (inl info, w') ->
      query_type info = "return" -> store info = Some s ->
      In s ["StoreA"; "StoreB"; "StoreC"] /\
      exists policy,
        get_return_policy s = Some policy /\
        handle_query q w
        = (inl (s ++ " accepts returns within " ++ str_of_Z (days_allowed policy) ++ " days. "
                ++ (if free_returns policy then "Returns are free"
                    else "Return shipping fee applies")
                ++ ". " ++ conditions policy), w')).
Proof.
  split; [exact get_return_policy_keys |]. split.
  - intros name policy H.
    assert (Hin : In name ["StoreA"; "StoreB"; "StoreC"]).
    { apply get_return_policy_keys. congruence. }
    destruct Hin as [<- | [<- | [<- | []]]]; vm_compute in H; injection H as <-; reflexivity.
  - intros q w info w' s Hq Ht Hs.
    destruct (parse_query_inv q w info w' Hq) as (_ & _ & _ & _ & _ & _ & Hst & _).
    assert (Hin : In s ["StoreA"; "StoreB"; "StoreC"]).
    { apply (extract_store_closed q). rewrite <- Hst. exact Hs. }
    split; [exact Hin |].
    destruct (get_return_policy s) as [policy |] eqn:Hp;
      [| exfalso; apply (proj2 (get_return_policy_keys s) Hin); exact Hp].
    exists policy. split; [reflexivity |].
    unfold handle_query, bind. rewrite Hq, Ht, Hs.
    assert (Hne : truthy_str (Some s) <> None).
    { destruct Hin as [<- | [<- | [<- | []]]]; discriminate. }
    replace (str_eqb "return" "return") with true by reflexivity.
    rewrite (bool_decide_eq_true_2 _ Hne). cbn [andb]. unfold ret.
    unfold _handle_return_query. rewrite Hs, Hp. reflexivity.
Qed.

Lemma return_branch_finds_policy_witness :
  exists info w',
    parse_query "Can I get a refund at StoreC?" sample_world = (inl info, w') /\
    handle_query "Can I get a refund at StoreC?" sample_world
    = (inl "StoreC accepts returns within 21 days. Returns are free. Free returns within 21 days",
       w').
Proof.
  destruct (parse_query_returns "Can I get a refund at StoreC?" sample_world)
    as (info & w' & Hq & _).
  - intros n. simpl. unfold max_ordinal. lia.
  - exists info, w'. split; [exact Hq |].
    destruct (parse_query_inv _ _ _ _ Hq) as (_ & _ & _ & _ & _ & Ht & Hs & _).
    destruct (proj2 (proj2 return_branch_finds_policy) _ _ info w' "StoreC" Hq)
      as (_ & policy & Hp & Hh).
    + rewrite Ht. reflexivity.
    + rewrite Hs. reflexivity.
    + rewrite Hh. vm_compute in Hp. injection Hp as <-. reflexivity.
Defined.

(** ** Product names *)

(** A lazy repetition stops at the first position that its continuation
    accepts. *)
Lemma star_lazy_first {A} p (k : cursor -> option A) a : forall l rest g x,
  forallb p a = true ->
  (forall a1 c a2, a = a1 ++ c :: a2 ->
                   k (Cursor (rev a1 ++ l) (c :: a2 ++ rest) g) = None) ->
  k (Cursor (rev a ++ l) rest g) = Some x ->
  star false p k l (a ++ rest) g = Some x.
Proof.
  induction a as [| c a IH]; intros l rest g x Ha Hnone Hk.
  - simpl in *. destruct rest as [| c r]; simpl; [exact Hk |].
    destruct (p c); [rewrite Hk; reflexivity | exact Hk].
  - cbn [forallb] in Ha. apply andb_true_iff in Ha as [Hc Ha].
    cbn [app star]. rewrite Hc.
    pose proof (Hnone [] c a eq_refl) as H0. cbn [rev app] in H0. rewrite H0. cbn [orelse].
    apply IH; [exact Ha | |].
    + intros a1 c' a2 Heq. specialize (Hnone (c :: a1) c' a2).
      cbn [rev app] in Hnone. rewrite <- app_assoc in Hnone. apply Hnone. rewrite Heq. reflexivity.
    + cbn [rev] in Hk. rewrite <- app_assoc in Hk. exact Hk.
Qed.

Lemma quote_pattern_at_nonquote l c r :
  is_quote c = false -> match_at quote_pattern l (c :: r) = None.
Proof. intros H. unfold match_at, quote_pattern. cbn. rewrite H. reflexivity. Qed.

Lemma quote_pattern_match l q1 body q2 post :
  is_quote q1 = true -> is_quote q2 = true ->
  forallb (fun c => is_dot c && negb (is_quote c)) body = true ->
  exists m, match_at quote_pattern l (q1 :: body ++ q2 :: post) = Some m /\
            group m 1 = Some body.
Proof.
  intros H1 H2 Hbody. unfold match_at, quote_pattern. cbn [seqs rmatch after before caps].
  rewrite H1.
  assert (Hdot : forallb is_dot body = true).
  { apply forallb_forall. intros c Hc. rewrite forallb_forall in Hbody.
    apply Hbody in Hc. apply andb_true_iff in Hc. tauto. }
  rewrite (star_lazy_first is_dot _ body (q1 :: l) (q2 :: post) []
             (Cursor (q2 :: rev body ++ q1 :: l) post [(1, body)])).
  - eexists. split; [reflexivity |]. reflexivity.
  - exact Hdot.
  - intros a1 c a2 Heq. cbn [rmatch after set_cap].
    assert (Hc : is_quote c = false).
    { rewrite forallb_forall in Hbody. specialize (Hbody c).
      rewrite Heq in Hbody. specialize (Hbody (in_elt c a1 a2)).
      apply andb_true_iff in Hbody as [_ Hq]. apply negb_true_iff. exact Hq. }
    rewrite Hc. reflexivity.
  - cbn [rmatch after before caps set_cap]. rewrite H2.
    f_equal. f_equal. f_equal. f_equal.
    apply span_of_subject; reflexivity.
Qed.

(** X5: a name written between two quotation marks is returned as it is
    written, letter case and blanks included, when it is the first thing
    in quotes, holds no quotation mark and no line feed, and the text in
    front of it does not contain "code" in any letter case.  An empty pair
    of quotes gives the empty name. *)
Theorem quoted_name_verbatim pre q1 body q2 post :
  forallb (fun c => negb (is_quote c)) pre = true ->
  is_quote q1 = true -> is_quote q2 = true ->
  forallb (fun c => is_dot c && negb (is_quote c)) body = true ->
  contains "code" (lower pre) = false ->
  _extract_product_name (pre ++ q1 :: body ++ q2 :: post) = inl (Some body).
Proof.
  intros Hpre H1 H2 Hbody Hcode.
  destruct (quote_pattern_match (rev pre) q1 body q2 post H1 H2 Hbody) as (m & Hm & Hg).
  assert (Hs : re_search quote_pattern (pre ++ q1 :: body ++ q2 :: post) = Some m).
  { apply search_from_first; [| rewrite app_nil_r; exact Hm].
    intros a1 a2 Ha Hne. destruct a2 as [| c a2]; [congruence |].
    cbn [app]. apply quote_pattern_at_nonquote.
    rewrite forallb_forall in Hpre. apply negb_true_iff. apply Hpre.
    rewrite Ha. apply in_elt. }
  destruct (quote_span_find _ m Hs) as [Hfind _].
  assert (Hstart : m_start m = length pre).
  { apply match_at_some in Hm as (st' & _ & ->). cbn [m_start]. apply length_rev. }
  unfold _extract_product_name, quote_tier. rewrite Hs, Hfind, Hstart. cbn [slice_to].
  rewrite firstn_app, firstn_all, Nat.sub_diag. cbn [firstn]. rewrite app_nil_r.
  rewrite Hcode. cbn [negb]. rewrite Hg. reflexivity.
Qed.

Lemma quoted_name_verbatim_witness :
  _extract_product_name "I found a 'Casual  Denim JACKET' at $79. Any better deals?"
  = inl (Some "Casual  Denim JACKET").
Proof.
  apply (quoted_name_verbatim "I found a " "'" "Casual  Denim JACKET" "'"
           " at $79. Any better deals?"); reflexivity.
Defined.

Lemma type_tier_some ts lq t :
  In t ts -> contains t lq = true -> exists n, type_tier ts lq = Some n.
Proof.
  induction ts as [| x ts IH]; intros Hin Hc; [destruct Hin |]. cbn [type_tier].
  destruct (contains x lq) eqn:Ex.
  - destruct (re_search _ lq); eauto.
  - destruct Hin as [-> | Hin]; [congruence | auto].
Qed.

Lemma type_tier_nonempty ts lq n :
  (forall t, In t ts -> t <> []) -> type_tier ts lq = Some n -> n <> [].
Proof.
  induction ts as [| x ts IH]; intros Hts H; cbn [type_tier] in H; [discriminate |].
  destruct (contains x lq).
  - destruct (re_search _ lq) as [m |]; injection H as <-.
    + intros Habs. apply app_eq_nil in Habs as [_ Habs]. discriminate.
    + apply Hts. left. reflexivity.
  - apply IH; [| exact H]. intros t Ht. apply Hts. right. exact Ht.
Qed.

Lemma indicator_tier_nonempty ps lq n : indicator_tier ps lq = inl (Some n) -> n <> [].
Proof.
  induction ps as [| p ps IH]; cbn [indicator_tier]; [discriminate |].
  destruct (re_search p lq) as [m |]; [| exact IH].
  destruct (group m 1) as [g |]; [| discriminate].
  destruct (strip (re_sub filler_words "" (strip g))) eqn:E; [exact IH |].
  intros [= <-]. discriminate.
Qed.

(** X6: a query that mentions one of the known product nouns (skirt,
    dress, jacket, sneakers, shoes), in any letter case, always gets a
    product name; and a name that does not come from quotation marks is
    never empty. *)
Theorem known_noun_names_product q :
  (forall t, In t product_types -> contains t (lower q) = true ->
             exists n, _extract_product_name q = inl (Some n)) /\
  (forall n, quote_tier q = None -> _extract_product_name q = inl (Some n) -> n <> []).
Proof.
  split.
  - intros t Ht Hc. unfold _extract_product_name.
    destruct (quote_tier q) as [name |] eqn:Eq.
    + unfold quote_tier in Eq.
      destruct (re_search quote_pattern q) as [m |] eqn:Es; [| discriminate].
      destruct (negb _); [| discriminate]. injection Eq as <-.
      destruct (search_group 0 _ q m Es eq_refl) as (w & _ & Hw & _).
      cbn [group] in Hw. rewrite Hw. eauto.
    + unfold fallback_tiers.
      destruct (indicator_tier_returns product_indicators (lower q) eq_refl) as (x & ->).
      destruct x as [n |]; [eauto |].
      destruct (type_tier_some product_types (lower q) t Ht Hc) as (n & ->). eauto.
  - intros n Hq. unfold _extract_product_name. rewrite Hq. unfold fallback_tiers.
    destruct (indicator_tier product_indicators (lower q)) as [[n' |] | e] eqn:Ei.
    + intros [= <-]. apply (indicator_tier_nonempty _ _ _ Ei).
    + intros [= H]. apply (type_tier_nonempty product_types (lower q)); [| exact H].
      intros t Ht. repeat (destruct Ht as [<- | Ht]; [discriminate |]). destruct Ht.
    + discriminate.
Qed.

Lemma known_noun_names_product_witness :
  exists n, _extract_product_name "Any SNEAKERS left?" = inl (Some n) /\ n <> [].
Proof.
  destruct (proj1 (known_noun_names_product "Any SNEAKERS left?") "sneakers")
    as (n & Hn); [simpl; tauto | reflexivity |].
  exists n. split; [exact Hn |].
  apply (proj2 (known_noun_names_product "Any SNEAKERS left?") n); [reflexivity | exact Hn].
Defined.

(** ** Letter case and blanks *)

Ltac each_char c := destruct c as [[] [] [] [] [] [] [] []]; reflexivity.

Lemma lower_char_idem c : lower_char (lower_char c) = lower_char c.
Proof. each_char c. Qed.

Lemma is_space_lower c : is_space (lower_char c) = is_space c.
Proof. each_char c. Qed.

Lemma lower_idem s : lower (lower s) = lower s.
Proof. unfold lower. rewrite map_map. apply map_ext. apply lower_char_idem. Qed.

Lemma split_aux_lower s : forall cur,
  split_aux (lower cur) (lower s) = map lower (split_aux cur s).
Proof.
  induction s as [| c s IH]; intros cur.
  - destruct cur as [| a cur]; [reflexivity |].
    unfold lower. cbn [split_aux map]. rewrite map_rev. reflexivity.
  - unfold lower at 2. cbn [map split_aux]. fold (lower s).
    rewrite is_space_lower. destruct (is_space c).
    + destruct cur as [| a cur].
      * apply (IH []).
      * change (lower (a :: cur)) with (lower_char a :: lower cur). cbn [map].
        f_equal; [unfold lower; rewrite map_rev; reflexivity | apply (IH [])].
    + apply (IH (c :: cur)).
Qed.

Lemma split_lower s : split (lower s) = map lower (split s).
Proof. apply (split_aux_lower s []). Qed.

Lemma split_aux_blank a sp b : forall cur,
  is_space sp = true -> split_aux cur (a ++ sp :: b) = split_aux cur a ++ split b.
Proof.
  induction a as [| c a IH]; intros cur Hsp; cbn [app split_aux].
  - rewrite Hsp. destruct cur; reflexivity.
  - destruct (is_space c).
    + destruct cur; [apply IH; exact Hsp |]. cbn [app]. f_equal. apply IH. exact Hsp.
    + apply IH. exact Hsp.
Qed.

Lemma filter_map_lower (f : str -> bool) l :
  List.filter f (map lower l) = map lower (List.filter (fun x => f (lower x)) l).
Proof.
  induction l as [| x l IH]; cbn [map List.filter]; [reflexivity |].
  destruct (f (lower x)); cbn [map]; rewrite IH; reflexivity.
Qed.

(** The keywords are the words of the lower-cased query that are not stop
    words. *)
Lemma keywords_of_lower query :
  keywords_of query
  = List.filter (fun word => negb (mem word stopwords)) (split (lower query)).
Proof. unfold keywords_of. rewrite split_lower, filter_map_lower. reflexivity. Qed.

Lemma keywords_of_blank q1 sp q2 :
  is_space sp = true -> keywords_of (q1 ++ sp :: q2) = keywords_of q1 ++ keywords_of q2.
Proof.
  intros Hsp. unfold keywords_of, split.
  rewrite (split_aux_blank q1 sp q2 [] Hsp), List.filter_app, map_app. reflexivity.
Qed.

(** ** Catalogue search, continued *)

Lemma product_selected_spec keywords max_price color size p :
  product_selected keywords max_price color size p
  = existsb (fun keyword => contains keyword (product_text p)) keywords
    && match truthy_float max_price with
       | Some mx => negb (mx <? p_price p)%float
       | None => true
       end
    && same_text color (p_color p) && same_size size (p_size p).
Proof.
  unfold product_selected, same_text, same_size.
  induction keywords as [| k ks IH]; cbn [List.filter existsb]; [reflexivity |].
  destruct (contains k (product_text p)); cbn [orb].
  - rewrite <- !andb_assoc. reflexivity.
  - exact IH.
Qed.

Lemma same_text_lower wanted wanted' actual :
  option_map lower wanted = option_map lower wanted' ->
  same_text wanted actual = same_text wanted' actual.
Proof.
  unfold same_text.
  destruct wanted as [[| a v] |], wanted' as [[| a' v'] |]; cbn; intros H;
    try discriminate; try reflexivity.
  injection H as Ha Hv. unfold lower. cbn [map]. rewrite Ha, Hv. reflexivity.
Qed.

Lemma same_size_lower wanted wanted' actual :
  option_map ulower wanted = option_map ulower wanted' ->
  same_size wanted actual = same_size wanted' actual.
Proof.
  unfold same_size.
  destruct wanted as [[| a v] |], wanted' as [[| a' v'] |]; cbn; intros H;
    try discriminate; try reflexivity.
  injection H as Ha Hv. unfold ulower. cbn [map]. rewrite Ha, Hv. reflexivity.
Qed.

(** X7: the search does not look at letter case: queries, colours and
    sizes that differ only in the case of their letters give the same
    products. *)
Theorem search_products_ignores_case query query' max_price color color' size size' :
  lower query = lower query' ->
  option_map lower color = option_map lower color' ->
  option_map ulower size = option_map ulower size' ->
  search_products query max_price color size
  = search_products query' max_price color' size'.
Proof.
  intros Hq Hc Hs. unfold search_products.
  rewrite (keywords_of_lower query), (keywords_of_lower query'), Hq.
  apply List.filter_ext. intros p. rewrite !product_selected_spec.
  rewrite (same_text_lower color color' _ Hc), (same_size_lower size size' _ Hs).
  reflexivity.
Qed.

Lemma search_products_ignores_case_witness :
  search_products "FLORAL Skirt" (Some 140%float) (Some "floral") (Some (utext "s"))
  = search_products "floral skirt" (Some 140%float) (Some "FLORAL") (Some (utext "S")).
Proof. apply search_products_ignores_case; reflexivity. Defined.

(** X8: the words of a query are alternatives: a query made of two parts
    separated by a blank finds exactly the products that one of the parts
    finds, under the same price, colour and size.  Adding words to a query
    never loses a product. *)
Theorem search_products_any_word q1 sp q2 max_price color size p :
  is_space sp = true ->
  In p (search_products (q1 ++ sp :: q2) max_price color size) <->
  In p (search_products q1 max_price color size) \/
  In p (search_products q2 max_price color size).
Proof.
  intros Hsp. unfold search_products. rewrite !filter_In, !product_selected_spec.
  rewrite (keywords_of_blank q1 sp q2 Hsp), existsb_app.
  destruct (existsb _ (keywords_of q1)), (existsb _ (keywords_of q2)); cbn [orb andb];
    intuition discriminate.
Qed.

Lemma search_products_any_word_witness :
  exists p, In p (search_products "unicorn sneakers" None None None) /\
            p_name p = "White Athletic Sneakers".
Proof.
  exists (Build_Product "2" "White Athletic Sneakers" 65.99 "White" "8" "StoreB" 5
            "Classic white sneakers").
  split; [| reflexivity].
  apply (proj2 (search_products_any_word "unicorn" " " "sneakers" None None None _ eq_refl)).
  right. vm_compute. tauto.
Defined.

(** X9: the price, colour and size only narrow a search: every product
    found with them is found by the words alone, has the wanted colour and
    the wanted size up to letter case, and an empty colour or size is no
    constraint at all. *)
Theorem search_products_filters_narrow query max_price color size :
  (forall p, In p (search_products query max_price color size) ->
             In p (search_products query None None None) /\
             (forall c, color = Some c -> c <> [] -> lower c = lower (p_color p)) /\
             (forall z, size = Some z -> z <> [] -> ulower z = utext (lower (p_size p)))) /\
  search_products query max_price (Some []) size = search_products query max_price None size /\
  search_products query max_price color (Some []) = search_products query max_price color None.
Proof.
  split; [| split; reflexivity].
  intros p. unfold search_products. rewrite !filter_In, !product_selected_spec.
  intros [Hp Hsel].
  repeat (apply andb_true_iff in Hsel as [Hsel ?]).
  split; [| split].
  - split; [exact Hp |]. rewrite Hsel. reflexivity.
  - intros c -> Hc. unfold same_text in *. destruct c; [congruence |].
    cbn [truthy_str] in *. apply bool_decide_eq_true in H0. exact H0.
  - intros z -> Hz. unfold same_size in *. destruct z; [congruence |].
    cbn [truthy_str] in *. apply bool_decide_eq_true in H. exact H.
Qed.

Lemma search_products_filters_narrow_witness :
  let p := Build_Product "5" "Casual Denim Jacket" 75.99 "Blue" "M" "StoreB" 6
             "Casual denim jacket" in
  In p (search_products "jacket" None None None) /\
  lower "BLUE" = lower (p_color p) /\ ulower (utext "m") = utext (lower (p_size p)).
Proof.
  intros p.
  assert (Hp : In p (search_products "jacket" (Some 80%float) (Some "BLUE")
                       (Some (utext "m"))))
    by (vm_compute; right; left; reflexivity).
  destruct (proj1 (search_products_filters_narrow "jacket" (Some 80%float) (Some "BLUE")
                     (Some (utext "m"))) p Hp) as (H1 & H2 & H3).
  split; [exact H1 |]. split; [apply H2 | apply H3]; (reflexivity || discriminate).
Defined.

(** ** Price comparison *)

Lemma dict_set_keys {V} k (v : V) d :
  map fst (dict_set k v d)
  = if existsb (str_eqb k) (map fst d) then map fst d else map fst d ++ [k].
Proof.
  induction d as [| [k' v'] d IH]; cbn [dict_set map fst existsb]; [reflexivity |].
  destruct (str_eqb k k') eqn:E; cbn [orb map fst].
  - apply bool_decide_eq_true in E. subst. reflexivity.
  - rewrite IH. destruct (existsb _ _); reflexivity.
Qed.

Lemma dict_set_NoDup {V} k (v : V) d :
  List.NoDup (map fst d) -> List.NoDup (map fst (dict_set k v d)).
Proof.
  intros H. rewrite dict_set_keys. destruct (existsb _ _) eqn:E; [exact H |].
  apply NoDup_rev in H. rewrite <- (rev_involutive (map fst d ++ [k])).
  apply NoDup_rev. rewrite rev_app_distr. cbn [rev app]. constructor; [| exact H].
  intros Hin. apply in_rev in Hin.
  assert (Hex : existsb (str_eqb k) (map fst d) = true).
  { apply existsb_exists. exists k. split; [exact Hin |].
    apply bool_decide_eq_true. reflexivity. }
  congruence.
Qed.

Lemma dict_set_In {V} k (v : V) d k' v' :
  In (k', v') (dict_set k v d) -> (k' = k /\ v' = v) \/ In (k', v') d.
Proof.
  induction d as [| [k0 v0] d IH]; cbn [dict_set].
  - intros [[= <- <-] | []]. auto.
  - destruct (str_eqb k k0).
    + intros [[= <- <-] | H]; [auto | right; right; exact H].
    + intros [H | H]; [right; left; exact H |].
      destruct (IH H) as [? | ?]; [auto | right; right; assumption].
Qed.

Lemma dict_set_has {V} k (v : V) d : In (k, v) (dict_set k v d).
Proof.
  induction d as [| [k0 v0] d IH]; cbn [dict_set]; [left; reflexivity |].
  destruct (str_eqb k k0); [left; reflexivity | right; exact IH].
Qed.

Lemma dict_set_keeps_key {V} k (v : V) d k' :
  In k' (map fst d) -> In k' (map fst (dict_set k v d)).
Proof.
  intros H. rewrite dict_set_keys. destruct (existsb _ _); [exact H |].
  apply in_or_app. left. exact H.
Qed.

(** What the loop of [compare_prices] keeps true of its dict, over any
    list of products. *)
Lemma compare_loop_invariant name ps : forall acc,
  let step := fun (results : list (str * float)) product =>
                if contains (lower name) (lower (p_name product))
                then dict_set (p_store product) (p_price product) results
                else results in
  let out := fold_left step ps acc in
  (List.NoDup (map fst acc) -> List.NoDup (map fst out)) /\
  (forall st x, In (st, x) out ->
                In (st, x) acc \/
                exists p, In p ps /\ p_store p = st /\ p_price p = x /\
                          contains (lower name) (lower (p_name p)) = true) /\
  (forall st, In st (map fst acc) -> In st (map fst out)) /\
  (forall p, In p ps -> contains (lower name) (lower (p_name p)) = true ->
             In (p_store p) (map fst out)).
Proof.
  induction ps as [| p ps IH]; intros acc step out; subst out; cbn [fold_left].
  - repeat split; auto. intros p [].
  - specialize (IH (step acc p)). cbv zeta in IH. fold step in IH.
    destruct IH as (IH1 & IH2 & IH3 & IH4).
    assert (Hstep : step acc p = if contains (lower name) (lower (p_name p))
                                 then dict_set (p_store p) (p_price p) acc else acc)
      by reflexivity.
    repeat split.
    + intros H. apply IH1. rewrite Hstep. destruct (contains _ _); [| exact H].
      apply dict_set_NoDup. exact H.
    + intros st x H. destruct (IH2 st x H) as [Hacc | (p' & Hp' & Hrest)].
      * rewrite Hstep in Hacc. destruct (contains _ _) eqn:Ec; [| auto].
        apply dict_set_In in Hacc as [[-> ->] | Hacc]; [| auto].
        right. exists p. repeat split; auto. left. reflexivity.
      * right. exists p'. split; [right; exact Hp' | exact Hrest].
    + intros st H. apply IH3. rewrite Hstep. destruct (contains _ _); [| exact H].
      apply dict_set_keeps_key. exact H.
    + intros p' [<- | Hp'] Hc; [| apply IH4; assumption].
      apply IH3. rewrite Hstep, Hc.
      apply (in_map fst _ (p_store p, p_price p)). apply dict_set_has.
Qed.

(** X10: [compare_prices] lists each store at most once; every store it
    lists sells a catalogue product whose name contains the wanted name
    (letter case aside) at the listed price; and every store that sells
    such a product is listed. *)
Theorem compare_prices_sound name :
  List.NoDup (map fst (compare_prices name)) /\
  (forall st x, In (st, x) (compare_prices name) ->
                exists p, In p products /\ p_store p = st /\ p_price p = x /\
                          contains (lower name) (lower (p_name p)) = true) /\
  (forall p, In p products -> contains (lower name) (lower (p_name p)) = true ->
             In (p_store p) (map fst (compare_prices name))).
Proof.
  destruct (compare_loop_invariant name products []) as (H1 & H2 & _ & H4).
  split; [apply H1; constructor |]. split; [| exact H4].
  intros st x H. destruct (H2 st x H) as [[] | Hp]. exact Hp.
Qed.

Lemma compare_prices_sound_witness :
  In "StoreC" (map fst (compare_prices "DENIM")).
Proof.
  apply (proj2 (proj2 (compare_prices_sound "DENIM"))
           (Build_Product "6" "Casual Denim Jacket" 82.99 "Blue" "M" "StoreC" 4
              "Casual denim jacket")).
  - vm_compute. tauto.
  - reflexivity.
Defined.

Lemma comparison_lines_shown mx items : forall response,
  comparison_lines (Some mx) items response
  = inl (response
         ++ concat (map comparison_line
                      (List.filter (fun item => (snd item <=? mx)%float) items))).
Proof.
  induction items as [| [st x] items IH]; intros response;
    cbn [comparison_lines List.filter map concat snd].
  - rewrite app_nil_r. reflexivity.
  - destruct (x <=? mx)%float.
    + rewrite IH. cbn [map concat]. unfold comparison_line at 2. cbn [fst snd].
      rewrite <- !app_assoc. reflexivity.
    + apply IH.
Qed.

Lemma insert_by_price_perm x l : Permutation (insert_by_price x l) (x :: l).
Proof.
  induction l as [| z l IH]; cbn [insert_by_price]; [reflexivity |].
  destruct (snd x <? snd z)%float; [reflexivity |].
  rewrite IH. apply perm_swap.
Qed.

Lemma sorted_by_price_perm l : Permutation (sorted_by_price l) l.
Proof.
  unfold sorted_by_price.
  assert (H : forall l acc,
             Permutation (fold_left (fun acc x => insert_by_price x acc) l acc) (acc ++ l)).
  { clear l. induction l as [| x l IH]; intros acc; cbn [fold_left].
    - rewrite app_nil_r. reflexivity.
    - rewrite IH, insert_by_price_perm. apply Permutation_middle. }
  apply (H l []).
Qed.

(** On the prices of the catalogue [<] is irreflexive, and an item priced
    below another is not above anything that the other is not above. *)
Lemma catalogue_price_order x y z :
  In x (map p_price products) -> In y (map p_price products) ->
  In z (map p_price products) ->
  (x <? x)%float = false /\
  ((x <? y)%float = true -> (z <? y)%float = false -> (z <? x)%float = false).
Proof.
  intros Hx Hy Hz.
  assert (Hall : forallb (fun x => forallb (fun y => forallb (fun z =>
            negb (x <? x)%float
            && implb (x <? y)%float (implb (negb (z <? y)%float) (negb (z <? x)%float)))
            (map p_price products)) (map p_price products)) (map p_price products) = true)
    by (vm_compute; reflexivity).
  rewrite forallb_forall in Hall. specialize (Hall x Hx).
  rewrite forallb_forall in Hall. specialize (Hall y Hy).
  rewrite forallb_forall in Hall. specialize (Hall z Hz).
  destruct (x <? x)%float, (x <? y)%float, (z <? y)%float, (z <? x)%float;
    cbn in Hall; try discriminate; split; congruence.
Qed.

Lemma insert_by_price_ascending x l :
  (forall it, In it (x :: l) -> In (snd it) (map p_price products)) ->
  ascending l -> ascending (insert_by_price x l).
Proof.
  induction l as [| z l IH]; intros Hp Hl; cbn [insert_by_price].
  - cbn [ascending]. split; [intros b [] | exact I].
  - assert (Hx : In (snd x) (map p_price products)) by (apply Hp; left; reflexivity).
    assert (Hz : In (snd z) (map p_price products)) by (apply Hp; right; left; reflexivity).
    destruct Hl as [Hzl Hl].
    destruct (snd x <? snd z)%float eqn:E.
    + cbn [ascending]. split; [| split; assumption].
      intros b [<- | Hb].
      * apply (proj2 (catalogue_price_order _ _ _ Hx Hz Hz) E).
        apply (proj1 (catalogue_price_order _ _ _ Hz Hz Hz)).
      * assert (Hbp : In (snd b) (map p_price products))
          by (apply Hp; right; right; exact Hb).
        apply (proj2 (catalogue_price_order _ _ _ Hx Hz Hbp) E). apply Hzl. exact Hb.
    + cbn [ascending]. split.
      * intros b Hb. apply (Permutation_in _ (insert_by_price_perm x l)) in Hb.
        destruct Hb as [<- | Hb]; [exact E | apply Hzl; exact Hb].
      * apply IH; [| exact Hl]. intros it [<- | Hit]; apply Hp; [left | right; right]; auto.
Qed.

Lemma sorted_by_price_ascending l :
  (forall it, In it l -> In (snd it) (map p_price products)) ->
  ascending (sorted_by_price l).
Proof.
  unfold sorted_by_price.
  assert (H : forall l acc,
             (forall it, In it (acc ++ l) -> In (snd it) (map p_price products)) ->
             ascending acc ->
             ascending (fold_left (fun acc x => insert_by_price x acc) l acc)).
  { clear l. induction l as [| x l IH]; intros acc Hp Hacc; cbn [fold_left]; [exact Hacc |].
    apply IH.
    - intros it Hit. apply Hp. apply in_app_or in Hit as [Hit | Hit].
      + apply (Permutation_in _ (insert_by_price_perm x acc)) in Hit.
        destruct Hit as [<- | Hit]; apply in_or_app; [right; left | left]; auto.
      + apply in_or_app. right. right. exact Hit.
    - apply insert_by_price_ascending; [| exact Hacc].
      intros it [<- | Hit]; apply Hp; apply in_or_app; [right; left | left]; auto. }
  intros Hp. apply H; [exact Hp | exact I].
Qed.

Lemma ascending_filter f l : ascending l -> ascending (List.filter f l).
Proof.
  induction l as [| a l IH]; cbn [ascending List.filter]; [auto |].
  intros [Ha Hl]. destruct (f a); [| auto].
  cbn [ascending]. split; [| auto].
  intros b Hb. apply filter_In in Hb as [Hb _]. auto.
Qed.

Lemma NoDup_keys_filter (f : str * float -> bool) l :
  List.NoDup (map fst l) -> List.NoDup (map fst (List.filter f l)).
Proof.
  induction l as [| a l IH]; cbn [map List.filter]; [auto |].
  intros H. inversion H as [| ? ? Ha Hl]; subst.
  destruct (f a); [| auto]. cbn [map]. constructor; [| auto].
  intros Hin. apply Ha. apply in_map_iff in Hin as (b & Hb & Hin).
  apply filter_In in Hin as [Hin _]. rewrite <- Hb. apply in_map. exact Hin.
Qed.

(** X11: given a price ceiling, the comparison answer lists, after its
    heading, exactly the stores of [compare_prices] whose price is at most
    the ceiling, each once, from the cheapest to the dearest; when no
    store sells the product, the answer says so. *)
Theorem comparison_answer info name mx :
  truthy_str (product_name info) = Some name ->
  max_price info = Some mx ->
  (compare_prices name = [] ->
   _handle_comparison_query info
   = inl ("Sorry, I couldn't find any price comparisons for " ++ name ++ ".")) /\
  (compare_prices name <> [] ->
   exists shown,
     _handle_comparison_query info
     = inl ("Here are the prices for the " ++ name ++ " across stores:" ++ [ascii_of_N 10]
            ++ concat (map comparison_line shown)) /\
     ascending shown /\
     List.NoDup (map fst shown) /\
     forall item, In item shown <->
                  In item (compare_prices name) /\ (snd item <=? mx)%float = true).
Proof.
  intros Hname Hmax. unfold _handle_comparison_query. rewrite Hname, Hmax.
  destruct (compare_loop_invariant name products []) as (Hnd & Hsound & _).
  specialize (Hnd (List.NoDup_nil _)). fold (compare_prices name) in Hnd, Hsound.
  destruct (compare_prices name) as [| x l] eqn:Ec; (split; [| intros Hne]);
    try reflexivity; try congruence.
  exists (List.filter (fun item => (snd item <=? mx)%float) (sorted_by_price (x :: l))).
  split; [| split; [| split]].
  - rewrite comparison_lines_shown, <- !app_assoc. reflexivity.
  - apply ascending_filter. apply sorted_by_price_ascending.
    intros [st pr] Hit. destruct (Hsound st pr Hit) as [[] | (p & Hp & _ & <- & _)].
    cbn [snd]. apply in_map. exact Hp.
  - apply NoDup_keys_filter.
    apply (Permutation_NoDup (Permutation_map fst (Permutation_sym (sorted_by_price_perm _)))).
    exact Hnd.
  - intros item. rewrite filter_In. split; intros [Hin Hle]; (split; [| exact Hle]).
    + apply (Permutation_in _ (sorted_by_price_perm _)). exact Hin.
    + apply (Permutation_in _ (Permutation_sym (sorted_by_price_perm _))). exact Hin.
Qed.

Lemma comparison_answer_witness :
  let info := {| max_price := Some 80%float; size := None; color := None; store := None;
                 delivery_target := None; discount_code := None;
                 product_name := Some "casual denim jacket"; query_type := "comparison" |} in
  exists shown,
    _handle_comparison_query info
    = inl ("Here are the prices for the " ++ "casual denim jacket" ++ " across stores:"
           ++ [ascii_of_N 10] ++ concat (map comparison_line shown)) /\
    ascending shown /\
    List.NoDup (map fst shown) /\
    forall item, In item shown <->
                 In item (compare_prices "casual denim jacket")
                 /\ (snd item <=? 80)%float = true.
Proof.
  intros info.
  apply (proj2 (comparison_answer info "casual denim jacket" 80%float eq_refl eq_refl)).
  vm_compute. discriminate.
Defined.

(** ** Shipping estimates *)

(** X12: away from the last week of the calendar a shipping estimate is
    always produced, after one roll of the dice and one reading of the
    clock; it takes 5 to 7 days from the moment read, at the fixed cost,
    and it is available without a deadline, with a deadline more than
    seven days ahead, and never with one less than five days ahead. *)
Theorem shipping_estimate_window product target w :
  sane_clock w ->
  let today := clock w (clock_reads w) in
  exists details,
    get_shipping_estimate product target w
    = (inl details,
       {| clock := clock w; clock_reads := S (clock_reads w);
          dice := dice w; dice_rolls := S (dice_rolls w) |}) /\
    (5 <= estimated_days details <= 7)%Z /\
    cost details = 5.99%float /\
    ordinal (delivery_date details) = (ordinal today + estimated_days details)%Z /\
    micros (delivery_date details) = micros today /\
    (target = None -> available details = true) /\
    (forall t, target = Some t -> (ordinal today + 7 < ordinal t)%Z ->
               available details = true) /\
    (forall t, target = Some t -> (ordinal t < ordinal today + 5)%Z ->
               available details = false).
Proof.
  intros Hw today. destruct (Hw (clock_reads w)) as [Hlo Hhi]. fold today in Hlo, Hhi.
  unfold get_shipping_estimate, bind, randint, now, lift, ret, add_days.
  cbn [clock clock_reads dice dice_rolls]. fold today.
  set (days := (5 + dice w (dice_rolls w) mod (7 - 5 + 1))%Z).
  assert (Hd : (5 <= days <= 7)%Z).
  { subst days. pose proof (Z.mod_pos_bound (dice w (dice_rolls w)) (7 - 5 + 1)). lia. }
  assert (Hin : ((1 <=? ordinal today + days) && (ordinal today + days <=? max_ordinal))%Z
                = true).
  { apply andb_true_iff. split; apply Z.leb_le; lia. }
  rewrite Hin. eexists. split; [reflexivity |].
  cbn [estimated_days cost delivery_date available ordinal micros].
  repeat split; try lia.
  - intros ->. reflexivity.
  - intros t -> Ht. unfold datetime_leb. cbn [ordinal micros].
    apply orb_true_iff. left. apply Z.ltb_lt. lia.
  - intros t -> Ht. unfold datetime_leb. cbn [ordinal micros].
    apply orb_false_iff. split; [apply Z.ltb_ge; lia |].
    apply andb_false_iff. left. apply Z.eqb_neq. lia.
Qed.

Lemma shipping_estimate_window_witness :
  exists details,
    get_shipping_estimate
      (Build_Product "1" "Floral Summer Skirt" 35.99 "Floral" "S" "StoreA" 10
         "Beautiful floral pattern")
      None sample_world
    = (inl details,
       {| clock := clock sample_world; clock_reads := 1;
          dice := dice sample_world; dice_rolls := 1 |}) /\
    (5 <= estimated_days details <= 7)%Z.
Proof.
  assert (Hw : sane_clock sample_world) by (intros n; vm_compute; split; discriminate).
  destruct (shipping_estimate_window
              (Build_Product "1" "Floral Summer Skirt" 35.99 "Floral" "S" "StoreA" 10
                 "Beautiful floral pattern")
              None sample_world Hw) as (details & Hg & Hd & _).
  exists details. split; [exact Hg | exact Hd].
Defined.

(** ** What the extractors capture *)

(** A captured group is a piece of the text that the match went over. *)
Lemma matches_group_within n w re st st' :
  matches re st st' ->
  assoc n (caps st') = Some w ->
  assoc n (caps st) = Some w \/ exists a b, span st st' = a ++ w ++ b.
Proof.
  induction 1 as [st | p c l r g Hp | r1 r2 st1 st2 st3 H1 IH1 H2 IH2
                 | r1 r2 st st' _ IH | r1 r2 st st' _ IH | greedy p a l r g Ha
                 | m r st st' H IH | st Hb | st Hb]; simpl; intros Hw; auto.
  - rewrite (span_trans _ _ _ _ _ H1 H2).
    destruct (IH2 Hw) as [Hw' | (a & b & E)].
    + destruct (IH1 Hw') as [Hw'' | (a & b & E)]; auto.
      right. exists a, (b ++ span st2 st3). rewrite E, <- !app_assoc. reflexivity.
    + right. exists (span st1 st2 ++ a), b. rewrite E, <- !app_assoc. reflexivity.
  - replace (span st (set_cap m (span st st') st')) with (span st st') by reflexivity.
    destruct (Nat.eqb n m) eqn:E.
    + injection Hw as <-. right. exists [], []. rewrite app_nil_r. reflexivity.
    + auto.
Qed.

Lemma search_group_within n re s m w :
  re_search re s = Some m -> group m n = Some w -> exists a b, s = a ++ w ++ b.
Proof.
  intros H Hg. apply search_from_some in H as (a & b & -> & H & _).
  apply match_at_some in H as (st' & Hm & ->).
  pose proof (span_matches _ _ _ Hm) as Hb. cbn [after] in Hb.
  destruct n as [| n]; cbn [group m_caps m_text] in Hg.
  - injection Hg as <-. exists a, (after st'). rewrite <- Hb. reflexivity.
  - destruct (matches_group_within _ _ _ _ _ Hm Hg) as [Habs | (u & v & E)];
      [discriminate |].
    exists (a ++ u), (v ++ after st').
    rewrite <- !app_assoc. f_equal. rewrite Hb at 1. rewrite E, <- !app_assoc. reflexivity.
Qed.

Lemma spells_plus p w : spells (plus p) w -> w <> [] /\ forallb p w = true.
Proof.
  intros H. inversion H as [| | r1 r2 u v H1 H2 | | | | | |]; subst.
  inversion H1 as [| p' c Hc | | | | | | |]; subst.
  inversion H2 as [| | | | | greedy p' u Hu | | |]; subst.
  split; [discriminate |]. cbn [app forallb]. rewrite Hc, Hu. reflexivity.
Qed.

Lemma size_pattern_shape p :
  In p size_patterns -> binds 1 p = true /\ group_bodies 1 p = [plus is_word].
Proof.
  intros [<- | [<- | [<- | []]]]; split; reflexivity.
Qed.

Lemma upper_nonempty g : g <> [] -> upper g <> [].
Proof.
  destruct g as [| c g]; [congruence |]. intros _. unfold upper. cbn [flat_map].
  unfold upper_one.
  destruct (code c =? 223)%N; [discriminate |].
  destruct (code c =? 181)%N; [discriminate |].
  destruct (code c =? 255)%N; discriminate.
Qed.

(** X13: a size read from a query is the upper-cased form of a non-empty
    run of word characters that stands in the lower-cased query, and it is
    never the empty text. *)
Theorem size_is_upper_word q s :
  extract_size q = inl (Some s) ->
  s <> [] /\
  exists g a b,
    lower q = a ++ g ++ b /\ g <> [] /\ forallb is_word g = true /\ s = upper g.
Proof.
  unfold extract_size.
  destruct (first_match size_patterns (lower q)) as [m |] eqn:E; [| discriminate].
  apply first_match_some in E as (p & Hp & Hs).
  destruct (size_pattern_shape p Hp) as [Hb Hg].
  destruct (search_group 0 p _ m Hs Hb) as (w & r & Hw & Hr & Hsp).
  rewrite Hw. intros [= <-]. rewrite Hg in Hr. destruct Hr as [<- | []].
  apply spells_plus in Hsp as [Hne Hall].
  destruct (search_group_within 1 p _ m w Hs Hw) as (a & b & Hq).
  split; [apply upper_nonempty; exact Hne |].
  exists w, a, b. auto.
Qed.

Lemma size_is_upper_word_witness :
  exists g a b,
    lower "A dress, size xl" = a ++ g ++ b /\ g <> [] /\ forallb is_word g = true /\
    utext "XL" = upper g.
Proof.
  apply (size_is_upper_word "A dress, size xl" (utext "XL") eq_refl).
Defined.

(** The three characters whose upper case leaves the range: sharp s, the
    micro sign and y with diaeresis. *)
Example size_outside_range :
  extract_size ("size " ++ [ascii_of_N 223]) = inl (Some (utext "SS")) /\
  extract_size ("size " ++ [ascii_of_N 181]) = inl (Some [U039C]) /\
  extract_size ("size " ++ [ascii_of_N 255]) = inl (Some [U0178]).
Proof. repeat split. Qed.

Lemma discount_pattern_shape p :
  In p discount_patterns ->
  binds 1 p = true /\ group_bodies 1 p = [plus (fun c => is_word c || is_digit c)].
Proof.
  intros [<- | [<- | [<- | []]]]; split; reflexivity.
Qed.

Lemma digit_is_word c : is_word c || is_digit c = is_word c.
Proof. each_char c. Qed.

(** X14: a discount code read from a query is a non-empty run of word
    characters that stands in the query as it was typed. *)
Theorem discount_code_is_token q c :
  extract_discount_code q = Some c ->
  c <> [] /\ forallb is_word c = true /\ exists a b, q = a ++ c ++ b.
Proof.
  unfold extract_discount_code.
  destruct (first_match discount_patterns q) as [m |] eqn:E; [| discriminate].
  apply first_match_some in E as (p & Hp & Hs). intros Hc.
  destruct (discount_pattern_shape p Hp) as [Hb Hg].
  destruct (search_group 0 p _ m Hs Hb) as (w & r & Hw & Hr & Hsp).
  rewrite Hc in Hw. injection Hw as <-. rewrite Hg in Hr. destruct Hr as [<- | []].
  apply spells_plus in Hsp as [Hne Hall].
  repeat split.
  - exact Hne.
  - clear -Hall. induction c as [| x c IH]; [reflexivity |].
    cbn [forallb] in *. apply andb_true_iff in Hall as [Hx Hc].
    rewrite digit_is_word in Hx. rewrite Hx. apply IH. exact Hc.
  - apply (search_group_within 1 p q m c Hs Hc).
Qed.

Lemma discount_code_is_token_witness :
  forallb is_word "SAVE10" = true.
Proof.
  apply (discount_code_is_token ("apply code " ++ [ascii_of_N 39] ++ "SAVE10" ++ [ascii_of_N 39])
           "SAVE10" eq_refl).
Defined.

(** ** What an answer costs *)

Lemma bump_zero w : bump 0 0 w = w.
Proof. destruct w. reflexivity. Qed.

Lemma bump_bump a b c d w : bump a b (bump c d w) = bump (a + c) (b + d) w.
Proof. unfold bump. cbn [clock clock_reads dice dice_rolls]. f_equal; lia. Qed.

Lemma iter_tick_bump k w : Nat.iter k tick w = bump k 0 w.
Proof.
  induction k as [| k IH]; [symmetry; apply bump_zero |].
  change (Nat.iter (S k) tick w) with (tick (Nat.iter k tick w)).
  rewrite IH. reflexivity.
Qed.

Lemma parse_query_world q w :
  exists k, (k <= 4)%nat /\ snd (parse_query q w) = bump k 0 w.
Proof.
  unfold parse_query, bind, lift, ret.
  destruct (_extract_product_name_returns q) as (name & ->).
  destruct (extract_max_price_returns q) as (price & ->).
  destruct (extract_size_returns q) as (sz & ->).
  destruct (_parse_delivery_date q w) as [r w1] eqn:E.
  apply parse_date_loop_world in E as (k & Hk & ->).
  exists k. split; [exact Hk |]. rewrite <- iter_tick_bump. destruct r; reflexivity.
Qed.

Lemma _format_product_response_world product info w :
  exists reads rolls,
    snd (_format_product_response product info w) = bump reads rolls w /\
    (reads <= 2)%nat /\
    (delivery_target info = None -> reads = 0%nat /\ rolls = 0%nat) /\
    (delivery_target info <> None -> rolls = 1%nat).
Proof.
  unfold _format_product_response.
  destruct (delivery_target info) as [target |].
  - unfold get_shipping_estimate, bind, randint, now, lift, ret.
    cbn [clock clock_reads dice dice_rolls].
    destruct (add_days (clock w (clock_reads w)) _) as [delivery | e].
    + cbn [clock clock_reads dice dice_rolls estimated_days available].
      destruct (add_days (clock w (S (clock_reads w)))
                  (5 + dice w (dice_rolls w) mod (7 - 5 + 1))).
      * exists 2%nat, 1%nat. split; [| repeat split; (lia || congruence)].
        destruct (datetime_leb delivery target); reflexivity.
      * exists 2%nat, 1%nat. split; [reflexivity | repeat split; (lia || congruence)].
    + exists 1%nat, 1%nat. split; [reflexivity | repeat split; (lia || congruence)].
  - exists 0%nat, 0%nat. unfold bind, ret. cbn [snd]. rewrite bump_zero.
    repeat split; (lia || congruence).
Qed.

(** X15: whatever the query and the clock, answering it leaves the clock
    and the dice as they are, reads the clock at most six times and rolls
    the dice at most once, and only for a query in which a delivery date
    was read. *)
Theorem handle_query_world q w :
  exists reads rolls,
    snd (handle_query q w) = bump reads rolls w /\
    (reads <= 6)%nat /\ (rolls <= 1)%nat /\
    (rolls = 1%nat -> exists t, fst (_parse_delivery_date q w) = inl (Some t)).
Proof.
  unfold handle_query. unfold bind at 1.
  destruct (parse_query_world q w) as (k & Hk & Hw1).
  destruct (parse_query q w) as [[info | e] w1] eqn:Hq; cbn [snd] in Hw1; subst w1.
  - assert (Hstay : forall s : result str,
               exists reads rolls,
                 snd (s, bump k 0 w) = bump reads rolls w /\
                 (reads <= 6)%nat /\ (rolls <= 1)%nat /\
                 (rolls = 1%nat -> exists t, fst (_parse_delivery_date q w) = inl (Some t))).
    { intros s. exists k, 0%nat. repeat split; (lia || discriminate). }
    assert (Hsearch : exists reads rolls,
               snd (_handle_search_query info (bump k 0 w)) = bump reads rolls w /\
               (reads <= 6)%nat /\ (rolls <= 1)%nat /\
               (rolls = 1%nat -> exists t, fst (_parse_delivery_date q w) = inl (Some t))).
    { unfold _handle_search_query.
      destruct (search_products _ _ _ _) as [| first rest]; [apply (Hstay (inl _)) |].
      destruct (_format_product_response_world first info (bump k 0 w))
        as (reads & rolls & -> & Hr & Hnone & Hsome).
      exists (reads + k)%nat, rolls. rewrite bump_bump, Nat.add_0_r.
      split; [reflexivity |]. split; [lia |].
      destruct (parse_query_inv q w info _ Hq) as (_ & _ & _ & _ & Hd & _).
      destruct (delivery_target info) as [t |] eqn:Et.
      - split; [rewrite Hsome by discriminate; lia |].
        intros _. exists t. rewrite Hd. reflexivity.
      - destruct (Hnone eq_refl) as [_ ->]. split; [lia | discriminate]. }
    destruct (str_eqb (query_type info) "return" && _); [apply (Hstay (inl _)) |].
    destruct (str_eqb (query_type info) "comparison" && _); [| exact Hsearch].
    unfold lift. apply Hstay.
  - exists k, 0%nat. repeat split; (lia || discriminate).
Qed.
